(** * Review-context assembly: diff line bookkeeping and bounded
      definition tracking

    A shallow embedding of [src/git/diffAnalyzer.ts] and of
    [review/definitionTracker.ts] (the definition collector), with the
    properties of the specification stated against it.

    Conventions.
    - A JavaScript [number] that holds a line number, a column, a depth or a
      character budget is a [Z].
    - A JavaScript string is a Rocq [string]; each [ascii] stands for one
      UTF-16 code unit below 256, so [String.length] is [.length].
    - [Set<string>] is a [gset string].
    - The editor services ([openTextDocument], the definition provider,
      [asRelativePath]) and the [diff] package are collaborators that the
      repository does not contain; they enter as records of functions. *)

From Stdlib Require Import ZArith String Ascii List Lia Sorted.
From Stdlib Require Import DecimalString DecimalPos DecimalZ.
From stdpp Require Import base gmap strings list.
Import ListNotations.
Open Scope string_scope.
Open Scope list_scope.
Open Scope stdpp_scope.
Open Scope Z_scope.

(** ** JavaScript primitives used by the sources *)
Module Js.

(** [s.length] *)
Definition strlen (s : string) : Z := Z.of_nat (String.length s).

(** [s.startsWith(p)] *)
Definition startsWith (s p : string) : bool := String.prefix p s.

(** [s.slice(0, n)] for a whole number [n]: a negative [n] counts from
    the end of [s]. *)
Definition slice0 (s : string) (n : Z) : string :=
  let len := strlen s in
  let upto := if n <? 0 then Z.max (len + n) 0 else Z.min n len in
  substring 0 (Z.to_nat upto) s.

(** Template-literal rendering of an integral number: [`${n}`]. *)
Definition numToString (n : Z) : string :=
  NilZero.string_of_int (Z.to_int n).

(** The outcome of a statement sequence that may throw. *)
Inductive Completion (A : Type) : Type :=
| Normal (a : A)
| Throw.
Arguments Normal {A} a.
Arguments Throw {A}.

End Js.
Import Js.

(** ** [src/git/diffAnalyzer.ts] *)
Module DiffAnalyzer.

Record Hunk := mkHunk {
  oldStart : Z;
  newStart : Z;
  lines : list string
}.

Record FileDiff := mkFileDiff {
  oldPath : string;
  newPath : string;
  hunks : list Hunk;
  isNew : bool;
  isDeleted : bool;
  unifiedDiff : string
}.

(** What the [diff] package hands back from [parsePatch]: one record per
    file section.  A file name is [None] when the section has no such
    header line ([undefined] in the source). *)
Record ParsedHunk := mkParsedHunk {
  ph_oldStart : Z;
  ph_oldLines : Z;
  ph_newStart : Z;
  ph_newLines : Z;
  ph_lines : list string
}.

Record ParsedDiff := mkParsedDiff {
  oldFileName : option string;
  newFileName : option string;
  pd_hunks : list ParsedHunk
}.

(** The two entry points of the [diff] package that the module calls.
    [createTwoFilesPatch oldName newName oldStr newStr oldHeader newHeader
    context] renders a patch; [parsePatch] reads one, [None] standing for
    a thrown error. *)
Record DiffLib := mkDiffLib {
  createTwoFilesPatch :
    string -> string -> string -> string -> string -> string -> Z -> string;
  parsePatch : string -> option (list ParsedDiff)
}.

Section WithLibrary.
Variable diff : DiffLib.

(** [generateUnifiedDiff]: the file name goes out under the prefixes
    [a/] and [b/], with five lines of context. *)
Definition generateUnifiedDiff
    (oldContent newContent filename oldRef newRef : string) : string :=
  createTwoFilesPatch diff
    ("a/" +:+ filename) ("b/" +:+ filename)
    oldContent newContent oldRef newRef 5.

(** [file.oldFileName ?? ''] *)
Definition orEmpty (o : option string) : string :=
  match o with Some s => s | None => "" end.

(** [file.oldFileName === '/dev/null'] *)
Definition isDevNull (o : option string) : bool :=
  match o with Some s => String.eqb s "/dev/null" | None => false end.

Definition toHunk (h : ParsedHunk) : Hunk :=
  {| oldStart := ph_oldStart h;
     newStart := ph_newStart h;
     lines := ph_lines h |}.

Definition toFileDiff (diffText : string) (file : ParsedDiff) : FileDiff :=
  {| oldPath := orEmpty (oldFileName file);
     newPath := orEmpty (newFileName file);
     hunks := map toHunk (pd_hunks file);
     isNew := isDevNull (oldFileName file);
     isDeleted := isDevNull (newFileName file);
     unifiedDiff := diffText |}.

(** [parseDiff]: no [try] of its own, so an error thrown by
    [parsePatch] is the only way out other than the result. *)
Definition parseDiff (diffText : string) : option (list FileDiff) :=
  match parsePatch diff diffText with
  | None => None
  | Some files =>
      Some (fold_left (fun results file => results ++ [toFileDiff diffText file])
                      files [])
  end.
End WithLibrary.

(** One iteration of the inner loop of [getChangedLineNumbers]: the state
    is the output array and the running [lineNo]. *)
Definition lineStep (st : list Z * Z) (line : string) : list Z * Z :=
  let '(out, lineNo) := st in
  if startsWith line "+" then (out ++ [lineNo], lineNo + 1)
  else if negb (startsWith line "-") then (out, lineNo + 1)
  else (out, lineNo).

Definition hunkStep (out : list Z) (hunk : Hunk) : list Z :=
  fst (fold_left lineStep (lines hunk) (out, newStart hunk)).

Definition getChangedLineNumbers (fileDiff : FileDiff) : list Z :=
  fold_left hunkStep (hunks fileDiff) [].

(** *** The change-set walk as the specification words it *)

Inductive LineKind := Added | Removed | Context.

Definition lineKind (line : string) : LineKind :=
  if startsWith line "+" then Added
  else if startsWith line "-" then Removed
  else Context.

(** A cursor walks the lines of one hunk: an added line emits the cursor
    and advances it, a context line advances it, a removed line does
    neither. *)
Fixpoint walkHunk (cursor : Z) (ls : list string) : list Z :=
  match ls with
  | [] => []
  | l :: ls' =>
      match lineKind l with
      | Added => cursor :: walkHunk (cursor + 1) ls'
      | Context => walkHunk (cursor + 1) ls'
      | Removed => walkHunk cursor ls'
      end
  end.

Definition changedLinesSpec (fileDiff : FileDiff) : list Z :=
  concat (map (fun h => walkHunk (newStart h) (lines h)) (hunks fileDiff)).

(** Number of new-file lines a hunk spans (added and context lines). *)
Definition newSpan (ls : list string) : Z :=
  Z.of_nat (List.length (List.filter (fun l => negb (startsWith l "-")) ls)).





Definition inOrderDiff : FileDiff :=
  mkFileDiff "a/f.ts" "b/f.ts"
             [mkHunk 1 1 [" a"; "-b"; "+c"]; mkHunk 9 9 ["+d"; " e"; "+f"]]
             false false "".

(** The flags as the round-trip contract words them: [isNew] exactly for
    an empty old text, [isDeleted] exactly for an empty new text. *)
Definition flagsFollowContents (A B : string) (fd : FileDiff) : Prop :=
  (isNew fd = true <-> A = "") /\ (isDeleted fd = true <-> B = "").

End DiffAnalyzer.

(** ** The regular expressions of the tracker

    The source tests lines against regular-expression literals.  They are
    embedded as syntax trees of the constructs those literals use and run by
    a backtracking matcher with the priorities of the JavaScript engine:
    greedy quantifiers try the longest repetition first, the lazy one the
    shortest, an alternation its left branch first. *)
Module Regex.

Definition between (lo hi c : ascii) : bool :=
  ((nat_of_ascii lo <=? nat_of_ascii c) && (nat_of_ascii c <=? nat_of_ascii hi))%nat.

Definition isChar (a c : ascii) : bool := Ascii.eqb a c.

(** [[A-Z]] *)
Definition upper (c : ascii) : bool := between "A" "Z" c.
(** [[a-z_]] *)
Definition lowerOrUnderscore (c : ascii) : bool :=
  between "a" "z" c || isChar "_" c.
(** [\w], which is also [[a-zA-Z0-9_]] *)
Definition word (c : ascii) : bool :=
  between "a" "z" c || between "A" "Z" c || between "0" "9" c || isChar "_" c.
(** [\s] on code units below 256: tab, the line breaks, vertical tab,
    form feed, space and the no-break space. *)
Definition space (c : ascii) : bool :=
  let n := nat_of_ascii c in
  ((9 <=? n) && (n <=? 13) || (n =? 32) || (n =? 160))%nat.
(** [.]: anything but a line terminator *)
Definition dot (c : ascii) : bool :=
  let n := nat_of_ascii c in negb ((n =? 10) || (n =? 13))%nat.
(** [[\.(]] *)
Definition dotOrParen (c : ascii) : bool := isChar "." c || isChar "(" c.

Inductive re : Type :=
| Chr (a : ascii)                       (* one literal character *)
| Cls (p : ascii -> bool)               (* one character of a class *)
| Star (p : ascii -> bool)              (* [p*] *)
| StarLazy (p : ascii -> bool)          (* [p*?] *)
| AtLeast (n : nat) (p : ascii -> bool) (* [p{n,}]; [p+] is [AtLeast 1 p] *)
| Opt (r : re)                          (* [(r)?] *)
| Alt (r1 r2 : re)                      (* [r1|r2] *)
| Seq (r1 r2 : re)
| Eps
| Cap (r : re)                          (* the capture group that is read *)
| Bol                                   (* [^], no multiline flag *)
| Eol                                   (* [$], no multiline flag *)
| WordB.                                (* [\b] *)

(** A literal word is the sequence of its characters. *)
Fixpoint lit (s : string) : re :=
  match s with
  | EmptyString => Eps
  | String a s' => Seq (Chr a) (lit s')
  end.

Fixpoint seq (rs : list re) : re :=
  match rs with
  | [] => Eps
  | r :: rs' => Seq r (seq rs')
  end.

Fixpoint alts (r : re) (rs : list re) : re :=
  match rs with
  | [] => r
  | r' :: rs' => Alt r (alts r' rs')
  end.

(** A position in the subject: the character before it, the characters
    from it on, its index, and the extent of the capture group. *)
Record Cur := mkCur {
  prev : option ascii;
  rest : list ascii;
  pos : nat;
  cap : option (nat * nat)
}.

Definition orElse {T} (a : option T) (b : option T) : option T :=
  match a with Some t => Some t | None => b end.

Section Matcher.
Context {T : Type}.

Fixpoint starGreedy (p : ascii -> bool) (rs : list ascii) (pv : option ascii)
    (i : nat) (cp : option (nat * nat)) (k : Cur -> option T) : option T :=
  match rs with
  | a :: rs' =>
      if p a
      then orElse (starGreedy p rs' (Some a) (S i) cp k) (k (mkCur pv rs i cp))
      else k (mkCur pv rs i cp)
  | [] => k (mkCur pv [] i cp)
  end.

Fixpoint starLazy (p : ascii -> bool) (rs : list ascii) (pv : option ascii)
    (i : nat) (cp : option (nat * nat)) (k : Cur -> option T) : option T :=
  orElse (k (mkCur pv rs i cp))
    match rs with
    | a :: rs' => if p a then starLazy p rs' (Some a) (S i) cp k else None
    | [] => None
    end.

Definition one (p : ascii -> bool) (c : Cur) (k : Cur -> option T) : option T :=
  match rest c with
  | a :: rs' => if p a then k (mkCur (Some a) rs' (S (pos c)) (cap c)) else None
  | [] => None
  end.

Fixpoint exactly (n : nat) (p : ascii -> bool) (c : Cur) (k : Cur -> option T)
    : option T :=
  match n with
  | O => k c
  | S n' => one p c (fun c' => exactly n' p c' k)
  end.

Definition isWordAt (o : option ascii) : bool :=
  match o with Some a => word a | None => false end.

Fixpoint run (r : re) (c : Cur) (k : Cur -> option T) : option T :=
  match r with
  | Chr a => one (isChar a) c k
  | Cls p => one p c k
  | Star p => starGreedy p (rest c) (prev c) (pos c) (cap c) k
  | StarLazy p => starLazy p (rest c) (prev c) (pos c) (cap c) k
  | AtLeast n p =>
      exactly n p c (fun c' => starGreedy p (rest c') (prev c') (pos c') (cap c') k)
  | Opt r1 => orElse (run r1 c k) (k c)
  | Alt r1 r2 => orElse (run r1 c k) (run r2 c k)
  | Seq r1 r2 => run r1 c (fun c' => run r2 c' k)
  | Eps => k c
  | Cap r1 =>
      run r1 c (fun c' =>
        k (mkCur (prev c') (rest c') (pos c') (Some (pos c, pos c'))))
  | Bol => if (pos c =? 0)%nat then k c else None
  | Eol => match rest c with [] => k c | _ => None end
  | WordB =>
      if xorb (isWordAt (prev c)) (isWordAt (head (rest c))) then k c else None
  end.
End Matcher.

(** The leftmost match at or after a position: its start index and the
    position where it ends. *)
Fixpoint searchFrom (r : re) (rs : list ascii) (pv : option ascii) (i : nat)
    : option (nat * Cur) :=
  match run r (mkCur pv rs i None) Some with
  | Some c => Some (i, c)
  | None =>
      match rs with
      | a :: rs' => searchFrom r rs' (Some a) (S i)
      | [] => None
      end
  end.

(** [r.test(s)] for a literal without the [g] flag *)
Definition test (r : re) (s : string) : bool :=
  match searchFrom r (list_ascii_of_string s) None 0 with
  | Some _ => true
  | None => false
  end.

(** [s.replace(r, '')] for a literal without the [g] flag: the first match
    is cut out. *)
Definition removeFirst (r : re) (s : string) : string :=
  let cs := list_ascii_of_string s in
  match searchFrom r cs None 0 with
  | Some (i, c) => string_of_list_ascii (firstn i cs ++ rest c)
  | None => s
  end.

(** Successive matches under the [g] flag, each search resuming where the
    previous match ended.  Every match of the literals used here consumes
    a character, so [fuel] = length + 1 covers the subject. *)
Fixpoint matchesFrom (fuel : nat) (r : re) (rs : list ascii) (pv : option ascii)
    (i : nat) : list (nat * Cur) :=
  match fuel with
  | O => []
  | S fuel' =>
      match searchFrom r rs pv i with
      | None => []
      | Some (j, c) =>
          (j, c) ::
          (if (pos c =? i)%nat
           then match rs with
                | a :: rs' => matchesFrom fuel' r rs' (Some a) (S i)
                | [] => []
                end
           else matchesFrom fuel' r (rest c) (prev c) (pos c))
      end
  end.

Definition matchAll (r : re) (s : string) : list (nat * Cur) :=
  let cs := list_ascii_of_string s in
  matchesFrom (S (List.length cs)) r cs None 0.

(** [s.replace(r, '')] with the [g] flag: what lies between the matches. *)
Fixpoint between_matches (cs : list ascii) (from : nat) (ms : list (nat * Cur))
    : list ascii :=
  match ms with
  | [] => skipn from cs
  | (j, c) :: ms' =>
      firstn (j - from) (skipn from cs) ++ between_matches cs (pos c) ms'
  end.

Definition removeAll (r : re) (s : string) : string :=
  let cs := list_ascii_of_string s in
  string_of_list_ascii (between_matches cs 0 (matchAll r s)).

End Regex.

(** ** The editor services the tracker calls *)
Module Vscode.

Inductive EndOfLine := LF | CRLF.

Definition eolText (e : EndOfLine) : string :=
  match e with
  | LF => String "010" EmptyString
  | CRLF => String "013" (String "010" EmptyString)
  end.

(** A [TextDocument]: its lines without their terminators, and the
    terminator that [getText] puts between them. *)
Record TextDocument := mkDoc {
  docLines : list string;
  docEol : EndOfLine
}.

Definition lineCount (doc : TextDocument) : Z :=
  Z.of_nat (List.length (docLines doc)).

(** [doc.lineAt(i).text]; the editor throws for an index outside
    [0 .. lineCount - 1]. *)
Definition lineAt (doc : TextDocument) (i : Z) : option string :=
  if i <? 0 then None else docLines doc !! Z.to_nat i.

(** [doc.getText(new Range(a, 0, b, 0))]: the lines [a .. b-1], each with
    its terminator; a range that reaches past the last line is clipped to
    the end of the document, where no terminator follows. *)
Definition getText (doc : TextDocument) (a b : Z) : string :=
  let eol := eolText (docEol doc) in
  let from := skipn (Z.to_nat a) (docLines doc) in
  if b <? lineCount doc
  then String.concat "" (map (fun l => l +:+ eol) (firstn (Z.to_nat (b - Z.max a 0)) from))
  else String.concat eol from.

(** [loc.uri.toString()] and [loc.range.start.line] of a [Location]. *)
Record Location := mkLocation {
  loc_uri : string;
  loc_line : Z
}.

(** The definition provider answers with [Location]s or [LocationLink]s. *)
Inductive DefinitionAnswer :=
| ALocation (uri : string) (startLine : Z)
| ALocationLink (targetUri : string) (targetStartLine : Z).

(** The services of one workspace.  A [Uri] is identified with its
    [toString()].  [None] stands for a rejected promise; for the provider
    it also covers an [undefined] answer, which the caller treats alike. *)
Record Workspace := mkWorkspace {
  openTextDocument : string -> option TextDocument;
  executeDefinitionProvider : string -> Z -> Z -> option (list DefinitionAnswer);
  asRelativePath : string -> string
}.

End Vscode.
Import Vscode.

(** ** [review/definitionTracker.ts] *)
Module DefinitionTracker.
Import Regex.

Record DefinitionContext := mkDefinitionContext {
  symbolName : string;
  originFile : string;
  definitionFile : string;
  definitionContent : string;
  startLine : Z;
  endLine : Z
}.

(** *** [extractIdentifiers] *)

(** [/\/\/.*$/] *)
Definition lineCommentRe : re := seq [lit "//"; Star dot; Eol].
(** [/\/\*.*?\*\//g] *)
Definition blockCommentRe : re := seq [lit "/*"; StarLazy dot; lit "*/"].
(** [/\b([A-Z][a-zA-Z0-9_]*|[a-z_][a-zA-Z0-9_]{2,})\s*[\.(]/g] *)
Definition identifierRe : re :=
  seq [WordB;
       Cap (Alt (Seq (Cls upper) (Star word))
                (Seq (Cls lowerOrUnderscore) (AtLeast 2 word)));
       Star space;
       Cls dotOrParen].

(** [match[1]] and [match.index] of one match *)
Definition identifierOf (stripped : string) (m : nat * Cur) : string * Z :=
  let '(index, c) := m in
  (match cap c with
   | Some (from, upto) => substring from (upto - from) stripped
   | None => ""
   end,
   Z.of_nat index).

Definition extractIdentifiers (lineText : string) : list (string * Z) :=
  let stripped := removeAll blockCommentRe (removeFirst lineCommentRe lineText) in
  map (identifierOf stripped) (matchAll identifierRe stripped).

(** *** [extractDefinitionBlock] *)

(** The declaration shapes that start a block:
    [/^\s*(export\s+)?(async\s+)?function|^\s*(export\s+)?class|^\s*(public|private|protected|static|async)\s+\w+\s*\(|^\s*(const|let|var)\s+\w+\s*=\s*(async\s+)?\(/] *)
Definition declarationRe : re :=
  alts
    (seq [Bol; Star space; Opt (Seq (lit "export") (AtLeast 1 space));
          Opt (Seq (lit "async") (AtLeast 1 space)); lit "function"])
    [seq [Bol; Star space; Opt (Seq (lit "export") (AtLeast 1 space)); lit "class"];
     seq [Bol; Star space;
          alts (lit "public") [lit "private"; lit "protected"; lit "static"; lit "async"];
          AtLeast 1 space; AtLeast 1 word; Star space; Chr "("];
     seq [Bol; Star space; alts (lit "const") [lit "let"; lit "var"];
          AtLeast 1 space; AtLeast 1 word; Star space; Chr "="; Star space;
          Opt (Seq (lit "async") (AtLeast 1 space)); Chr "("]].

(** The upward loop [for (i = startLineIndex; i >= Math.max(0,
    startLineIndex - 20); i--)]: [n] counts the decrements that remain.
    [None] is the throw of [lineAt]; [Some None] is a loop that ran out
    without a match. *)
Fixpoint findBlockStart (doc : TextDocument) (lowest i : Z) (n : nat)
    : option (option Z) :=
  if i <? lowest then Some None
  else match lineAt doc i with
       | None => None
       | Some lineText =>
           if test declarationRe lineText then Some (Some i)
           else match n with
                | O => Some None
                | S n' => findBlockStart doc lowest (i - 1) n'
                end
       end.

(** [for (const ch of lineText)]: the brace bookkeeping of one line. *)
Definition braceStep (st : Z * bool) (ch : ascii) : Z * bool :=
  let '(braceDepth, foundOpenBrace) := st in
  let '(braceDepth, foundOpenBrace) :=
    if Ascii.eqb ch "{" then (braceDepth + 1, true)
    else (braceDepth, foundOpenBrace) in
  if Ascii.eqb ch "}" then (braceDepth - 1, foundOpenBrace)
  else (braceDepth, foundOpenBrace).

(** The downward loop [for (i = blockStart; i < totalLines; i++)]: [n]
    counts the lines from [i] to the last one.  [None] is the throw of
    [lineAt], [Some (Some i)] the [break] at line [i], [Some None] a loop
    that passed the last line. *)
Fixpoint findBlockEnd (doc : TextDocument) (n : nat) (i braceDepth : Z)
    (foundOpenBrace : bool) (charCount maxChars : Z) : option (option Z) :=
  match n with
  | O => Some None
  | S n' =>
      match lineAt doc i with
      | None => None
      | Some lineText =>
          let charCount := charCount + strlen lineText + 1 in
          let '(braceDepth, foundOpenBrace) :=
            fold_left braceStep (list_ascii_of_string lineText)
                      (braceDepth, foundOpenBrace) in
          if foundOpenBrace && (braceDepth =? 0) then Some (Some i)
          else if charCount >? maxChars then Some (Some i)
          else findBlockEnd doc n' (i + 1) braceDepth foundOpenBrace charCount
                            maxChars
      end
  end.

Record Block := mkBlock {
  blk_startLine : Z;
  blk_endLine : Z;
  blk_content : string
}.

(** [None] when [lineAt] throws, which the caller catches.  The budget
    [maxChars] is taken as a whole number, of either sign; a budget with a
    fractional part, which the configuration could also hold, is outside
    this embedding. *)
Definition extractDefinitionBlock (doc : TextDocument) (startLineIndex maxChars : Z)
    : option Block :=
  let totalLines := lineCount doc in
  match findBlockStart doc (Z.max 0 (startLineIndex - 20)) startLineIndex 20 with
  | None => None
  | Some found =>
      let blockStart := match found with Some i => i | None => startLineIndex end in
      match findBlockEnd doc (Z.to_nat (totalLines - blockStart)) blockStart
                         0 false 0 maxChars with
      | None => None
      | Some stopped =>
          let blockEnd := match stopped with Some i => i | None => blockStart end in
          let content := getText doc blockStart (blockEnd + 1) in
          Some {| blk_startLine := blockStart + 1;
                  blk_endLine := blockEnd + 1;
                  blk_content := slice0 content maxChars |}
      end
  end.

(** *** The traversal state

    [visited] and [results] are the two objects that every call of
    [gatherRecursive] shares.  [trace] is a ghost log of what the
    traversal did, in order; no branch reads it. *)
Inductive Event :=
| EvOpen (uri : string)                    (* [openTextDocument(uri)] was called *)
| EvScan (uri : string)                    (* the file passed the visited test *)
| EvResolve (uri : string) (line col : Z)  (* the definition provider was called *)
| EvRecord (defKey : string) (ctx : DefinitionContext). (* [results.push(ctx)] *)

Record State := mkState {
  visited : gset string;
  results : list DefinitionContext;
  trace : list Event
}.

Definition initialState : State := mkState ∅ [] [].

(** A command runs on the state and ends normally, throws, or (in the
    recursion below only) runs out of fuel: [None]. *)
Definition M (A : Type) : Type := State -> option (Completion A * State).

Definition ret {A} (a : A) : M A := fun s => Some (Normal a, s).

Definition bind {A B} (m : M A) (f : A -> M B) : M B :=
  fun s =>
    match m s with
    | None => None
    | Some (Normal a, s') => f a s'
    | Some (Throw, s') => Some (Throw, s')
    end.

(** [try { m } catch { handler }] *)
Definition tryCatch {A} (m : M A) (handler : M A) : M A :=
  fun s =>
    match m s with
    | None => None
    | Some (Normal a, s') => Some (Normal a, s')
    | Some (Throw, s') => handler s'
    end.

Definition outOfFuel {A} : M A := fun _ => None.

(** A value that is there, or a throw. *)
Definition orThrow {A} (o : option A) : M A :=
  fun s => match o with Some a => Some (Normal a, s) | None => Some (Throw, s) end.

Notation "'let*' x := m 'in' k" := (bind m (fun x => k))
  (at level 10, x name, m at level 100, k at level 200).
Notation "m ;;; k" := (bind m (fun _ => k))
  (at level 100, k at level 200, right associativity).

(** [for (const x of xs) body(x)]; a [continue] is a body that ends. *)
Fixpoint forEach {A} (xs : list A) (body : A -> M unit) : M unit :=
  match xs with
  | [] => ret tt
  | x :: xs' => body x ;;; forEach xs' body
  end.

Definition log (e : Event) (s : State) : State :=
  mkState (visited s) (results s) (trace s ++ [e]).

(** [visited.has(key)] *)
Definition visitedHas (key : string) : M bool :=
  fun s => Some (Normal (bool_decide (key ∈ visited s)), s).

(** [visited.add(key)] *)
Definition visitedAdd (key : string) : M unit :=
  fun s => Some (Normal tt, mkState ({[key]} ∪ visited s) (results s) (trace s)).

Definition emit (e : Event) : M unit := fun s => Some (Normal tt, log e s).

(** [results.push(ctx)], logged under the dedup key it was admitted by *)
Definition resultsPush (defKey : string) (ctx : DefinitionContext) : M unit :=
  fun s => Some (Normal tt,
                 mkState (visited s) (results s ++ [ctx])
                         (trace s ++ [EvRecord defKey ctx])).

(** ['targetUri' in d ? new vscode.Location(d.targetUri, d.targetRange) : d] *)
Definition toLocation (d : DefinitionAnswer) : Location :=
  match d with
  | ALocation uri line => mkLocation uri line
  | ALocationLink targetUri line => mkLocation targetUri line
  end.

(** [`${fileUri}:${lineNo}:${col}`] *)
Definition probeKey (fileUri : string) (lineNo col : Z) : string :=
  fileUri +:+ ":" +:+ numToString lineNo +:+ ":" +:+ numToString col.

(** [`${loc.uri}:${loc.range.start.line}`] *)
Definition defKeyOf (loc : Location) : string :=
  loc_uri loc +:+ ":" +:+ numToString (loc_line loc).

Section Collector.
Variable w : Workspace.

(** [await vscode.workspace.openTextDocument(uri)] *)
Definition openDocument (uri : string) : M TextDocument :=
  emit (EvOpen uri) ;;; orThrow (openTextDocument w uri).

(** The provider call with its [try]: a throw, an [undefined] and an
    empty array all leave no location to process. *)
Definition resolveLocations (fileUri : string) (line col : Z) : M (list Location) :=
  emit (EvResolve fileUri line col) ;;;
  ret match executeDefinitionProvider w fileUri line col with
      | None => []
      | Some defs => map toLocation defs
      end.

(** The body of [for (const loc of locations)].  [self] is the recursive
    call with the arguments that vary: the file, the seed lines, the
    depth. *)
Definition visitLocation (self : string -> list Z -> Z -> M unit)
    (fileUri name : string) (currentDepth maxCharsPerFile : Z) (loc : Location)
    : M unit :=
  if String.eqb (loc_uri loc) fileUri then ret tt
  else
    let defKey := defKeyOf loc in
    let* seen := visitedHas defKey in
    if seen : bool then ret tt
    else
      visitedAdd defKey ;;;
      tryCatch
        (let* defDoc := openDocument (loc_uri loc) in
         let* blk := orThrow (extractDefinitionBlock defDoc (loc_line loc)
                                                     maxCharsPerFile) in
         resultsPush defKey
           {| symbolName := name;
              originFile := asRelativePath w fileUri;
              definitionFile := asRelativePath w (loc_uri loc);
              definitionContent := blk_content blk;
              startLine := blk_startLine blk;
              endLine := blk_endLine blk |} ;;;
         let nextLines :=
           [blk_startLine blk; (blk_startLine blk + blk_endLine blk) / 2] in
         self (loc_uri loc) nextLines (currentDepth + 1))
        (ret tt).

(** The body of [for (const { name, col } of identifiers)] *)
Definition visitIdentifier (self : string -> list Z -> Z -> M unit)
    (fileUri : string) (currentDepth maxCharsPerFile lineNo : Z)
    (identifier : string * Z) : M unit :=
  let '(name, col) := identifier in
  let key := probeKey fileUri lineNo col in
  let* seen := visitedHas key in
  if seen : bool then ret tt
  else
    visitedAdd key ;;;
    let* locations := resolveLocations fileUri (Z.max (lineNo - 1) 0) col in
    forEach locations (visitLocation self fileUri name currentDepth maxCharsPerFile).

(** The body of [for (const lineNo of targetLines)]; [lineAt] is outside
    every [try] here. *)
Definition visitLine (self : string -> list Z -> Z -> M unit)
    (fileUri : string) (document : TextDocument)
    (currentDepth maxCharsPerFile lineNo : Z) : M unit :=
  let* lineText :=
    orThrow (lineAt document (Z.min (lineNo - 1) (lineCount document - 1))) in
  forEach (extractIdentifiers lineText)
          (visitIdentifier self fileUri currentDepth maxCharsPerFile lineNo).

(** [gatherRecursive].  The recursion is on [fuel]; the depth gate is the
    test of the source, and [fuel] of [maxDepth - currentDepth] is never
    used up (see [gatherRecursive_total]). *)
Fixpoint gatherRecursive (fuel : nat) (fileUri : string) (targetLines : list Z)
    (maxDepth currentDepth maxCharsPerFile : Z) : M unit :=
  if currentDepth >=? maxDepth then ret tt
  else
    match fuel with
    | O => outOfFuel
    | S fuel' =>
        let* opened :=
          tryCatch (let* d := openDocument fileUri in ret (Some d)) (ret None) in
        match opened with
        | None => ret tt
        | Some document =>
            let* seen := visitedHas fileUri in
            if seen : bool then ret tt
            else
              visitedAdd fileUri ;;;
              emit (EvScan fileUri) ;;;
              forEach targetLines
                (visitLine
                   (fun uri nextLines depth =>
                      gatherRecursive fuel' uri nextLines maxDepth depth
                                      maxCharsPerFile)
                   fileUri document currentDepth maxCharsPerFile)
        end
    end.

(** The traversal from the empty state, with the state it ends in. *)
Definition runTraversal (fileUri : string) (changedLines : list Z)
    (maxDepth maxCharsPerFile : Z) : option (Completion unit * State) :=
  gatherRecursive (Z.to_nat maxDepth) fileUri changedLines maxDepth 0
                  maxCharsPerFile initialState.

(** [gatherDefinitionsForChangedLines]: the results of a traversal that
    ends normally; a throw of the outermost call rejects the promise. *)
Definition gatherDefinitionsForChangedLines (fileUri : string)
    (changedLines : list Z) (maxDepth maxCharsPerFile : Z)
    : option (Completion (list DefinitionContext)) :=
  match runTraversal fileUri changedLines maxDepth maxCharsPerFile with
  | None => None
  | Some (Normal _, s) => Some (Normal (results s))
  | Some (Throw, _) => Some Throw
  end.
End Collector.

End DefinitionTracker.

(** ** Workspaces to run the tracker on *)
Module Fixtures.
Import DefinitionTracker.

Definition relativeTo (root uri : string) : string :=
  if String.prefix root uri
  then substring (String.length root) (String.length uri - String.length root) uri
  else uri.

Definition uriX : string := "file:///ws/x.ts".
Definition uriY : string := "file:///ws/y.ts".

(** *** Two files that refer to each other *)

Definition cycleDocX : TextDocument :=
  mkDoc ["import { helper } from './y';";
         "export function main(n) {";
         "  return helper(n);";
         "}"] LF.

Definition cycleDocY : TextDocument :=
  mkDoc ["import { main } from './x';";
         "export function helper(n) {";
         "  return main(n - 1);";
         "}"] LF.

(** [helper] on line 3 of x.ts is defined on line 2 of y.ts; [main] on
    line 3 of y.ts is defined on line 2 of x.ts.  Positions are 0-based. *)
Definition cycleWorkspace : Workspace :=
  {| openTextDocument uri :=
       if String.eqb uri uriX then Some cycleDocX
       else if String.eqb uri uriY then Some cycleDocY
       else None;
     executeDefinitionProvider uri line col :=
       if String.eqb uri uriX && (line =? 2) && (col =? 9)
       then Some [ALocation uriY 1]
       else if String.eqb uri uriY && (line =? 2) && (col =? 9)
       then Some [ALocation uriX 1]
       else Some [];
     asRelativePath := relativeTo "file:///ws/" |}.

(** *** Two references into one block *)

Definition sharedDocX : TextDocument :=
  mkDoc ["store.load(); store.save();"] LF.

Definition sharedDocY : TextDocument :=
  mkDoc ["export class Store {";
         "  load() { return 1; }";
         "  save() { return 2; }";
         "}"] LF.

(** [load] resolves to line 1 of y.ts, [save] to line 2: two methods of
    the same class. *)
Definition sharedWorkspace : Workspace :=
  {| openTextDocument uri :=
       if String.eqb uri uriX then Some sharedDocX
       else if String.eqb uri uriY then Some sharedDocY
       else None;
     executeDefinitionProvider uri line col :=
       if String.eqb uri uriX && (line =? 0) && (col =? 6)
       then Some [ALocation uriY 1]
       else if String.eqb uri uriX && (line =? 0) && (col =? 20)
       then Some [ALocationLink uriY 2]
       else Some [];
     asRelativePath := relativeTo "file:///ws/" |}.

(** *** Two references to a location that cannot be extracted *)

Definition staleDocX : TextDocument :=
  mkDoc ["store.load();";
         "store.load();"] LF.

(** [load] on both lines of x.ts resolves to line 9 of y.ts, which has
    four lines. *)
Definition staleWorkspace : Workspace :=
  {| openTextDocument uri :=
       if String.eqb uri uriX then Some staleDocX
       else if String.eqb uri uriY then Some sharedDocY
       else None;
     executeDefinitionProvider uri line col :=
       if String.eqb uri uriX && (col =? 6)
       then Some [ALocation uriY 9]
       else Some [];
     asRelativePath := relativeTo "file:///ws/" |}.

(** The block that a budget of 30 characters leaves of [Store]. *)
Definition truncatedBlock : Block :=
  {| blk_startLine := 1;
     blk_endLine := 2;
     blk_content := slice0 (getText sharedDocY 0 2) 30 |}.

(** The blocks of [helper] and of [main] in the two-file cycle. *)
Definition cycleBlockY : Block :=
  {| blk_startLine := 2;
     blk_endLine := 4;
     blk_content := slice0 (getText cycleDocY 1 4) 20000 |}.

Definition cycleBlockX : Block :=
  {| blk_startLine := 2;
     blk_endLine := 4;
     blk_content := slice0 (getText cycleDocX 1 4) 20000 |}.

End Fixtures.

(** ** A runnable stand-in for the [diff] package

    The package is not part of the repository.  The stand-in writes and
    reads the text format of the specification's interface section, so
    that [generateUnifiedDiff] and [parseDiff] can be run on examples; it
    is not the package, and what is proved with it is proved of the names
    and lines that pass through it, not of the package's own choices, which
    may differ (such as the start line reported for a side without
    lines). *)
Module JsDiff.
Import DiffAnalyzer.

Definition newline : string := String "010" EmptyString.
Definition tab : string := String "009" EmptyString.

(** The pieces of [s] between occurrences of the character [sep]. *)
Fixpoint splitOn (sep : ascii) (s : string) : list string :=
  match s with
  | EmptyString => [EmptyString]
  | String a s' =>
      if Ascii.eqb a sep then EmptyString :: splitOn sep s'
      else match splitOn sep s' with
           | piece :: pieces => String a piece :: pieces
           | [] => [String a EmptyString]
           end
  end.

(** The lines of a text; a final line terminator opens no further line. *)
Definition splitLines (text : string) : list string :=
  let pieces := splitOn "010" text in
  match List.last pieces "x" with
  | EmptyString => removelast pieces
  | _ => pieces
  end.

(** One row of the table of common-subsequence lengths: entry [j] is the
    length for the old lines from [x] on and the new lines from [j] on,
    given the row [below] for the old lines after [x]. *)
Fixpoint lcsRow (x : string) (ys : list string) (below : list nat) : list nat :=
  match ys with
  | [] => [0%nat]
  | y :: ys' =>
      let right := lcsRow x ys' (tl below) in
      (if String.eqb x y then S (hd 0%nat (tl below))
       else Nat.max (hd 0%nat below) (hd 0%nat right)) :: right
  end.

Fixpoint lcsTable (xs ys : list string) : list (list nat) :=
  match xs with
  | [] => [repeat 0%nat (S (List.length ys))]
  | x :: xs' =>
      let t := lcsTable xs' ys in
      lcsRow x ys (hd [] t) :: t
  end.

(** Walk the table from its corner: keep a common line, otherwise drop the
    old line unless keeping it leads to a longer common subsequence. *)
Fixpoint walkTable (fuel : nat) (xs ys : list string) (rows : list (list nat))
    : list (LineKind * string) :=
  match fuel with
  | O => []
  | S fuel' =>
      match xs, ys with
      | [], _ => map (pair Added) ys
      | _, [] => map (pair Removed) xs
      | x :: xs', y :: ys' =>
          if String.eqb x y
          then (Context, x) :: walkTable fuel' xs' ys' (map (@tl nat) (tl rows))
          else
            let down := hd 0%nat (hd [] (tl rows)) in
            let right := hd 0%nat (tl (hd [] rows)) in
            if (right <=? down)%nat
            then (Removed, x) :: walkTable fuel' xs' ys (tl rows)
            else (Added, y) :: walkTable fuel' xs ys' (map (@tl nat) rows)
      end
  end.

(** Modelled from the spec: the line-level edit script of the external
    [diff] package, which is not part of the repository ("a minimal
    line-level edit script (longest-common-subsequence style) between the
    two texts split on line boundaries").  A removal goes before an
    addition of equal cost. *)
Definition editScript (xs ys : list string) : list (LineKind * string) :=
  walkTable (S (List.length xs + List.length ys)) xs ys (lcsTable xs ys).

Definition marker (k : LineKind) : string :=
  match k with Added => "+" | Removed => "-" | Context => " " end.

(** A hunk under construction: where it starts, its lines so far, and how
    many of them at the end are context after the last change. *)
Record OpenHunk := mkOpenHunk {
  oh_oldStart : Z;
  oh_newStart : Z;
  oh_lines : list (LineKind * string);
  oh_trailing : nat
}.

Record Grouping := mkGrouping {
  g_oldLine : Z;
  g_newLine : Z;
  g_before : list (LineKind * string);   (* context seen while no hunk is open *)
  g_open : option OpenHunk;
  g_closed : list OpenHunk
}.

Definition lastN {A} (n : nat) (l : list A) : list A :=
  skipn (List.length l - n) l.

(** Close a hunk, keeping at most [context] lines after its last change. *)
Definition closeHunk (context : nat) (h : OpenHunk) : OpenHunk :=
  let keep := (List.length (oh_lines h) - (oh_trailing h - context))%nat in
  mkOpenHunk (oh_oldStart h) (oh_newStart h) (firstn keep (oh_lines h))
             (Nat.min (oh_trailing h) context).

Definition groupStep (context : nat) (g : Grouping) (e : LineKind * string)
    : Grouping :=
  let '(k, _) := e in
  let oldLine' := match k with Added => g_oldLine g | _ => g_oldLine g + 1 end in
  let newLine' := match k with Removed => g_newLine g | _ => g_newLine g + 1 end in
  match k, g_open g with
  | Context, None =>
      mkGrouping oldLine' newLine' (lastN context (g_before g ++ [e])) None
                 (g_closed g)
  | Context, Some h =>
      let h' := mkOpenHunk (oh_oldStart h) (oh_newStart h) (oh_lines h ++ [e])
                           (S (oh_trailing h)) in
      if (2 * context <? oh_trailing h')%nat
      then mkGrouping oldLine' newLine' (lastN context (oh_lines h')) None
                      (g_closed g ++ [closeHunk context h'])
      else mkGrouping oldLine' newLine' [] (Some h') (g_closed g)
  | _, None =>
      let lead := Z.of_nat (List.length (g_before g)) in
      mkGrouping oldLine' newLine' []
                 (Some (mkOpenHunk (g_oldLine g - lead) (g_newLine g - lead)
                                   (g_before g ++ [e]) 0))
                 (g_closed g)
  | _, Some h =>
      mkGrouping oldLine' newLine' []
                 (Some (mkOpenHunk (oh_oldStart h) (oh_newStart h)
                                   (oh_lines h ++ [e]) 0))
                 (g_closed g)
  end.

(** Modelled from the spec: the hunks of the external [diff] package
    ("groups contiguous changed regions, and expands each group by
    [contextLines] lines of surrounding unchanged text on each side, merging
    groups whose expanded context windows overlap"). *)
Definition groupHunks (context : nat) (script : list (LineKind * string))
    : list OpenHunk :=
  let g := fold_left (groupStep context) script (mkGrouping 1 1 [] None []) in
  match g_open g with
  | Some h => g_closed g ++ [closeHunk context h]
  | None => g_closed g
  end.

Definition countKind (keep : LineKind -> bool) (ls : list (LineKind * string)) : Z :=
  Z.of_nat (List.length (List.filter (fun e => keep (fst e)) ls)).

Definition renderHunk (h : OpenHunk) : list string :=
  let oldLines := countKind (fun k => match k with Added => false | _ => true end)
                            (oh_lines h) in
  let newLines := countKind (fun k => match k with Removed => false | _ => true end)
                            (oh_lines h) in
  let oldStart := if oldLines =? 0 then oh_oldStart h - 1 else oh_oldStart h in
  let newStart := if newLines =? 0 then oh_newStart h - 1 else oh_newStart h in
  ("@@ -" +:+ numToString oldStart +:+ "," +:+ numToString oldLines +:+
   " +" +:+ numToString newStart +:+ "," +:+ numToString newLines +:+ " @@")
  :: map (fun e => marker (fst e) +:+ snd e) (oh_lines h).

(** Modelled from the spec: the patch writer of the external [diff]
    package, in the text format of the specification's interface section:
    the two header lines with the file names and labels, then the hunks. *)
Definition render (oldName newName oldStr newStr oldHeader newHeader : string)
    (context : Z) : string :=
  let hunks := groupHunks (Z.to_nat context)
                          (editScript (splitLines oldStr) (splitLines newStr)) in
  String.concat ""
    (map (fun l => l +:+ newline)
         (("--- " +:+ oldName +:+ tab +:+ oldHeader)
          :: ("+++ " +:+ newName +:+ tab +:+ newHeader)
          :: concat (map renderHunk hunks))).

(** *** Reading a patch *)

Definition digitValue (c : ascii) : option Z :=
  let n := nat_of_ascii c in
  if ((48 <=? n) && (n <=? 57))%nat then Some (Z.of_nat (n - 48)) else None.

Fixpoint readDigits (acc : Z) (s : string) : Z * string :=
  match s with
  | String c s' =>
      match digitValue c with
      | Some d => readDigits (10 * acc + d) s'
      | None => (acc, s)
      end
  | EmptyString => (acc, s)
  end.

(** A number of at least one digit at the head of [s]. *)
Definition readNumber (s : string) : option (Z * string) :=
  match s with
  | String c _ =>
      match digitValue c with
      | Some _ => Some (readDigits 0 s)
      | None => None
      end
  | EmptyString => None
  end.

Definition expect (p s : string) : option string :=
  if String.prefix p s
  then Some (substring (String.length p) (String.length s - String.length p) s)
  else None.

(** The hunk header grammar [@@ -a,b +c,d @@]. *)
Definition readHunkHeader (l : string) : option ParsedHunk :=
  s ← expect "@@ -" l;
  '(a, s) ← readNumber s;
  s ← expect "," s;
  '(b, s) ← readNumber s;
  s ← expect " +" s;
  '(c, s) ← readNumber s;
  s ← expect "," s;
  '(d, s) ← readNumber s;
  _ ← expect " @@" s;
  Some (mkParsedHunk a b c d []).

(** The file name of a header line: what stands before the tab. *)
Definition headerName (rest : string) : string :=
  match splitOn "009" rest with
  | name :: _ => name
  | [] => rest
  end.

Record Reading := mkReading {
  r_files : list ParsedDiff;             (* finished file sections *)
  r_file : option ParsedDiff;            (* the section being read *)
  r_hunk : option (ParsedHunk * Z * Z)   (* its open hunk, lines still owed *)
}.

Definition addHunk (f : ParsedDiff) (h : ParsedHunk) : ParsedDiff :=
  mkParsedDiff (oldFileName f) (newFileName f) (pd_hunks f ++ [h]).

Definition flushHunk (r : Reading) : option ParsedDiff :=
  match r_file r, r_hunk r with
  | Some f, Some (h, _, _) => Some (addHunk f h)
  | Some f, None => Some f
  | None, Some (h, _, _) => Some (mkParsedDiff None None [h])
  | None, None => None
  end.

Definition flushFile (r : Reading) : list ParsedDiff :=
  match flushHunk r with
  | Some f => r_files r ++ [f]
  | None => r_files r
  end.

Definition pushLine (h : ParsedHunk) (l : string) : ParsedHunk :=
  mkParsedHunk (ph_oldStart h) (ph_oldLines h) (ph_newStart h) (ph_newLines h)
               (ph_lines h ++ [l]).

(** Modelled from the spec: the patch reader of the external [diff]
    package ("fails ... only when a hunk header cannot be matched to the
    [@@ -a,b +c,d @@] grammar; unknown leading line markers inside a hunk
    are treated as context").  A hunk takes the lines its header counts. *)
Definition readLine (r : Reading) (l : string) : option Reading :=
  match r_hunk r with
  | Some (h, oldOwed, newOwed) =>
      if (0 <? oldOwed) || (0 <? newOwed) then
        let '(o, n) :=
          if startsWith l "+" then (oldOwed, newOwed - 1)
          else if startsWith l "-" then (oldOwed - 1, newOwed)
          else if startsWith l "\" then (oldOwed, newOwed)
          else (oldOwed - 1, newOwed - 1) in
        Some (mkReading (r_files r) (r_file r) (Some (pushLine h l, o, n)))
      else None
  | None => None
  end.

Definition readOutside (r : Reading) (l : string) : option Reading :=
  if startsWith l "--- " then
    Some (mkReading (flushFile r)
                    (Some (mkParsedDiff
                             (Some (headerName (substring 4 (String.length l - 4) l)))
                             None []))
                    None)
  else if startsWith l "+++ " then
    let name := Some (headerName (substring 4 (String.length l - 4) l)) in
    Some (mkReading (r_files r)
                    (Some match r_file r with
                          | Some f => mkParsedDiff (oldFileName f) name (pd_hunks f)
                          | None => mkParsedDiff None name []
                          end)
                    None)
  else if startsWith l "@@" then
    match readHunkHeader l with
    | None => None
    | Some h =>
        Some (mkReading (r_files r)
                        (Some match flushHunk r with
                              | Some f => f
                              | None => mkParsedDiff None None []
                              end)
                        (Some (h, ph_oldLines h, ph_newLines h)))
    end
  else Some (mkReading (r_files r) (flushHunk r) None).

Definition readStep (acc : option Reading) (l : string) : option Reading :=
  match acc with
  | None => None
  | Some r =>
      match readLine r l with
      | Some r' => Some r'
      | None => readOutside r l
      end
  end.

Definition parse (text : string) : option (list ParsedDiff) :=
  match fold_left readStep (splitLines text) (Some (mkReading [] None None)) with
  | Some r => Some (flushFile r)
  | None => None
  end.

Definition library : DiffLib :=
  {| createTwoFilesPatch := render; parsePatch := parse |}.

End JsDiff.

(** ** What a traversal may do, one step at a time *)
Module Traversal.
Import DefinitionTracker.

(** The files that passed the visited test, in order. *)
Fixpoint scannedFiles (t : list Event) : list string :=
  match t with
  | [] => []
  | EvScan uri :: t' => uri :: scannedFiles t'
  | _ :: t' => scannedFiles t'
  end.

(** The files the document provider was asked for, in order. *)
Fixpoint openedFiles (t : list Event) : list string :=
  match t with
  | [] => []
  | EvOpen uri :: t' => uri :: openedFiles t'
  | _ :: t' => openedFiles t'
  end.

(** The pushes onto [results], each with its dedup key. *)
Fixpoint records (t : list Event) : list (string * DefinitionContext) :=
  match t with
  | [] => []
  | EvRecord key ctx :: t' => (key, ctx) :: records t'
  | _ :: t' => records t'
  end.

(** The records that were pushed under one dedup key. *)
Definition recordsUnder (key : string) (t : list Event)
    : list DefinitionContext :=
  map snd (List.filter (fun r => String.eqb (fst r) key) (records t)).

(** The record that [visitLocation] builds for a location. *)
Definition contextOf (w : Workspace) (fileUri name : string) (loc : Location)
    (blk : Block) : DefinitionContext :=
  {| symbolName := name;
     originFile := asRelativePath w fileUri;
     definitionFile := asRelativePath w (loc_uri loc);
     definitionContent := blk_content blk;
     startLine := blk_startLine blk;
     endLine := blk_endLine blk |}.

(** A record comes from a resolved location: its key is that location's
    [uri:line], its block is extracted there. *)
Definition recordedFrom (w : Workspace) (maxChars : Z)
    (r : string * DefinitionContext) : Prop :=
  exists fileUri name loc defDoc blk,
    fst r = defKeyOf loc /\
    openTextDocument w (loc_uri loc) = Some defDoc /\
    extractDefinitionBlock defDoc (loc_line loc) maxChars = Some blk /\
    snd r = contextOf w fileUri name loc blk.

(** The block at a resolved location, as the [try] of the location loop
    gets it: [None] when the document does not open or [lineAt] throws. *)
Definition blockAt (w : Workspace) (maxChars : Z) (loc : Location)
    : option Block :=
  match openTextDocument w (loc_uri loc) with
  | Some defDoc => extractDefinitionBlock defDoc (loc_line loc) maxChars
  | None => None
  end.

(** From [s] to [s'] the traversal has pushed the records [rs], scanned
    the files [scans] and asked for the files [opens], in this order. *)
Definition adds (s s' : State) (rs : list DefinitionContext)
    (scans opens : list string) : Prop :=
  results s' = results s ++ rs /\
  scannedFiles (trace s') = scannedFiles (trace s) ++ scans /\
  openedFiles (trace s') = openedFiles (trace s) ++ opens.

(** The states that the stretches of the source between two branch
    points lead to. *)
Definition afterScan (s : State) (uri : string) : State :=
  mkState ({[uri]} ∪ visited s) (results s) (trace s ++ [EvScan uri]).

Definition afterProbe (s : State) (key uri : string) (line col : Z) : State :=
  mkState ({[key]} ∪ visited s) (results s) (trace s ++ [EvResolve uri line col]).

Definition afterSkip (s : State) (key uri : string) : State :=
  mkState ({[key]} ∪ visited s) (results s) (trace s ++ [EvOpen uri]).

Definition afterRecord (s : State) (loc : Location) (ctx : DefinitionContext)
    : State :=
  mkState ({[defKeyOf loc]} ∪ visited s) (results s ++ [ctx])
          (trace s ++ [EvOpen (loc_uri loc); EvRecord (defKeyOf loc) ctx]).

(** The atomic changes of the shared state: a document is asked for; a
    file passes the visited test; a probe passes it and the provider is
    called; a definition key passes it and the block is not extracted
    (the document does not open, or [lineAt] throws); a definition key
    passes it and its block is recorded. *)
Inductive step (w : Workspace) (maxChars : Z) : State -> State -> Prop :=
| step_open uri s :
    step w maxChars s (log (EvOpen uri) s)
| step_scan uri s :
    uri ∉ visited s ->
    step w maxChars s (afterScan s uri)
| step_probe key uri line col s :
    key ∉ visited s ->
    step w maxChars s (afterProbe s key uri line col)
| step_skip key uri s :
    key ∉ visited s ->
    step w maxChars s (afterSkip s key uri)
| step_record fileUri name loc defDoc blk s :
    defKeyOf loc ∉ visited s ->
    openTextDocument w (loc_uri loc) = Some defDoc ->
    extractDefinitionBlock defDoc (loc_line loc) maxChars = Some blk ->
    step w maxChars s (afterRecord s loc (contextOf w fileUri name loc blk)).

Definition reach (w : Workspace) (maxChars : Z) : State -> State -> Prop :=
  rtc (step w maxChars).

(** The characters that the downward loop has counted when it stands on
    line [b], having started on line [a]: each line and one more. *)
Definition accumulatedChars (doc : TextDocument) (a b : Z) : Z :=
  fold_left (fun n l => n + strlen l + 1)
            (firstn (Z.to_nat (b + 1 - a)) (skipn (Z.to_nat a) (docLines doc))) 0.

(** What holds of the state all along a traversal. *)
Record Invariant (w : Workspace) (maxChars : Z) (s : State) : Prop := {
  inv_scans_nodup : NoDup (scannedFiles (trace s));
  inv_scans_visited : forall uri, uri ∈ scannedFiles (trace s) -> uri ∈ visited s;
  inv_keys_nodup : NoDup (map fst (records (trace s)));
  inv_keys_visited : forall key, key ∈ map fst (records (trace s)) -> key ∈ visited s;
  inv_results : results s = map snd (records (trace s));
  inv_origin : Forall (recordedFrom w maxChars) (records (trace s))
}.

(** A command never leaves the steps. *)
Definition sound (w : Workspace) (maxChars : Z) (m : M unit) : Prop :=
  forall s c s', m s = Some (c, s') -> reach w maxChars s s'.

(** A command always comes to an end. *)
Definition total (m : M unit) : Prop :=
  forall s, exists c s', m s = Some (c, s').

(** The locations that the provider gives for an identifier, an answer
    that is missing counting as none. *)
Definition locationsAt (w : Workspace) (fileUri : string) (lineNo col : Z)
    : list Location :=
  match executeDefinitionProvider w fileUri (Z.max (lineNo - 1) 0) col with
  | None => []
  | Some defs => map toLocation defs
  end.

(** *** Following the first reference to a definition *)

Definition sameLocation (a b : Location) : bool :=
  String.eqb (loc_uri a) (loc_uri b) && (loc_line a =? loc_line b).

(** The identifier at [col] on line [lineNo] of [fileUri] resolves to
    [target], possibly among other locations. *)
Definition refersTo (w : Workspace) (fileUri : string) (target : Location)
    (lineNo col : Z) : bool :=
  existsb (sameLocation target) (locationsAt w fileUri lineNo col).

(** The name of the first identifier of a line that resolves to [target]. *)
Definition firstInLine (w : Workspace) (fileUri : string) (target : Location)
    (lineNo : Z) (identifiers : list (string * Z)) : option string :=
  match find (fun id => refersTo w fileUri target lineNo (snd id)) identifiers with
  | Some id => Some (fst id)
  | None => None
  end.

(** The same over the target lines of a scan, in the order the loops take
    them; a line that [lineAt] rejects ends the scan. *)
Fixpoint firstReference (w : Workspace) (fileUri : string) (doc : TextDocument)
    (target : Location) (targetLines : list Z) : option string :=
  match targetLines with
  | [] => None
  | lineNo :: rest =>
      match lineAt doc (Z.min (lineNo - 1) (lineCount doc - 1)) with
      | None => None
      | Some lineText =>
          match firstInLine w fileUri target lineNo (extractIdentifiers lineText) with
          | Some name => Some name
          | None => firstReference w fileUri doc target rest
          end
      end
  end.

(** A scan has asked for the file of [target] and recorded its block
    under the name [name], followed by what the recursion into the
    defining file did. *)
Definition recordedTarget (w : Workspace) (fileUri : string) (target : Location)
    (blk : Block) (added : list DefinitionContext) (scans opens : list string)
    (before : State) (name : string) (after : State) : Prop :=
  adds before after (contextOf w fileUri name target blk :: added) scans
       (loc_uri target :: opens) /\
  (defKeyOf target ∈ visited after).

(** Two file names are distinct and neither begins with the other
    followed by a colon: then no key built on one of them ([uri:line],
    [uri:line:col]) is the other name or a key built on it.  Names of
    which one only begins with the other (a.ts and a.tsx) are apart. *)
Definition keysApart (X Y : string) : Prop :=
  X <> Y /\
  String.prefix (X +:+ ":") Y = false /\
  String.prefix (Y +:+ ":") X = false.

(** Two files whose only references across files are to one definition
    in each other. *)
Record MutualCycle (w : Workspace) (maxChars : Z) (X Y : string)
    (docX docY : TextDocument) (locX locY : Location) (blkX blkY : Block)
    : Prop := {
  mc_apart : keysApart X Y;
  mc_docX : openTextDocument w X = Some docX;
  mc_docY : openTextDocument w Y = Some docY;
  mc_inX : loc_uri locX = X;
  mc_inY : loc_uri locY = Y;
  mc_blkX : extractDefinitionBlock docX (loc_line locX) maxChars = Some blkX;
  mc_blkY : extractDefinitionBlock docY (loc_line locY) maxChars = Some blkY;
  mc_fromX : forall lineNo col loc,
      In loc (locationsAt w X lineNo col) -> loc = locY \/ loc_uri loc = X;
  mc_fromY : forall lineNo col loc,
      In loc (locationsAt w Y lineNo col) -> loc = locX \/ loc_uri loc = Y
}.

(** No colon occurs in a string. *)
Fixpoint colonFree (s : string) : Prop :=
  match s with
  | EmptyString => True
  | String a s' => a <> ":"%char /\ colonFree s'
  end.

(** The target lines all exist in the document. *)
Definition linesExist (doc : TextDocument) (ls : list Z) : Prop :=
  forall l, In l ls -> lineAt doc (Z.min (l - 1) (lineCount doc - 1)) <> None.

(** *** The states that the traversal of a mutual cycle goes through *)

(** While the first file is scanned and its reference has not been
    reached: the visited set holds the file and probes that do not lead
    to the other file. *)
Definition scanningFirst (w : Workspace) (X : string) (locY : Location)
    (s : State) : Prop :=
  (X ∈ visited s) /\
  (forall k, k ∈ visited s ->
             k = X \/
             (exists l c, k = probeKey X l c /\ refersTo w X locY l c = false)).

(** On entry into the second file: the first file, probes of it, and the
    key of the definition just recorded. *)
Definition enteringSecond (X : string) (locY : Location) (s : State) : Prop :=
  (X ∈ visited s) /\
  (forall k, k ∈ visited s ->
             k = X \/ (exists l c, k = probeKey X l c) \/ k = defKeyOf locY).

(** While the second file is scanned and its reference back has not been
    reached. *)
Definition scanningSecond (w : Workspace) (X Y : string) (locX : Location)
    (s : State) : Prop :=
  (X ∈ visited s) /\ (defKeyOf locX ∉ visited s) /\
  (forall l c, refersTo w Y locX l c = true -> probeKey Y l c ∉ visited s).

(** What the scan of the second file adds: the block of the first file,
    if the start line or the midpoint line of the block just recorded
    refers to it. *)
Definition backReference (w : Workspace) (Y : string) (docY : TextDocument)
    (locX : Location) (blkX blkY : Block) : list DefinitionContext :=
  match firstReference w Y docY locX
          [blk_startLine blkY; (blk_startLine blkY + blk_endLine blkY) / 2] with
  | Some name => [contextOf w Y name locX blkX]
  | None => []
  end.

(** The files asked for after the entry into the second file, when the
    block of the first file is recorded there: the first file for the
    extraction, and once more on the entry back into it, the third entry
    of the traversal, unless the depth gate has closed by then (that
    entry is at depth 2). *)
Definition backOpens (w : Workspace) (X Y : string) (docY : TextDocument)
    (locX : Location) (blkY : Block) (maxDepth : Z) : list string :=
  match firstReference w Y docY locX
          [blk_startLine blkY; (blk_startLine blkY + blk_endLine blkY) / 2] with
  | Some _ => X :: (if 2 <? maxDepth then [X] else [])
  | None => []
  end.

End Traversal.

(** ** Measures of a patch and of a block *)
Module Extent.
Import DiffAnalyzer DefinitionTracker Regex.

(** The lines of all hunks of a file that the patch adds. *)
Definition addedLines (fd : FileDiff) : list string :=
  List.filter (fun l => startsWith l "+") (concat (map lines (hunks fd))).

(** Line [j] of the document has one of the declaration shapes. *)
Definition declares (doc : TextDocument) (j : Z) : bool :=
  match lineAt doc j with
  | Some lineText => test declarationRe lineText
  | None => false
  end.

(** The characters of the lines [a .. b], in order. *)
Definition charsOf (doc : TextDocument) (a b : Z) : list ascii :=
  concat (map list_ascii_of_string
              (firstn (Z.to_nat (b + 1 - a)) (skipn (Z.to_nat a) (docLines doc)))).

(** The brace depth after the lines [a .. b], and whether an opening
    brace occurs in them. *)
Definition braceState (doc : TextDocument) (a b : Z) : Z * bool :=
  fold_left braceStep (charsOf doc a b) (0, false).

(** The downward loop of [extractDefinitionBlock], started on line [a],
    breaks on line [b]: the braces opened since [a] are closed again, or
    the characters counted exceed the budget. *)
Definition stopsAt (doc : TextDocument) (maxChars a b : Z) : bool :=
  (snd (braceState doc a b) && (fst (braceState doc a b) =? 0))
  || (Traversal.accumulatedChars doc a b >? maxChars).

(** The patch of a file that did not exist before. *)
Definition newFilePatch : string :=
  "--- /dev/null" +:+ JsDiff.newline +:+
  "+++ b/f.ts" +:+ JsDiff.newline +:+
  "@@ -0,0 +1,1 @@" +:+ JsDiff.newline +:+
  "+x" +:+ JsDiff.newline.

End Extent.

(** ** How far a match moves through its subject *)
Module Matching.
Import Regex.

(** A later position of the same subject. *)
Definition advances (c c' : Cur) : Prop :=
  exists pre, rest c = pre ++ rest c' /\ pos c' = (pos c + List.length pre)%nat.

(** An expression every match of which takes at least one character. *)
Fixpoint consumes (r : re) : bool :=
  match r with
  | Chr _ | Cls _ => true
  | AtLeast n _ => (1 <=? n)%nat
  | Alt r1 r2 => consumes r1 && consumes r2
  | Seq r1 r2 => consumes r1 || consumes r2
  | Cap r1 => consumes r1
  | _ => false
  end.

(** Only white space. *)
Definition blank (s : string) : bool :=
  forallb space (list_ascii_of_string s).

(** No line terminator. *)
Definition singleLine (s : string) : bool :=
  forallb dot (list_ascii_of_string s).

(** An expression that reads neither the index nor the character before
    the position. *)
Fixpoint positionFree (r : re) : bool :=
  match r with
  | Bol | WordB => false
  | Opt r1 | Cap r1 => positionFree r1
  | Alt r1 r2 | Seq r1 r2 => positionFree r1 && positionFree r2
  | _ => true
  end.

(** Wherever the first continuation accepts, the second accepts at every
    position with the same characters ahead. *)
Definition follows {T T'} (k : Cur -> option T) (k' : Cur -> option T') : Prop :=
  forall d d', rest d = rest d' -> k d <> None -> k' d' <> None.

(** The next character, if there is one, is white space. *)
Definition blankAhead (rs : list ascii) : Prop :=
  match rs with [] => True | a :: _ => space a = true end.

End Matching.

(** ** Where the records of a traversal come from *)
Module Provenance.
Import DefinitionTracker Traversal.

(** A command keeps a property of the records made so far. *)
Definition keeps (Q : string * DefinitionContext -> Prop) (m : M unit) : Prop :=
  forall s c s',
    m s = Some (c, s') ->
    Forall Q (records (trace s)) -> Forall Q (records (trace s')).

(** A command that ends does so without a throw. *)
Definition quiet (m : M unit) : Prop :=
  forall s c s', m s = Some (c, s') -> c = Normal tt.

(** A command that ends does so with a throw. *)
Definition throws (m : M unit) : Prop :=
  forall s c s', m s = Some (c, s') -> c = Throw.

(** The record links two different files. *)
Definition crossFile (w : Workspace) (ctx : DefinitionContext) : Prop :=
  exists fileUri target,
    fileUri <> target /\
    originFile ctx = asRelativePath w fileUri /\
    definitionFile ctx = asRelativePath w target.

(** The positions that the definition provider was asked about, in
    order. *)
Fixpoint resolved (t : list Event) : list (string * Z * Z) :=
  match t with
  | [] => []
  | EvResolve uri line col :: t' => (uri, line, col) :: resolved t'
  | _ :: t' => resolved t'
  end.

(** A command keeps a property of the state. *)
Definition preserves (I : State -> Prop) (m : M unit) : Prop :=
  forall s c s', m s = Some (c, s') -> I s -> I s'.

(** No position was asked about twice, and the probe key of every
    position asked about is in the visited set. *)
Definition probedOnce (s : State) : Prop :=
  List.NoDup (resolved (trace s)) /\
  (forall uri line col,
      In (uri, line, col) (resolved (trace s)) ->
      probeKey uri (line + 1) col ∈ visited s).

End Provenance.

(** ** More of JavaScript: [trim], [Map] and [Set] in insertion order *)
Module JsLib.
Import Regex.

Definition isEmpty (s : string) : bool :=
  match s with EmptyString => true | _ => false end.

Fixpoint trimStartChars (cs : list ascii) : list ascii :=
  match cs with
  | a :: cs' => if space a then trimStartChars cs' else cs
  | [] => []
  end.

(** [s.trim()]: white space and line terminators go from both ends; on
    code units below 256 these are the characters of [\s]. *)
Definition trim (s : string) : string :=
  string_of_list_ascii
    (rev (trimStartChars (rev (trimStartChars (list_ascii_of_string s))))).

(** [s.split('.')] *)
Definition splitDots (s : string) : list string := JsDiff.splitOn "." s.

(** [xs.pop()]: the last element, [undefined] for an empty array. *)
Definition pop (xs : list string) : option string := List.last (map Some xs) None.

Section Maps.
Context {V : Type}.

(** [m.get(key)] *)
Fixpoint mapGet (key : string) (m : list (string * V)) : option V :=
  match m with
  | [] => None
  | (k, v) :: m' => if String.eqb k key then Some v else mapGet key m'
  end.

(** [m.has(key)] *)
Definition mapHas (key : string) (m : list (string * V)) : bool :=
  match mapGet key m with Some _ => true | None => false end.

(** [m.set(key, value)]: a key that is there keeps its place in the
    iteration order, a new one goes last. *)
Fixpoint mapSet (key : string) (value : V) (m : list (string * V))
    : list (string * V) :=
  match m with
  | [] => [(key, value)]
  | (k, v) :: m' =>
      if String.eqb k key then (k, value) :: m' else (k, v) :: mapSet key value m'
  end.
End Maps.

(** [set.add(x)] *)
Definition setAdd (x : string) (set : list string) : list string :=
  if existsb (String.eqb x) set then set else set ++ [x].

(** [[...new Set(xs)]]: the elements in the order of their first
    occurrence. *)
Definition setOf (xs : list string) : list string :=
  fold_left (fun set x => setAdd x set) xs [].

End JsLib.

(** ** [formatDefinitionsAsMarkdown] of [review/definitionTracker.ts] and
       the sections of [review/promptBuilder.ts] *)
Module Sections.
Import DiffAnalyzer DefinitionTracker JsLib.

Definition newline : string := JsDiff.newline.

(** One iteration of [for (const def of definitions)]: the array under
    the file of [def] gets [def] at its end. *)
Definition groupDefinition (grouped : list (string * list DefinitionContext))
    (def : DefinitionContext) : list (string * list DefinitionContext) :=
  let existing :=
    match mapGet (definitionFile def) grouped with
    | Some defs => defs
    | None => []
    end in
  mapSet (definitionFile def) (existing ++ [def]) grouped.

(** The [Map] that both functions build before they render. *)
Definition groupByFile (definitions : list DefinitionContext)
    : list (string * list DefinitionContext) :=
  fold_left groupDefinition definitions [].

(** *** [formatDefinitionsAsMarkdown] *)

Definition noTrackingResult : string := "（定義元ファイルの追跡結果なし）".

Definition markdownSection (file symbols content : string) : string :=
  "### 定義元: `" +:+ file +:+ "` (シンボル: `" +:+ symbols +:+ "`)" +:+ newline +:+
  "```typescript" +:+ newline +:+ content +:+ newline +:+ "```".

(** One iteration of [for (const [file, defs] of grouped)]; [None] is the
    [TypeError] that [defs[0].definitionContent] raises on an empty
    array. *)
Definition markdownPart (entry : string * list DefinitionContext) : option string :=
  let '(file, defs) := entry in
  let symbols := String.concat ", " (setOf (map symbolName defs)) in
  match defs with
  | [] => None
  | firstDef :: _ =>
      Some (markdownSection file symbols (trim (definitionContent firstDef)))
  end.

Definition formatDefinitionsAsMarkdown (definitions : list DefinitionContext)
    : option string :=
  match definitions with
  | [] => Some noTrackingResult
  | _ =>
      option_map (String.concat (newline +:+ newline))
                 (mapM markdownPart (groupByFile definitions))
  end.

(** *** [buildDefinitionSection] *)

Definition noDefinitions : string :=
  "（変更行から外部定義への参照が検出されませんでした）".

(** [filePath.split('.').pop() ?? ''] *)
Definition extensionOf (filePath : string) : string :=
  match pop (splitDots filePath) with
  | Some ext => ext
  | None => ""
  end.

Definition quoted (name : string) : string := "`" +:+ name +:+ "`".

Definition definitionSection (file symbols content : string) : string :=
  "### 定義元: `" +:+ file +:+ "` (シンボル: " +:+ symbols +:+ ")" +:+ newline +:+
  "```" +:+ extensionOf file +:+ newline +:+ content +:+ newline +:+ "```".

Definition definitionPart (entry : string * list DefinitionContext) : option string :=
  let '(file, defs) := entry in
  let symbols :=
    String.concat ", " (setOf (map (fun d => quoted (symbolName d)) defs)) in
  match defs with
  | [] => None
  | firstDef :: _ =>
      Some (definitionSection file symbols (trim (definitionContent firstDef)))
  end.

Definition buildDefinitionSection (definitions : list DefinitionContext)
    : option string :=
  match definitions with
  | [] => Some noDefinitions
  | _ =>
      option_map (String.concat (newline +:+ newline))
                 (mapM definitionPart (groupByFile definitions))
  end.

(** *** [buildFileSection] *)

Definition noFileContents : string :=
  "（ファイル内容の取得に失敗しました。差分のあるファイルが検出されなかった可能性があります）".

(** The note that follows a content that was cut. *)
Definition omissionNote (omitted : Z) : string :=
  newline +:+ newline +:+ "... (" +:+ numToString omitted +:+ "文字省略)".

(** [content.length > maxCharsPerFile ? content.slice(0, maxCharsPerFile)
    + note : content], for a budget that is a whole number, of either
    sign; a budget with a fractional part is outside this embedding. *)
Definition truncated (content : string) (maxCharsPerFile : Z) : string :=
  if strlen content >? maxCharsPerFile
  then slice0 content maxCharsPerFile
       +:+ omissionNote (strlen content - maxCharsPerFile)
  else content.

Definition filePart (maxCharsPerFile : Z) (entry : string * string) : string :=
  let '(filePath, content) := entry in
  "### File: `" +:+ filePath +:+ "`" +:+ newline +:+
  "```" +:+ extensionOf filePath +:+ newline +:+
  truncated content maxCharsPerFile +:+ newline +:+ "```".

(** The parameter [fileDiffs] is not read. *)
Definition buildFileSection (fileDiffs : list FileDiff)
    (fileContents : list (string * string)) (maxCharsPerFile : Z) : string :=
  match fileContents with
  | [] => noFileContents
  | _ => String.concat (newline +:+ newline) (map (filePart maxCharsPerFile) fileContents)
  end.

(** *** The closed forms of the grouping *)

Definition inFile (file : string) (def : DefinitionContext) : bool :=
  String.eqb (definitionFile def) file.

(** The files of the definitions, each once, in the order of their first
    occurrence. *)
Definition filesOf (definitions : list DefinitionContext) : list string :=
  setOf (map definitionFile definitions).

(** The content shown for a file: that of its first definition. *)
Definition shownContent (file : string) (definitions : list DefinitionContext)
    : string :=
  match find (inFile file) definitions with
  | Some def => trim (definitionContent def)
  | None => ""
  end.

(** The symbols named for a file: those of all its definitions, each
    once. *)
Definition shownSymbols (render : string -> string) (file : string)
    (definitions : list DefinitionContext) : string :=
  String.concat ", "
    (setOf (map (fun d => render (symbolName d))
                (List.filter (inFile file) definitions))).

(** No dot occurs in a string. *)
Definition dotFree (s : string) : bool :=
  forallb (fun c => negb (Ascii.eqb c ".")) (list_ascii_of_string s).

(** Three definitions, two of them in one file. *)
Definition sampleDefinitions : list DefinitionContext :=
  [mkDefinitionContext "load" "x.ts" "y.ts"
     ("  load() { return 1; }" +:+ newline) 2 2;
   mkDefinitionContext "helper" "x.ts" "lib/z.ts"
     ("export function helper(n) {" +:+ newline +:+ "}") 1 2;
   mkDefinitionContext "save" "x.ts" "y.ts"
     ("  save() { return 2; }" +:+ newline) 3 3].

End Sections.

(** ** [extension.ts]: from the patches to the definitions *)
Module Extension.
Import Regex DiffAnalyzer DefinitionTracker JsLib.

(** What [runDefinitionTracking] reads of the editor:
    [vscode.workspace.workspaceFolders] as the URIs of the folders
    ([None] is [undefined]), [vscode.Uri.joinPath] on a folder URI and a
    path (taken to return for every path), whether
    [vscode.workspace.fs.stat] resolves, and the services of the
    tracker. *)
Record Editor := mkEditor {
  workspaceFolders : option (list string);
  joinPath : string -> string -> string;
  statResolves : string -> bool;
  services : Workspace
}.

(** [/^b\//] *)
Definition newPrefixRe : re := seq [Bol; lit "b/"].

(** The body of [for (const fd of fileDiffs)]: what it appends to
    [allDefinitions].  [Throw] is the [TypeError] of
    [workspaceFolders[0].uri] on an empty array, which no [try]
    encloses; whatever the [try] encloses ends in a skip.  [None] is a
    traversal out of fuel. *)
Definition trackFile (e : Editor) (folders : list string)
    (fileContents : list (string * string))
    (definitionDepth maxCharsPerFile : Z) (fd : FileDiff)
    : option (Completion (list DefinitionContext)) :=
  let filePath := removeFirst newPrefixRe (newPath fd) in
  if negb (mapHas filePath fileContents) then Some (Normal [])
  else
    match folders with
    | [] => Some Throw
    | folder :: _ =>
        let localUri := joinPath e folder filePath in
        if statResolves e localUri then
          let changedLines := getChangedLineNumbers fd in
          match gatherDefinitionsForChangedLines (services e) localUri changedLines
                  definitionDepth maxCharsPerFile with
          | None => None
          | Some (Normal defs) => Some (Normal defs)
          | Some Throw => Some (Normal [])
          end
        else Some (Normal [])
    end.

Fixpoint trackFiles (e : Editor) (folders : list string)
    (fileContents : list (string * string))
    (definitionDepth maxCharsPerFile : Z) (fileDiffs : list FileDiff)
    (allDefinitions : list DefinitionContext)
    : option (Completion (list DefinitionContext)) :=
  match fileDiffs with
  | [] => Some (Normal allDefinitions)
  | fd :: rest =>
      match trackFile e folders fileContents definitionDepth maxCharsPerFile fd with
      | None => None
      | Some Throw => Some Throw
      | Some (Normal defs) =>
          trackFiles e folders fileContents definitionDepth maxCharsPerFile rest
                     (allDefinitions ++ defs)
      end
  end.

(** [runDefinitionTracking(fileDiffs, fileContents, cfg)] *)
Definition runDefinitionTracking (e : Editor) (fileDiffs : list FileDiff)
    (fileContents : list (string * string))
    (definitionDepth maxCharsPerFile : Z)
    : option (Completion (list DefinitionContext)) :=
  match workspaceFolders e with
  | None => Some (Normal [])
  | Some folders =>
      if definitionDepth =? 0 then Some (Normal [])
      else trackFiles e folders fileContents definitionDepth maxCharsPerFile
                      fileDiffs []
  end.

(** *** Branch names *)

(** [/^refs\/heads\//], [/^refs\/remotes\/origin\//], [/^origin\//] *)
Definition headsRe : re := seq [Bol; lit "refs/heads/"].
Definition remotesRe : re := seq [Bol; lit "refs/remotes/origin/"].
Definition originRe : re := seq [Bol; lit "origin/"].

Definition buildRefCandidates (branch : string) : list string :=
  let b := trim branch in
  if isEmpty b then []
  else if startsWith b "refs/heads/" then [b; removeFirst headsRe b]
  else [b; "refs/heads/" +:+ b].

Definition buildLocalGitRefCandidates (ref : string) : list string :=
  let r := trim ref in
  if isEmpty r then []
  else
    let cands := setOf [r] in
    if startsWith r "refs/heads/" then
      let short := removeFirst headsRe r in
      setAdd ("refs/remotes/origin/" +:+ short)
             (setAdd ("origin/" +:+ short) (setAdd short cands))
    else if startsWith r "refs/remotes/origin/" then
      let short := removeFirst remotesRe r in
      setAdd ("refs/heads/" +:+ short)
             (setAdd ("origin/" +:+ short) (setAdd short cands))
    else if startsWith r "origin/" then
      let short := removeFirst originRe r in
      setAdd ("refs/remotes/origin/" +:+ short)
             (setAdd ("refs/heads/" +:+ short) (setAdd short cands))
    else
      setAdd ("refs/remotes/origin/" +:+ r)
             (setAdd ("origin/" +:+ r) (setAdd ("refs/heads/" +:+ r) cands)).

(** *** The files of a branch *)

(** [/\.(ts|tsx|js|jsx|java|py|go|rb|php|cs|cpp|c|h|swift|kt|rs|vue|svelte|scala|dart)$/] *)
Definition sourceExtRe : re :=
  seq [Chr ".";
       alts (lit "ts")
            [lit "tsx"; lit "js"; lit "jsx"; lit "java"; lit "py"; lit "go";
             lit "rb"; lit "php"; lit "cs"; lit "cpp"; lit "c"; lit "h";
             lit "swift"; lit "kt"; lit "rs"; lit "vue"; lit "svelte";
             lit "scala"; lit "dart"];
       Eol].

(** The [type] of an entry of a listing; the interface names ['blob'] and
    ['tree'], and the loop passes over any other value. *)
Inductive EntryType := Blob | Tree | OtherType.

Record BacklogFileEntry := mkEntry {
  entryName : string;
  entryType : EntryType
}.

(** [dirPath ? `${dirPath}/${entry.name}` : entry.name] *)
Definition fullPathOf (dirPath name : string) : string :=
  if isEmpty dirPath then name else dirPath +:+ "/" +:+ name.

Section Listing.
(** [client.listFiles(projectKey, repoId, ref, dirPath)] for the
    project, the repository and the ref of one call; [None] is a
    rejected promise. *)
Variable listFiles : string -> option (list BacklogFileEntry).

(** The body of [for (const entry of entries)], given the recursive
    call; [None] is a recursion out of fuel. *)
Definition collectEntry (self : string -> option (list string))
    (dirPath : string) (files : option (list string)) (entry : BacklogFileEntry)
    : option (list string) :=
  match files with
  | None => None
  | Some files =>
      let fullPath := fullPathOf dirPath (entryName entry) in
      match entryType entry with
      | Tree =>
          match self fullPath with
          | None => None
          | Some sub => Some (files ++ sub)
          end
      | Blob =>
          if test sourceExtRe (entryName entry) then Some (files ++ [fullPath])
          else Some files
      | OtherType => Some files
      end
  end.

(** [collectAllFiles]; the recursion is on [fuel], of which
    [6 - depth] is never used up. *)
Fixpoint collectAllFiles (fuel : nat) (dirPath : string) (depth : Z)
    : option (list string) :=
  if depth >? 5 then Some []
  else
    match fuel with
    | O => None
    | S fuel' =>
        match listFiles dirPath with
        | None => Some []
        | Some entries =>
            fold_left
              (collectEntry (fun fullPath => collectAllFiles fuel' fullPath (depth + 1))
                            dirPath)
              entries (Some [])
        end
    end.
End Listing.

(** The number of [/] in a path. *)
Definition slashes (path : string) : Z :=
  Z.of_nat (List.length (List.filter (Ascii.eqb "/") (list_ascii_of_string path))).

(** How many directories deep the entries of a directory lie. *)
Definition level (dirPath : string) : Z :=
  if isEmpty dirPath then 0 else slashes dirPath + 1.

(** The names of a listing are path segments. *)
Definition plainNames (listFiles : string -> option (list BacklogFileEntry)) : Prop :=
  forall dirPath entries,
    listFiles dirPath = Some entries ->
    Forall (fun entry => slashes (entryName entry) = 0) entries.

(** A repository in which every directory holds itself again. *)
Definition endlessListing (dirPath : string) : option (list BacklogFileEntry) :=
  Some [mkEntry "again" Tree; mkEntry "main.ts" Blob; mkEntry "notes.md" Blob].

(** What [collectAllFiles] returns for it from the root. *)
Definition sixLevels : list string :=
  ["again/again/again/again/again/main.ts";
   "again/again/again/again/main.ts"; "again/again/again/main.ts";
   "again/again/main.ts"; "again/main.ts"; "main.ts"].

(** An editor over the two-file cycle, with one folder open. *)
Definition cycleEditor : Editor :=
  {| workspaceFolders := Some ["file:///ws"];
     joinPath := fun folder path => folder +:+ "/" +:+ path;
     statResolves := fun _ => true;
     services := Fixtures.cycleWorkspace |}.

Definition cycleDiffs : list FileDiff :=
  [mkFileDiff "a/x.ts" "b/x.ts" [mkHunk 3 3 ["-  return n;"; "+  return helper(n);"]]
              false false "";
   mkFileDiff "a/y.ts" "b/y.ts" [mkHunk 3 3 ["-  return 0;"; "+  return main(n - 1);"]]
              false false ""].

Definition cycleContents : list (string * string) :=
  [("x.ts", "x"); ("y.ts", "y")].

(** What tracking the two patches returns: each file is tracked from an
    empty visited set, so both blocks come back for both files. *)
Definition trackedInCycle : list DefinitionContext :=
  let helperBlock :=
    Traversal.contextOf Fixtures.cycleWorkspace Fixtures.uriX "helper"
                        (mkLocation Fixtures.uriY 1) Fixtures.cycleBlockY in
  let mainBlock :=
    Traversal.contextOf Fixtures.cycleWorkspace Fixtures.uriY "main"
                        (mkLocation Fixtures.uriX 1) Fixtures.cycleBlockX in
  [helperBlock; mainBlock; mainBlock; helperBlock].

End Extension.

(** * Properties *)


Section ChangedLines.
Import DiffAnalyzer.

Lemma startsWith_char (c : ascii) (l : string) :
  startsWith l (String c EmptyString)
  = match l with
    | String a _ => if ascii_dec c a then true else false
    | EmptyString => false
    end.
Proof.
  destruct l as [|a l]; [reflexivity|].
  unfold startsWith.
  change (String.prefix (String c EmptyString) (String a l))
    with (if ascii_dec c a then String.prefix EmptyString l else false).
  destruct (ascii_dec c a); [destruct l|]; reflexivity.
Qed.

Lemma plus_is_not_minus (l : string) :
  startsWith l "+" = true -> startsWith l "-" = false.
Proof.
  rewrite !startsWith_char. destruct l as [|a l]; [discriminate|].
  destruct (ascii_dec "+" a) as [<-|]; [reflexivity|discriminate].
Qed.

Lemma newSpan_cons (l : string) (ls : list string) :
  newSpan (l :: ls)
  = (match lineKind l with Removed => 0 | _ => 1 end) + newSpan ls.
Proof.
  unfold newSpan, lineKind. cbn [List.filter].
  destruct (startsWith l "+") eqn:Hplus.
  - rewrite (plus_is_not_minus l Hplus). cbn [negb List.length]. lia.
  - destruct (startsWith l "-"); cbn [negb List.length]; lia.
Qed.

Lemma newSpan_nonneg (ls : list string) : 0 <= newSpan ls.
Proof. unfold newSpan. lia. Qed.

Lemma lineStep_kind (out : list Z) (cursor : Z) (l : string) :
  lineStep (out, cursor) l
  = match lineKind l with
    | Added => (out ++ [cursor], cursor + 1)
    | Context => (out, cursor + 1)
    | Removed => (out, cursor)
    end.
Proof.
  unfold lineStep, lineKind.
  destruct (startsWith l "+"); [reflexivity|].
  destruct (startsWith l "-"); reflexivity.
Qed.

Lemma lineStep_walk (ls : list string) (out : list Z) (cursor : Z) :
  fold_left lineStep ls (out, cursor)
  = (out ++ walkHunk cursor ls, cursor + newSpan ls).
Proof.
  revert out cursor.
  induction ls as [|l ls IH]; intros out cursor.
  - cbn. rewrite app_nil_r. f_equal. unfold newSpan. cbn. lia.
  - cbn [fold_left walkHunk]. rewrite lineStep_kind, newSpan_cons.
    destruct (lineKind l); rewrite IH; f_equal; try lia.
    now rewrite <- app_assoc.
Qed.

Lemma hunkStep_walk (hs : list Hunk) (out : list Z) :
  fold_left hunkStep hs out
  = out ++ concat (map (fun h => walkHunk (newStart h) (lines h)) hs).
Proof.
  revert out. induction hs as [|h hs IH]; intros out; cbn.
  - now rewrite app_nil_r.
  - rewrite IH. unfold hunkStep. rewrite lineStep_walk. cbn [fst].
    now rewrite app_assoc.
Qed.

(** Every emitted line lies within the span of its hunk. *)
Lemma walkHunk_range (ls : list string) (cursor x : Z) :
  In x (walkHunk cursor ls) -> cursor <= x < cursor + newSpan ls.
Proof.
  revert cursor. induction ls as [|l ls IH]; intros cursor; cbn [walkHunk].
  - intros [].
  - rewrite newSpan_cons. pose proof (newSpan_nonneg ls) as Hn.
    destruct (lineKind l).
    + intros [<- | Hin]; [lia|]. apply IH in Hin. lia.
    + intros Hin. apply IH in Hin. lia.
    + intros Hin. apply IH in Hin. lia.
Qed.




(** C5: [getChangedLineNumbers] walks each hunk on its own with a cursor
    that starts at the hunk's [newStart]: an added line emits the cursor and
    advances it, a context line advances it, a removed line does neither;
    the hunks' outputs are concatenated in hunk order, and a [FileDiff]
    without hunks gives the empty list. *)
Theorem getChangedLineNumbers_walks_hunks :
  (forall fd : FileDiff, getChangedLineNumbers fd = changedLinesSpec fd) /\
  (forall oldP newP isN isD text,
      getChangedLineNumbers (mkFileDiff oldP newP [] isN isD text) = []).
Proof.
  split.
  - intros fd. unfold getChangedLineNumbers, changedLinesSpec.
    now rewrite hunkStep_walk.
  - reflexivity.
Qed.




End ChangedLines.


(** ** Rendering a diff and reading it back *)
Section RoundTrip.
Import DiffAnalyzer.

Lemma parseDiff_files (L : DiffLib) (text : string) (files : list ParsedDiff) :
  parsePatch L text = Some files ->
  parseDiff L text = Some (map (toFileDiff text) files).
Proof.
  intros H. unfold parseDiff. rewrite H. f_equal.
  assert (forall acc, fold_left (fun results file => results ++ [toFileDiff text file])
                                files acc = acc ++ map (toFileDiff text) files) as E.
  { clear H. induction files as [|f files IH]; intros acc; cbn [fold_left map].
    - now rewrite app_nil_r.
    - rewrite IH, <- app_assoc. reflexivity. }
  apply (E []).
Qed.

(** [parseDiff] has no failure of its own: it fails exactly when the
    package's [parsePatch] does. *)
Lemma parseDiff_fails_with_parsePatch (L : DiffLib) (text : string) :
  parseDiff L text = None <-> parsePatch L text = None.
Proof.
  unfold parseDiff. destruct (parsePatch L text); split; congruence.
Qed.

(** The stand-in package on the examples of the specification: a pure
    insertion, a pure modification, and no change. *)
Example pure_insertion :
  option_map (map getChangedLineNumbers)
    (parseDiff JsDiff.library
       (generateUnifiedDiff JsDiff.library
          ("a" +:+ JsDiff.newline)
          ("a" +:+ JsDiff.newline +:+ "b" +:+ JsDiff.newline)
          "f.ts" "base" "branch"))
  = Some [[2]].
Proof. vm_compute. reflexivity. Qed.

Example pure_modification :
  option_map (map (fun fd => (hunks fd, getChangedLineNumbers fd)))
    (parseDiff JsDiff.library
       (generateUnifiedDiff JsDiff.library
          ("foo" +:+ JsDiff.newline +:+ "bar" +:+ JsDiff.newline)
          ("foo" +:+ JsDiff.newline +:+ "baz" +:+ JsDiff.newline)
          "f.ts" "base" "branch"))
  = Some [([mkHunk 1 1 [" foo"; "-bar"; "+baz"]], [2])].
Proof. vm_compute. reflexivity. Qed.

Example no_change :
  option_map (map (fun fd => (hunks fd, getChangedLineNumbers fd)))
    (parseDiff JsDiff.library
       (generateUnifiedDiff JsDiff.library
          ("foo" +:+ JsDiff.newline) ("foo" +:+ JsDiff.newline)
          "f.ts" "base" "branch"))
  = Some [([], [])].
Proof. vm_compute. reflexivity. Qed.

(** The flags of a generated diff.  A file that is new (empty old text)
    is rendered under the name [a/f.ts], not under [/dev/null], so the
    [FileDiff] read back has [isNew = false], where the round-trip
    contract asks for [true].  The names are those that
    [generateUnifiedDiff] passes; the stand-in hands them back as the
    package's text format has them. *)
Lemma new_file_not_flagged :
  exists fd,
    parseDiff JsDiff.library
      (generateUnifiedDiff JsDiff.library "" ("x" +:+ JsDiff.newline)
                           "f.ts" "base" "branch") = Some [fd] /\
    isNew fd = false /\
    ~ flagsFollowContents "" ("x" +:+ JsDiff.newline) fd.
Proof.
  eexists. split; [vm_compute; reflexivity|]. split; [reflexivity|].
  intros [[_ Hnew] _]. specialize (Hnew eq_refl). discriminate Hnew.
Qed.

End RoundTrip.


(** ** Block extraction *)
Section Extraction.
Import DefinitionTracker Traversal.

Lemma length_append (s1 s2 : string) :
  String.length (s1 +:+ s2) = (String.length s1 + String.length s2)%nat.
Proof.
  induction s1 as [|a s1 IH]; [reflexivity|].
  change (String a s1 +:+ s2) with (String a (s1 +:+ s2)).
  cbn [String.length Nat.add]. f_equal. apply IH.
Qed.

Lemma length_substring0 (s : string) (k : nat) :
  String.length (substring 0 k s) = Nat.min k (String.length s).
Proof.
  revert k.
  induction s as [|a s IH]; intros [|k];
    cbn [substring String.length Nat.min]; try reflexivity.
  f_equal. apply IH.
Qed.

(** [slice(0, n)] with [n] not negative keeps [min n length] characters. *)
Lemma strlen_slice0 (s : string) (n : Z) :
  0 <= n -> strlen (slice0 s n) = Z.min n (strlen s).
Proof.
  intros Hn. unfold slice0, strlen.
  destruct (Z.ltb_spec n 0) as [|_]; [lia|].
  rewrite length_substring0. lia.
Qed.

(** With a negative [n] it drops the last [-n] characters. *)
Lemma strlen_slice0_negative (s : string) (n : Z) :
  n < 0 -> strlen (slice0 s n) = Z.max (strlen s + n) 0.
Proof.
  intros Hn. unfold slice0, strlen.
  destruct (Z.ltb_spec n 0) as [_|]; [|lia].
  rewrite length_substring0. lia.
Qed.

Lemma lineAt_range (doc : TextDocument) (i : Z) (t : string) :
  lineAt doc i = Some t -> 0 <= i < lineCount doc.
Proof.
  unfold lineAt, lineCount. destruct (Z.ltb_spec i 0) as [|Hi]; [discriminate|].
  intros Hl. apply lookup_lt_Some in Hl. lia.
Qed.

Lemma findBlockStart_range (doc : TextDocument) (lowest i : Z) (n : nat) (j : Z) :
  findBlockStart doc lowest i n = Some (Some j) -> 0 <= j <= i.
Proof.
  revert i. induction n as [|n IH]; intros i; cbn [findBlockStart];
    destruct (i <? lowest); try discriminate;
    destruct (lineAt doc i) as [t|] eqn:Hline; try discriminate;
    destruct (Regex.test declarationRe t); try discriminate.
  - intros [= <-]. apply lineAt_range in Hline. lia.
  - intros [= <-]. apply lineAt_range in Hline. lia.
  - intros H. apply IH in H. lia.
Qed.

Lemma findBlockEnd_range (doc : TextDocument) (n : nat) (i depth : Z) (found : bool)
    (count maxChars e : Z) :
  findBlockEnd doc n i depth found count maxChars = Some (Some e) -> i <= e.
Proof.
  revert i depth found count.
  induction n as [|n IH]; intros i depth found count; cbn [findBlockEnd];
    [discriminate|].
  destruct (lineAt doc i) as [t|]; [|discriminate].
  destruct (fold_left braceStep (list_ascii_of_string t) (depth, found))
    as [depth' found'].
  destruct (found' && (depth' =? 0)); [intros [= <-]; lia|].
  destruct (count + strlen t + 1 >? maxChars); [intros [= <-]; lia|].
  intros H. apply IH in H. lia.
Qed.

(** The loop throws on a negative start line: its first [lineAt] does. *)
Lemma findBlockEnd_negative (doc : TextDocument) (i depth : Z) (found : bool)
    (count maxChars : Z) :
  i < 0 ->
  findBlockEnd doc (Z.to_nat (lineCount doc - i)) i depth found count maxChars = None.
Proof.
  intros Hi. unfold lineCount.
  destruct (Z.to_nat (Z.of_nat (List.length (docLines doc)) - i)) eqn:E; [lia|].
  cbn [findBlockEnd]. unfold lineAt.
  destruct (Z.ltb_spec i 0); [reflexivity | lia].
Qed.

(** The shape of every extracted block: bounds, and the content as a
    prefix of the text between them. *)
Lemma extractDefinitionBlock_shape (doc : TextDocument) (line maxChars : Z)
    (blk : Block) :
  extractDefinitionBlock doc line maxChars = Some blk ->
  1 <= blk_startLine blk <= blk_endLine blk /\
  blk_content blk
  = slice0 (getText doc (blk_startLine blk - 1) (blk_endLine blk)) maxChars.
Proof.
  unfold extractDefinitionBlock.
  destruct (findBlockStart doc (Z.max 0 (line - 20)) line 20) as [found|] eqn:Hs;
    [|discriminate].
  set (blockStart := match found with Some i => i | None => line end).
  destruct (findBlockEnd doc (Z.to_nat (lineCount doc - blockStart)) blockStart
                         0 false 0 maxChars) as [stopped|] eqn:He; [|discriminate].
  intros [= <-]. cbn [blk_startLine blk_endLine blk_content].
  assert (0 <= blockStart) as Hpos.
  { destruct (Z.ltb_spec blockStart 0) as [Hneg|]; [|assumption].
    rewrite findBlockEnd_negative in He by assumption. discriminate. }
  assert (blockStart <= match stopped with Some i => i | None => blockStart end)
    as Hle.
  { destruct stopped as [e|]; [|lia]. now apply findBlockEnd_range in He. }
  split; [lia|]. f_equal. f_equal. lia.
Qed.

Lemma fold_accumulate (ls : list string) (n : Z) :
  fold_left (fun n l => n + strlen l + 1) ls n
  = n + fold_left (fun n l => n + strlen l + 1) ls 0.
Proof.
  revert n. induction ls as [|l ls IH]; intros n; cbn [fold_left]; [lia|].
  rewrite IH, (IH (0 + strlen l + 1)). lia.
Qed.

Lemma eol_nonempty (e : EndOfLine) : 1 <= strlen (eolText e).
Proof. destruct e; unfold strlen; cbn [eolText String.length]; lia. Qed.

Lemma strlen_append (s1 s2 : string) : strlen (s1 +:+ s2) = strlen s1 + strlen s2.
Proof. unfold strlen. rewrite length_append. lia. Qed.

Lemma strlen_terminated (eol : string) (ls : list string) :
  1 <= strlen eol ->
  fold_left (fun n l => n + strlen l + 1) ls 0
  <= strlen (String.concat "" (map (fun l => l +:+ eol) ls)).
Proof.
  intros Heol. induction ls as [|l ls IH]; [cbn; unfold strlen; cbn; lia|].
  cbn [fold_left map]. rewrite fold_accumulate.
  assert (strlen (String.concat "" ((l +:+ eol) :: map (fun l => l +:+ eol) ls))
          = strlen l + strlen eol
            + strlen (String.concat "" (map (fun l => l +:+ eol) ls))) as ->.
  { cbn [String.concat]. destruct (map (fun l0 => l0 +:+ eol) ls) eqn:E.
    - cbn [String.concat]. rewrite strlen_append. unfold strlen. cbn [String.length]. lia.
    - rewrite !strlen_append. change (strlen "") with 0. lia. }
  lia.
Qed.

Lemma strlen_joined (eol : string) (ls : list string) :
  1 <= strlen eol ->
  fold_left (fun n l => n + strlen l + 1) ls 0 - 1
  <= strlen (String.concat eol ls).
Proof.
  intros Heol. induction ls as [|l ls IH]; [cbn; unfold strlen; cbn; lia|].
  cbn [fold_left]. rewrite fold_accumulate.
  destruct ls as [|l' ls].
  - cbn [fold_left String.concat]. lia.
  - change (String.concat eol (l :: l' :: ls))
      with (l +:+ eol +:+ String.concat eol (l' :: ls)).
    rewrite !strlen_append. lia.
Qed.

(** The text between the bounds of a block is at most one character
    shorter than what the scan has counted for it. *)
Lemma getText_covers_count (doc : TextDocument) (a b : Z) :
  0 <= a ->
  accumulatedChars doc a b - 1 <= strlen (getText doc a (b + 1)).
Proof.
  intros Ha. unfold accumulatedChars, getText.
  pose proof (eol_nonempty (docEol doc)) as Heol.
  replace (Z.max a 0) with a by lia.
  destruct (Z.ltb_spec (b + 1) (lineCount doc)) as [Hin|Hout].
  - pose proof (strlen_terminated (eolText (docEol doc))
                  (firstn (Z.to_nat (b + 1 - a))
                          (skipn (Z.to_nat a) (docLines doc))) Heol). lia.
  - rewrite firstn_all2.
    + apply strlen_joined, Heol.
    + rewrite length_skipn. unfold lineCount in Hout. lia.
Qed.

(** Every extracted block satisfies the bounds of a result record. *)
Lemma extractDefinitionBlock_bounds (doc : TextDocument) (line maxChars : Z)
    (blk : Block) :
  extractDefinitionBlock doc line maxChars = Some blk ->
  1 <= blk_startLine blk <= blk_endLine blk /\
  (0 <= maxChars -> strlen (blk_content blk) <= maxChars).
Proof.
  intros H. apply extractDefinitionBlock_shape in H as [Hb Hc].
  split; [assumption|]. intros Hn. rewrite Hc, strlen_slice0 by assumption. lia.
Qed.

(** A block for which the scan counted more than the budget is cut to
    exactly the budget. *)
Lemma extractDefinitionBlock_truncates (doc : TextDocument) (line maxChars : Z)
    (blk : Block) :
  0 <= maxChars ->
  extractDefinitionBlock doc line maxChars = Some blk ->
  maxChars < accumulatedChars doc (blk_startLine blk - 1) (blk_endLine blk - 1) ->
  strlen (blk_content blk) = maxChars.
Proof.
  intros Hn H Hover. apply extractDefinitionBlock_shape in H as [Hb Hc].
  rewrite Hc, strlen_slice0 by assumption.
  pose proof (getText_covers_count doc (blk_startLine blk - 1)
                (blk_endLine blk - 1) ltac:(lia)) as Hcov.
  replace (blk_endLine blk - 1 + 1) with (blk_endLine blk) in Hcov by lia.
  lia.
Qed.

Lemma lineAt_exists (doc : TextDocument) (i : Z) :
  0 <= i < lineCount doc -> lineAt doc i <> None.
Proof.
  unfold lineAt, lineCount. intros Hi.
  destruct (Z.ltb_spec i 0) as [|_]; [lia|].
  intros Hnone. apply lookup_ge_None in Hnone. lia.
Qed.

Lemma findBlockStart_first (doc : TextDocument) (lowest i : Z) (n : nat)
    (r : option Z) :
  lowest <= i -> findBlockStart doc lowest i n = Some r -> i < lineCount doc.
Proof.
  intros Hlow.
  destruct n; cbn [findBlockStart];
    (destruct (Z.ltb_spec i lowest); [lia|]);
    (destruct (lineAt doc i) as [t|] eqn:Hline; [|discriminate]);
    intros _; apply lineAt_range in Hline; lia.
Qed.

(** A block is extracted from a document with at least one line, and
    starts on one of its lines. *)
Lemma extractDefinitionBlock_in_document (doc : TextDocument) (line maxChars : Z)
    (blk : Block) :
  extractDefinitionBlock doc line maxChars = Some blk ->
  1 <= lineCount doc.
Proof.
  unfold extractDefinitionBlock.
  destruct (findBlockStart doc (Z.max 0 (line - 20)) line 20) as [found|] eqn:Hs;
    [|discriminate].
  destruct (Z.ltb_spec line 0) as [Hneg|Hpos].
  - assert (found = None) as ->.
    { destruct found as [j|]; [|reflexivity].
      apply findBlockStart_range in Hs. lia. }
    rewrite findBlockEnd_negative by assumption. discriminate.
  - intros _. apply findBlockStart_first in Hs; lia.
Qed.

End Extraction.


(** ** The line heuristics on sample lines *)
Section Heuristics.
Import DefinitionTracker.

Example identifiers_of_a_call :
  extractIdentifiers "  return helper(n);" = [("helper", 9)].
Proof. vm_compute. reflexivity. Qed.

(** A trailing line comment is cut before the identifiers are looked for. *)
Example identifiers_before_line_comment :
  extractIdentifiers "foo(bar.x) // baz(1)" = [("foo", 0); ("bar", 4)].
Proof. vm_compute. reflexivity. Qed.

(** Columns count in the text that is left once a block comment is cut. *)
Example identifiers_after_block_comment :
  extractIdentifiers "a /* x( */ call(1)" = [("call", 3)].
Proof. vm_compute. reflexivity. Qed.

(** A lower-case name needs three characters, an upper-case one a single
    one; blanks may stand before the dot or the parenthesis. *)
Example identifiers_by_shape :
  extractIdentifiers "ab(1); Ab(2); _x1.y; x.fooBar (3)"
  = [("Ab", 7); ("_x1", 14); ("fooBar", 23)].
Proof. vm_compute. reflexivity. Qed.

Example declaration_lines :
  map (Regex.test declarationRe)
      ["export async function f() {"; "  static build (x) {"; "class A {";
       "const f = async (x) => x"; "functional()"]
  = [true; true; true; true; true].
Proof. vm_compute. reflexivity. Qed.

Example other_lines :
  map (Regex.test declarationRe)
      ["let total = count;"; "  load() { return 1; }"; "// function f() {";
       "x = function () {}"]
  = [false; false; false; false].
Proof. vm_compute. reflexivity. Qed.

End Heuristics.


(** ** The traversal *)
Section TraversalFacts.
Import DefinitionTracker Traversal.
Variable w : Workspace.

(** *** What one location does *)

Lemma visitLocation_inert self fileUri name depth maxChars loc s :
  loc_uri loc = fileUri \/ defKeyOf loc ∈ visited s ->
  visitLocation w self fileUri name depth maxChars loc s = Some (Normal tt, s).
Proof.
  intros H. unfold visitLocation.
  destruct (String.eqb_spec (loc_uri loc) fileUri) as [|Hne]; [reflexivity|].
  destruct H as [|Hseen]; [contradiction|].
  unfold bind, visitedHas. rewrite bool_decide_eq_true_2 by assumption.
  reflexivity.
Qed.

Lemma visitLocation_skip self fileUri name depth maxChars loc s :
  loc_uri loc <> fileUri -> defKeyOf loc ∉ visited s ->
  (forall defDoc, openTextDocument w (loc_uri loc) = Some defDoc ->
                  extractDefinitionBlock defDoc (loc_line loc) maxChars = None) ->
  visitLocation w self fileUri name depth maxChars loc s
  = Some (Normal tt, afterSkip s (defKeyOf loc) (loc_uri loc)).
Proof.
  intros Hne Hnew Hfail. unfold visitLocation.
  destruct (String.eqb_spec (loc_uri loc) fileUri) as [|_]; [contradiction|].
  unfold bind at 1, visitedHas. rewrite bool_decide_eq_false_2 by assumption.
  unfold bind at 1, visitedAdd, tryCatch, openDocument, bind, emit, orThrow.
  destruct (openTextDocument w (loc_uri loc)) as [defDoc|]; [|reflexivity].
  rewrite (Hfail defDoc eq_refl). reflexivity.
Qed.

Lemma visitLocation_record self fileUri name depth maxChars loc s defDoc blk :
  loc_uri loc <> fileUri -> defKeyOf loc ∉ visited s ->
  openTextDocument w (loc_uri loc) = Some defDoc ->
  extractDefinitionBlock defDoc (loc_line loc) maxChars = Some blk ->
  visitLocation w self fileUri name depth maxChars loc s
  = tryCatch
      (self (loc_uri loc)
            [blk_startLine blk; (blk_startLine blk + blk_endLine blk) / 2]
            (depth + 1))
      (ret tt)
      (afterRecord s loc (contextOf w fileUri name loc blk)).
Proof.
  intros Hne Hnew Hopen Hblk. unfold visitLocation.
  destruct (String.eqb_spec (loc_uri loc) fileUri) as [|_]; [contradiction|].
  unfold bind at 1, visitedHas. rewrite bool_decide_eq_false_2 by assumption.
  unfold bind at 1, visitedAdd, tryCatch, openDocument, bind, emit, orThrow,
    resultsPush.
  rewrite Hopen, Hblk. unfold afterRecord, contextOf, log.
  cbn [visited results trace]. rewrite <- app_assoc. reflexivity.
Qed.

(** A location in another file whose key is new: the key is marked, the
    document is asked for, and the block is recorded or not. *)
Lemma visitLocation_admitted self fileUri name depth maxChars loc s :
  loc_uri loc <> fileUri -> defKeyOf loc ∉ visited s ->
  visitLocation w self fileUri name depth maxChars loc s
  = match blockAt w maxChars loc with
    | Some blk =>
        tryCatch
          (self (loc_uri loc)
                [blk_startLine blk; (blk_startLine blk + blk_endLine blk) / 2]
                (depth + 1))
          (ret tt)
          (afterRecord s loc (contextOf w fileUri name loc blk))
    | None => Some (Normal tt, afterSkip s (defKeyOf loc) (loc_uri loc))
    end.
Proof.
  intros Hne Hnew. unfold blockAt.
  destruct (openTextDocument w (loc_uri loc)) as [defDoc|] eqn:Hopen.
  - destruct (extractDefinitionBlock defDoc (loc_line loc) maxChars)
      as [blk|] eqn:Hblk.
    + eapply visitLocation_record; eassumption.
    + apply visitLocation_skip; [assumption | assumption |].
      intros d Hd. congruence.
  - apply visitLocation_skip; [assumption | assumption |].
    intros d Hd. congruence.
Qed.

(** *** What one identifier does *)

Lemma visitIdentifier_seen self fileUri depth maxChars lineNo name col s :
  probeKey fileUri lineNo col ∈ visited s ->
  visitIdentifier w self fileUri depth maxChars lineNo (name, col) s
  = Some (Normal tt, s).
Proof.
  intros Hseen. unfold visitIdentifier, bind, visitedHas.
  rewrite bool_decide_eq_true_2 by assumption. reflexivity.
Qed.

Lemma visitIdentifier_probe self fileUri depth maxChars lineNo name col s :
  probeKey fileUri lineNo col ∉ visited s ->
  visitIdentifier w self fileUri depth maxChars lineNo (name, col) s
  = forEach (locationsAt w fileUri lineNo col)
            (visitLocation w self fileUri name depth maxChars)
            (afterProbe s (probeKey fileUri lineNo col) fileUri
                        (Z.max (lineNo - 1) 0) col).
Proof.
  intros Hnew. unfold visitIdentifier.
  unfold bind at 1, visitedHas. rewrite bool_decide_eq_false_2 by assumption.
  reflexivity.
Qed.

(** *** What one call does *)

Lemma gatherRecursive_gate fuel fileUri targetLines maxDepth depth maxChars s :
  maxDepth <= depth ->
  gatherRecursive w fuel fileUri targetLines maxDepth depth maxChars s
  = Some (Normal tt, s).
Proof.
  intros Hgate.
  destruct fuel; cbn [gatherRecursive];
    destruct (Z.geb_spec depth maxDepth); try lia; reflexivity.
Qed.

Lemma gatherRecursive_unreadable fuel fileUri targetLines maxDepth depth maxChars s :
  depth < maxDepth -> openTextDocument w fileUri = None ->
  gatherRecursive w (S fuel) fileUri targetLines maxDepth depth maxChars s
  = Some (Normal tt, log (EvOpen fileUri) s).
Proof.
  intros Hd Hopen. cbn [gatherRecursive].
  destruct (Z.geb_spec depth maxDepth); [lia|].
  unfold bind, tryCatch, openDocument, bind, emit, orThrow. rewrite Hopen.
  reflexivity.
Qed.

Lemma gatherRecursive_revisit fuel fileUri targetLines maxDepth depth maxChars s
      document :
  depth < maxDepth -> openTextDocument w fileUri = Some document ->
  fileUri ∈ visited s ->
  gatherRecursive w (S fuel) fileUri targetLines maxDepth depth maxChars s
  = Some (Normal tt, log (EvOpen fileUri) s).
Proof.
  intros Hd Hopen Hseen. cbn [gatherRecursive].
  destruct (Z.geb_spec depth maxDepth); [lia|].
  cbv beta delta [bind tryCatch openDocument emit orThrow visitedHas ret].
  rewrite Hopen. cbn [log visited].
  rewrite bool_decide_eq_true_2 by assumption. reflexivity.
Qed.

Lemma gatherRecursive_scan fuel fileUri targetLines maxDepth depth maxChars s
      document :
  depth < maxDepth -> openTextDocument w fileUri = Some document ->
  fileUri ∉ visited s ->
  gatherRecursive w (S fuel) fileUri targetLines maxDepth depth maxChars s
  = forEach targetLines
      (visitLine w
         (fun uri nextLines d =>
            gatherRecursive w fuel uri nextLines maxDepth d maxChars)
         fileUri document depth maxChars)
      (afterScan (log (EvOpen fileUri) s) fileUri).
Proof.
  intros Hd Hopen Hnew. cbn [gatherRecursive].
  destruct (Z.geb_spec depth maxDepth); [lia|].
  cbv beta delta [bind tryCatch openDocument emit orThrow visitedHas ret].
  rewrite Hopen. cbn [log visited].
  rewrite bool_decide_eq_false_2 by assumption.
  reflexivity.
Qed.

(** *** Every run is a sequence of steps *)

Lemma sound_forEach {A} maxChars (xs : list A) (body : A -> M unit) :
  (forall x, sound w maxChars (body x)) -> sound w maxChars (forEach xs body).
Proof.
  intros Hbody. induction xs as [|x xs IH]; intros s c s' H; cbn in H.
  - injection H as <- <-. apply rtc_refl.
  - unfold bind in H. destruct (body x s) as [[[[]|] s1]|] eqn:Hx; try discriminate.
    + eapply rtc_trans; [eapply Hbody, Hx | eapply IH, H].
    + injection H as <- <-. eapply Hbody, Hx.
Qed.

Lemma sound_visitLocation self fileUri name depth maxChars loc :
  (forall uri ls d, sound w maxChars (self uri ls d)) ->
  sound w maxChars (visitLocation w self fileUri name depth maxChars loc).
Proof.
  intros Hself s c s' H.
  destruct (String.eqb_spec (loc_uri loc) fileUri) as [Heq|Hne].
  { rewrite visitLocation_inert in H by auto. injection H as <- <-. apply rtc_refl. }
  destruct (decide (defKeyOf loc ∈ visited s)) as [Hseen|Hnew].
  { rewrite visitLocation_inert in H by auto. injection H as <- <-. apply rtc_refl. }
  destruct (openTextDocument w (loc_uri loc)) as [defDoc|] eqn:Hopen.
  2:{ rewrite visitLocation_skip in H by (auto; congruence).
      injection H as <- <-. apply rtc_once, step_skip, Hnew. }
  destruct (extractDefinitionBlock defDoc (loc_line loc) maxChars) as [blk|] eqn:Hblk.
  2:{ rewrite visitLocation_skip in H by (auto; congruence).
      injection H as <- <-. apply rtc_once, step_skip, Hnew. }
  rewrite (visitLocation_record _ _ _ _ _ _ _ _ _ Hne Hnew Hopen Hblk) in H.
  unfold tryCatch in H.
  eapply rtc_l; [eapply step_record; eassumption|].
  match type of H with
  | match ?m with _ => _ end = _ => destruct m as [[[[]|] s1]|] eqn:Hrec
  end; try discriminate.
  - injection H as <- <-. eapply Hself, Hrec.
  - injection H as <- <-. eapply Hself, Hrec.
Qed.

Lemma sound_visitIdentifier self fileUri depth maxChars lineNo identifier :
  (forall uri ls d, sound w maxChars (self uri ls d)) ->
  sound w maxChars (visitIdentifier w self fileUri depth maxChars lineNo identifier).
Proof.
  intros Hself s c s' H. destruct identifier as [name col].
  destruct (decide (probeKey fileUri lineNo col ∈ visited s)) as [Hseen|Hnew].
  - rewrite visitIdentifier_seen in H by assumption.
    injection H as <- <-. apply rtc_refl.
  - rewrite visitIdentifier_probe in H by assumption.
    eapply rtc_l; [apply step_probe, Hnew|].
    eapply sound_forEach; [|exact H].
    intros loc. apply sound_visitLocation, Hself.
Qed.

Lemma sound_visitLine self fileUri document depth maxChars lineNo :
  (forall uri ls d, sound w maxChars (self uri ls d)) ->
  sound w maxChars (visitLine w self fileUri document depth maxChars lineNo).
Proof.
  intros Hself s c s' H. unfold visitLine, bind at 1, orThrow in H.
  destruct (lineAt document _) as [lineText|].
  - eapply sound_forEach; [|exact H].
    intros identifier. apply sound_visitIdentifier, Hself.
  - injection H as <- <-. apply rtc_refl.
Qed.

Lemma sound_gatherRecursive fuel fileUri targetLines maxDepth depth maxChars :
  sound w maxChars
        (gatherRecursive w fuel fileUri targetLines maxDepth depth maxChars).
Proof.
  revert fileUri targetLines depth.
  induction fuel as [|fuel IH]; intros fileUri targetLines depth s c s' H.
  - cbn [gatherRecursive] in H. destruct (depth >=? maxDepth); [|discriminate].
    injection H as <- <-. apply rtc_refl.
  - destruct (Z.le_gt_cases maxDepth depth) as [Hgate|Hd].
    { rewrite gatherRecursive_gate in H by assumption.
      injection H as <- <-. apply rtc_refl. }
    destruct (openTextDocument w fileUri) as [document|] eqn:Hopen.
    2:{ rewrite gatherRecursive_unreadable in H by (assumption || lia).
        injection H as <- <-. apply rtc_once, step_open. }
    destruct (decide (fileUri ∈ visited s)) as [Hseen|Hnew].
    { rewrite (gatherRecursive_revisit _ _ _ _ _ _ _ document) in H
        by (assumption || lia).
      injection H as <- <-. apply rtc_once, step_open. }
    rewrite (gatherRecursive_scan _ _ _ _ _ _ _ document) in H
      by (assumption || lia).
    eapply rtc_l; [apply step_open|].
    eapply rtc_l; [apply step_scan; exact Hnew|].
    eapply sound_forEach; [|exact H].
    intros lineNo. apply sound_visitLine. intros uri ls d. apply IH.
Qed.

(** *** Every run comes to an end *)

Lemma total_forEach {A} (xs : list A) (body : A -> M unit) :
  (forall x, total (body x)) -> total (forEach xs body).
Proof.
  intros Hbody. induction xs as [|x xs IH]; intros s; cbn.
  - eexists _, _. reflexivity.
  - unfold bind. destruct (Hbody x s) as ([[]|] & s1 & ->).
    + apply IH.
    + eexists _, _. reflexivity.
Qed.

Lemma total_visitLocation self fileUri name depth maxChars loc :
  (forall uri ls, total (self uri ls (depth + 1))) ->
  total (visitLocation w self fileUri name depth maxChars loc).
Proof.
  intros Hself s.
  destruct (String.eqb_spec (loc_uri loc) fileUri) as [Heq|Hne].
  { rewrite visitLocation_inert by auto. eexists _, _. reflexivity. }
  destruct (decide (defKeyOf loc ∈ visited s)) as [Hseen|Hnew].
  { rewrite visitLocation_inert by auto. eexists _, _. reflexivity. }
  destruct (openTextDocument w (loc_uri loc)) as [defDoc|] eqn:Hopen.
  2:{ rewrite visitLocation_skip by (auto; congruence). eexists _, _. reflexivity. }
  destruct (extractDefinitionBlock defDoc (loc_line loc) maxChars) as [blk|] eqn:Hblk.
  2:{ rewrite visitLocation_skip by (auto; congruence). eexists _, _. reflexivity. }
  rewrite (visitLocation_record _ _ _ _ _ _ _ _ _ Hne Hnew Hopen Hblk).
  unfold tryCatch.
  destruct (Hself (loc_uri loc)
              [blk_startLine blk; (blk_startLine blk + blk_endLine blk) / 2]
              (afterRecord s loc (contextOf w fileUri name loc blk)))
    as ([[]|] & s1 & ->); eexists _, _; reflexivity.
Qed.

Lemma total_visitIdentifier self fileUri depth maxChars lineNo identifier :
  (forall uri ls, total (self uri ls (depth + 1))) ->
  total (visitIdentifier w self fileUri depth maxChars lineNo identifier).
Proof.
  intros Hself s. destruct identifier as [name col].
  destruct (decide (probeKey fileUri lineNo col ∈ visited s)) as [Hseen|Hnew].
  - rewrite visitIdentifier_seen by assumption. eexists _, _. reflexivity.
  - rewrite visitIdentifier_probe by assumption.
    apply total_forEach. intros loc. apply total_visitLocation, Hself.
Qed.

Lemma total_visitLine self fileUri document depth maxChars lineNo :
  (forall uri ls, total (self uri ls (depth + 1))) ->
  total (visitLine w self fileUri document depth maxChars lineNo).
Proof.
  intros Hself s. unfold visitLine, bind at 1, orThrow.
  destruct (lineAt document _) as [lineText|].
  - apply total_forEach. intros identifier. apply total_visitIdentifier, Hself.
  - eexists _, _. reflexivity.
Qed.

(** Fuel of [maxDepth - currentDepth] is never used up. *)
Lemma gatherRecursive_total fuel fileUri targetLines maxDepth depth maxChars :
  (Z.to_nat (maxDepth - depth) <= fuel)%nat ->
  total (gatherRecursive w fuel fileUri targetLines maxDepth depth maxChars).
Proof.
  revert fileUri targetLines depth.
  induction fuel as [|fuel IH]; intros fileUri targetLines depth Hfuel s.
  - rewrite gatherRecursive_gate by lia. eexists _, _. reflexivity.
  - destruct (Z.le_gt_cases maxDepth depth) as [Hgate|Hd].
    { rewrite gatherRecursive_gate by assumption. eexists _, _. reflexivity. }
    destruct (openTextDocument w fileUri) as [document|] eqn:Hopen.
    2:{ rewrite gatherRecursive_unreadable by (assumption || lia).
        eexists _, _. reflexivity. }
    destruct (decide (fileUri ∈ visited s)) as [Hseen|Hnew].
    { rewrite (gatherRecursive_revisit _ _ _ _ _ _ _ document)
        by (assumption || lia).
      eexists _, _. reflexivity. }
    rewrite (gatherRecursive_scan _ _ _ _ _ _ _ document) by (assumption || lia).
    apply total_forEach. intros lineNo. apply total_visitLine.
    intros uri ls. apply IH. lia.
Qed.

Lemma runTraversal_ends fileUri changedLines maxDepth maxChars :
  exists c s,
    runTraversal w fileUri changedLines maxDepth maxChars = Some (c, s) /\
    reach w maxChars initialState s.
Proof.
  unfold runTraversal.
  destruct (gatherRecursive_total (Z.to_nat maxDepth) fileUri changedLines
              maxDepth 0 maxChars ltac:(lia) initialState) as (c & s & H).
  exists c, s. split; [exact H|]. eapply sound_gatherRecursive, H.
Qed.

End TraversalFacts.


(** ** What a traversal keeps true *)
Section Invariants.
Import DefinitionTracker Traversal.
Variable w : Workspace.
Variable maxChars : Z.

Lemma scannedFiles_app (t t' : list Event) :
  scannedFiles (t ++ t') = scannedFiles t ++ scannedFiles t'.
Proof.
  induction t as [|[] t IH]; cbn [app scannedFiles]; rewrite ?IH; reflexivity.
Qed.

Lemma openedFiles_app (t t' : list Event) :
  openedFiles (t ++ t') = openedFiles t ++ openedFiles t'.
Proof.
  induction t as [|[] t IH]; cbn [app openedFiles]; rewrite ?IH; reflexivity.
Qed.

Lemma records_app (t t' : list Event) :
  records (t ++ t') = records t ++ records t'.
Proof.
  induction t as [|[] t IH]; cbn [app records]; rewrite ?IH; reflexivity.
Qed.

Lemma Invariant_initial : Invariant w maxChars initialState.
Proof.
  split; cbn.
  - constructor.
  - intros uri H. inversion H.
  - constructor.
  - intros key H. inversion H.
  - reflexivity.
  - constructor.
Qed.

(** A change of [visited] and of the events that are neither scans nor
    records keeps the invariant. *)
Lemma Invariant_quiet (s s' : State) :
  Invariant w maxChars s ->
  visited s ⊆ visited s' ->
  results s' = results s ->
  scannedFiles (trace s') = scannedFiles (trace s) ->
  records (trace s') = records (trace s) ->
  Invariant w maxChars s'.
Proof.
  intros [H1 H2 H3 H4 H5 H6] Hv Hr Hs Hrec.
  split; rewrite ?Hs, ?Hrec, ?Hr; auto.
Qed.

Lemma Invariant_step (s s' : State) :
  Invariant w maxChars s -> step w maxChars s s' -> Invariant w maxChars s'.
Proof.
  intros Hinv Hstep.
  destruct Hstep as [uri s | uri s Hnew | key uri line col s Hnew
                     | key uri s Hnew | fileUri name loc defDoc blk s Hnew Hopen Hblk].
  - apply (Invariant_quiet s); auto; cbn [log visited results trace];
      rewrite ?scannedFiles_app, ?records_app; cbn; rewrite ?app_nil_r; auto.
  - destruct Hinv as [H1 H2 H3 H4 H5 H6].
    split; cbn [afterScan visited results trace];
      rewrite ?scannedFiles_app, ?records_app; cbn [scannedFiles records];
      rewrite ?app_nil_r; auto.
    + apply NoDup_app. split; [assumption|]. split; [|apply NoDup_singleton].
      intros x Hx Hx'. apply list_elem_of_singleton in Hx' as ->.
      apply Hnew, H2, Hx.
    + intros x Hx. apply elem_of_app in Hx as [Hx|Hx].
      * apply H2 in Hx. set_solver.
      * apply list_elem_of_singleton in Hx as ->. set_solver.
    + intros key Hk. apply H4 in Hk. set_solver.
  - apply (Invariant_quiet s); auto; cbn [afterProbe visited results trace];
      rewrite ?scannedFiles_app, ?records_app; cbn; rewrite ?app_nil_r; auto.
    set_solver.
  - apply (Invariant_quiet s); auto; cbn [afterSkip visited results trace];
      rewrite ?scannedFiles_app, ?records_app; cbn; rewrite ?app_nil_r; auto.
    set_solver.
  - destruct Hinv as [H1 H2 H3 H4 H5 H6].
    split; cbn [afterRecord visited results trace];
      rewrite ?scannedFiles_app, ?records_app; cbn [scannedFiles records];
      rewrite ?app_nil_r, ?map_app; cbn [map fst snd]; auto.
    + intros x Hx. apply H2 in Hx. set_solver.
    + apply NoDup_app. split; [assumption|]. split; [|apply NoDup_singleton].
      intros x Hx Hx'. apply list_elem_of_singleton in Hx' as ->.
      apply Hnew, H4, Hx.
    + intros x Hx. apply elem_of_app in Hx as [Hx|Hx].
      * apply H4 in Hx. set_solver.
      * apply list_elem_of_singleton in Hx as ->. set_solver.
    + now rewrite H5.
    + apply Forall_app. split; [assumption|].
      constructor; [|constructor].
      exists fileUri, name, loc, defDoc, blk. cbn [fst snd]. auto.
Qed.

Lemma Invariant_reach (s s' : State) :
  Invariant w maxChars s -> reach w maxChars s s' -> Invariant w maxChars s'.
Proof.
  intros Hinv Hreach. induction Hreach as [|s s1 s2 Hstep _ IH]; [assumption|].
  apply IH. eapply Invariant_step; eassumption.
Qed.

(** Every traversal ends, and ends in a state that satisfies the
    invariant. *)
Lemma runTraversal_invariant fileUri changedLines maxDepth :
  exists c s,
    runTraversal w fileUri changedLines maxDepth maxChars = Some (c, s) /\
    Invariant w maxChars s.
Proof.
  destruct (runTraversal_ends w fileUri changedLines maxDepth maxChars)
    as (c & s & Hrun & Hreach).
  exists c, s. split; [assumption|].
  eapply Invariant_reach; [apply Invariant_initial | exact Hreach].
Qed.

Lemma step_visited (s s' : State) : step w maxChars s s' -> visited s ⊆ visited s'.
Proof. intros []; cbn; set_solver. Qed.

Lemma reach_visited (s s' : State) : reach w maxChars s s' -> visited s ⊆ visited s'.
Proof.
  intros H. induction H as [|s s1 s2 Hstep _ IH]; [set_solver|].
  apply step_visited in Hstep. set_solver.
Qed.

(** Keys that are recorded once each have one record or none. *)
Lemma one_record_under (key : string) (rs : list (string * DefinitionContext)) :
  NoDup (map fst rs) ->
  (List.length (List.filter (fun r => String.eqb (fst r) key) rs) <= 1)%nat.
Proof.
  induction rs as [|[k ctx] rs IH]; intros Hnd; cbn [List.filter List.length map fst];
    [lia|].
  cbn [map fst] in Hnd. apply NoDup_cons in Hnd as [Hnew Hnd].
  destruct (String.eqb_spec k key) as [->|Hne]; [|now apply IH].
  cbn [List.length].
  assert (List.filter (fun r => String.eqb (fst r) key) rs = []) as ->; [|cbn; lia].
  clear IH Hnd. induction rs as [|[k' ctx'] rs IH]; [reflexivity|].
  cbn [List.filter fst]. cbn [map fst] in Hnew.
  destruct (String.eqb_spec k' key) as [->|Hne].
  - exfalso. apply Hnew. left.
  - apply IH. intros Hin. apply Hnew. now right.
Qed.

Lemma step_grows (s s' : State) :
  step w maxChars s s' ->
  (exists added, results s' = results s ++ added) /\
  (exists events, trace s' = trace s ++ events).
Proof.
  intros [uri s0 | uri s0 Hnew | key uri line col s0 Hnew
         | key uri s0 Hnew | fileUri name loc defDoc blk s0 Hnew Hopen Hblk];
    cbn; split; ((exists []; now rewrite app_nil_r) || (eexists; reflexivity)).
Qed.

Lemma reach_grows (s s' : State) :
  reach w maxChars s s' ->
  (exists added, results s' = results s ++ added) /\
  (exists events, trace s' = trace s ++ events).
Proof.
  induction 1 as [s|s1 s2 s3 Hstep _ [[a2 H2] [e2 T2]]].
  - split; exists []; now rewrite app_nil_r.
  - apply step_grows in Hstep as [[a1 H1] [e1 T1]].
    split; [exists (a1 ++ a2)|exists (e1 ++ e2)].
    + now rewrite H2, H1, app_assoc.
    + now rewrite T2, T1, app_assoc.
Qed.

(** *** What a stretch of the traversal adds *)

Lemma adds_refl (s : State) : adds s s [] [] [].
Proof. unfold adds. now rewrite !app_nil_r. Qed.

Lemma adds_trans (s s1 s2 : State) rs rs' scans scans' opens opens' :
  adds s s1 rs scans opens -> adds s1 s2 rs' scans' opens' ->
  adds s s2 (rs ++ rs') (scans ++ scans') (opens ++ opens').
Proof.
  intros (H1 & H2 & H3) (H1' & H2' & H3'). unfold adds.
  rewrite H1', H2', H3', H1, H2, H3, <- !app_assoc. auto.
Qed.

Lemma adds_quiet_l (s s1 s2 : State) rs scans opens :
  adds s s1 [] [] [] -> adds s1 s2 rs scans opens -> adds s s2 rs scans opens.
Proof. intros H1 H2. exact (adds_trans _ _ _ _ _ _ _ _ _ H1 H2). Qed.

Lemma adds_quiet_r (s s1 s2 : State) rs scans opens :
  adds s s1 rs scans opens -> adds s1 s2 [] [] [] -> adds s s2 rs scans opens.
Proof.
  intros H1 H2. pose proof (adds_trans _ _ _ _ _ _ _ _ _ H1 H2) as H.
  now rewrite !app_nil_r in H.
Qed.

Lemma adds_open (s : State) (uri : string) :
  adds s (log (EvOpen uri) s) [] [] [uri].
Proof.
  unfold adds. cbn [log results trace].
  rewrite scannedFiles_app, openedFiles_app, !app_nil_r. auto.
Qed.

Lemma adds_afterScan (s : State) (uri : string) :
  adds s (afterScan s uri) [] [uri] [].
Proof.
  unfold adds. cbn [afterScan results trace].
  rewrite scannedFiles_app, openedFiles_app, !app_nil_r. auto.
Qed.

Lemma adds_afterProbe (s : State) (key uri : string) (line col : Z) :
  adds s (afterProbe s key uri line col) [] [] [].
Proof.
  unfold adds. cbn [afterProbe results trace].
  rewrite scannedFiles_app, openedFiles_app, !app_nil_r. auto.
Qed.

Lemma adds_afterSkip (s : State) (key uri : string) :
  adds s (afterSkip s key uri) [] [] [uri].
Proof.
  unfold adds. cbn [afterSkip results trace].
  rewrite scannedFiles_app, openedFiles_app, !app_nil_r. auto.
Qed.

Lemma adds_afterRecord (s : State) (loc : Location) (ctx : DefinitionContext) :
  adds s (afterRecord s loc ctx) [ctx] [] [loc_uri loc].
Proof.
  unfold adds. cbn [afterRecord results trace].
  rewrite scannedFiles_app, openedFiles_app, !app_nil_r. auto.
Qed.

End Invariants.


(** ** The collector's guarantees *)
Section CollectorFacts.
Import DefinitionTracker Traversal Fixtures.

(** C6: a call of the collector at [currentDepth >= maxDepth] ends at once
    and leaves the state as it found it: nothing is opened, nothing is
    probed, nothing is recorded; so with [maxDepth = 0] the collector
    returns the empty sequence for every file and every seed set. *)
Theorem depth_gate_closes :
  (forall w fuel fileUri targetLines maxDepth currentDepth maxChars s,
      currentDepth >= maxDepth ->
      gatherRecursive w fuel fileUri targetLines maxDepth currentDepth maxChars s
      = Some (Normal tt, s)) /\
  (forall w fileUri changedLines maxChars,
      gatherDefinitionsForChangedLines w fileUri changedLines 0 maxChars
      = Some (Normal [])).
Proof.
  split.
  - intros. apply gatherRecursive_gate. lia.
  - intros. unfold gatherDefinitionsForChangedLines, runTraversal.
    rewrite gatherRecursive_gate by lia. reflexivity.
Qed.

Lemma depth_gate_closes_witness :
  gatherRecursive cycleWorkspace 3 uriX [3] 2 2 20000 initialState
  = Some (Normal tt, initialState).
Proof.
  apply (proj1 depth_gate_closes cycleWorkspace 3%nat uriX [3] 2 2 20000
               initialState).
  lia.
Defined.

(** C10, as stated, fails for a negative budget: [slice(0, -1)] drops the
    last character instead of cutting to a length, and no length is at
    most [-1]. *)
Lemma negative_budget_not_respected :
  exists ctx rest,
    gatherDefinitionsForChangedLines sharedWorkspace uriX [1] 1 (-1)
    = Some (Normal (ctx :: rest)) /\
    strlen (definitionContent ctx) = 20 /\
    ~ strlen (definitionContent ctx) <= -1.
Proof.
  eexists _, _. split; [vm_compute; reflexivity|]. split; [reflexivity|].
  intros H. vm_compute in H. apply H. reflexivity.
Qed.

Lemma recordedFrom_bounds w maxChars r :
  recordedFrom w maxChars r ->
  1 <= startLine (snd r) <= endLine (snd r) /\
  (0 <= maxChars -> strlen (definitionContent (snd r)) <= maxChars).
Proof.
  intros (fileUri & name & loc & defDoc & blk & _ & _ & Hblk & ->).
  apply extractDefinitionBlock_bounds in Hblk. exact Hblk.
Qed.

(** C10, amended: for every file, seed set, depth and budget that is not
    negative, the traversal ends and every [DefinitionContext] that it has
    appended satisfies [1 <= startLine <= endLine] and
    [definitionContent.length <= budget]; the promise resolves to these
    records unless the outermost call throws. *)
Theorem recorded_blocks_within_bounds w fileUri changedLines maxDepth maxChars :
  0 <= maxChars ->
  exists c s,
    runTraversal w fileUri changedLines maxDepth maxChars = Some (c, s) /\
    gatherDefinitionsForChangedLines w fileUri changedLines maxDepth maxChars
    = Some (match c with Normal _ => Normal (results s) | Throw => Throw end) /\
    Forall (fun ctx => 1 <= startLine ctx <= endLine ctx /\
                       strlen (definitionContent ctx) <= maxChars)
           (results s).
Proof.
  intros Hbudget.
  destruct (runTraversal_invariant w maxChars fileUri changedLines maxDepth)
    as (c & s & Hrun & Hinv).
  exists c, s. split; [assumption|]. split.
  - unfold gatherDefinitionsForChangedLines. rewrite Hrun. now destruct c.
  - rewrite (inv_results _ _ _ Hinv). apply List.Forall_map.
    eapply List.Forall_impl; [|apply (inv_origin _ _ _ Hinv)].
    intros r Hr. apply recordedFrom_bounds in Hr as [Hlines Hlen]. auto.
Qed.

Lemma recorded_blocks_within_bounds_witness :
  exists c s,
    runTraversal sharedWorkspace uriX [1] 1 30 = Some (c, s) /\
    gatherDefinitionsForChangedLines sharedWorkspace uriX [1] 1 30
    = Some (match c with Normal _ => Normal (results s) | Throw => Throw end) /\
    Forall (fun ctx => 1 <= startLine ctx <= endLine ctx /\
                       strlen (definitionContent ctx) <= 30)
           (results s).
Proof.
  apply (recorded_blocks_within_bounds sharedWorkspace uriX [1] 1 30). lia.
Defined.

(** C3, as stated, fails: the dedup key is built from the line that the
    provider returned, before extraction, so two references that resolve
    to two methods of one class are both recorded, each with the block of
    the class: the same [definitionFile] and the same [startLine]. *)
Lemma same_block_recorded_twice :
  exists c1 c2,
    gatherDefinitionsForChangedLines sharedWorkspace uriX [1] 1 20000
    = Some (Normal [c1; c2]) /\
    definitionFile c1 = definitionFile c2 /\
    startLine c1 = startLine c2.
Proof. eexists _, _. split; [vm_compute; reflexivity|]. split; reflexivity. Qed.

(** Two changed lines whose references resolve to one location that
    lies outside its document: the key is marked at the first reference,
    the extraction throws inside the [try], and the second reference
    finds the key marked.  Nothing is recorded. *)
Lemma stale_location_not_recorded :
  locationsAt staleWorkspace uriX 1 6 = [mkLocation uriY 9] /\
  locationsAt staleWorkspace uriX 2 6 = [mkLocation uriY 9] /\
  blockAt staleWorkspace 20000 (mkLocation uriY 9) = None /\
  exists s,
    runTraversal staleWorkspace uriX [1; 2] 1 20000 = Some (Normal tt, s) /\
    defKeyOf (mkLocation uriY 9) ∈ visited s /\
    results s = [].
Proof.
  split; [reflexivity|]. split; [reflexivity|]. split; [vm_compute; reflexivity|].
  eexists. split; [vm_compute; reflexivity|].
  split; [|reflexivity].
  apply (bool_decide_unpack _). vm_compute. exact I.
Qed.

(** C3, amended: within one invocation the traversal ends, the result list
    is exactly the list of recorded pushes, each push stems from a
    location that the provider returned and is keyed by that location's
    [uri:line] (the line as returned, before extraction), and no key is
    recorded twice.  A location in another file whose key is new has the
    key marked first; its block is then recorded once if the document
    opens and the block is extracted, and not at all if that attempt
    throws.  A reference that resolves to a location whose key is marked
    changes nothing, and no call removes a mark or a record: two
    references that resolve to the same location make one
    [DefinitionContext] or none, and under no key is there more than one
    record when the traversal ends. *)
Theorem one_record_per_resolved_location w maxChars :
  (forall fileUri changedLines maxDepth,
      exists c s,
        runTraversal w fileUri changedLines maxDepth maxChars = Some (c, s) /\
        results s = map snd (records (trace s)) /\
        NoDup (map fst (records (trace s))) /\
        Forall (recordedFrom w maxChars) (records (trace s)) /\
        forall key, (List.length (recordsUnder key (trace s)) <= 1)%nat) /\
  (forall self fileUri name currentDepth loc s,
      loc_uri loc <> fileUri ->
      defKeyOf loc ∉ visited s ->
      exists s1,
        defKeyOf loc ∈ visited s1 /\
        match blockAt w maxChars loc with
        | Some blk =>
            results s1 = results s ++ [contextOf w fileUri name loc blk] /\
            records (trace s1)
            = records (trace s)
              ++ [(defKeyOf loc, contextOf w fileUri name loc blk)] /\
            visitLocation w self fileUri name currentDepth maxChars loc s
            = tryCatch
                (self (loc_uri loc)
                      [blk_startLine blk;
                       (blk_startLine blk + blk_endLine blk) / 2]
                      (currentDepth + 1))
                (ret tt) s1
        | None =>
            results s1 = results s /\
            records (trace s1) = records (trace s) /\
            visitLocation w self fileUri name currentDepth maxChars loc s
            = Some (Normal tt, s1)
        end) /\
  (forall self fileUri name currentDepth loc s,
      defKeyOf loc ∈ visited s ->
      visitLocation w self fileUri name currentDepth maxChars loc s
      = Some (Normal tt, s)) /\
  (forall fuel fileUri targetLines maxDepth currentDepth s c s',
      gatherRecursive w fuel fileUri targetLines maxDepth currentDepth
                      maxChars s
      = Some (c, s') ->
      visited s ⊆ visited s' /\
      exists added, results s' = results s ++ added).
Proof.
  split; [|split; [|split]].
  - intros fileUri changedLines maxDepth.
    destruct (runTraversal_invariant w maxChars fileUri changedLines maxDepth)
      as (c & s & Hrun & Hinv).
    exists c, s. destruct Hinv as [_ _ Hkeys _ Hres Horigin].
    repeat (split; [assumption|]).
    intros key. unfold recordsUnder. rewrite length_map.
    apply one_record_under, Hkeys.
  - intros self fileUri name currentDepth loc s Hne Hnew.
    rewrite (visitLocation_admitted w self fileUri name currentDepth maxChars
               loc s Hne Hnew).
    destruct (blockAt w maxChars loc) as [blk|].
    + exists (afterRecord s loc (contextOf w fileUri name loc blk)).
      split; [cbn [afterRecord visited]; set_solver|].
      split; [reflexivity|]. split; [|reflexivity].
      cbn [afterRecord trace]. rewrite records_app. reflexivity.
    + exists (afterSkip s (defKeyOf loc) (loc_uri loc)).
      split; [cbn [afterSkip visited]; set_solver|].
      split; [reflexivity|]. split; [|reflexivity].
      cbn [afterSkip trace]. rewrite records_app. cbn. now rewrite app_nil_r.
  - intros self fileUri name currentDepth loc s Hseen.
    apply visitLocation_inert. now right.
  - intros fuel fileUri targetLines maxDepth currentDepth s c s' Hrun.
    apply sound_gatherRecursive in Hrun. split.
    + eapply reach_visited, Hrun.
    + now apply reach_grows in Hrun.
Qed.

Lemma one_record_per_resolved_location_witness :
  exists s1,
    defKeyOf (mkLocation uriY 1) ∈ visited s1 /\
    match blockAt sharedWorkspace 20000 (mkLocation uriY 1) with
    | Some blk =>
        results s1
        = results initialState
          ++ [contextOf sharedWorkspace uriX "load" (mkLocation uriY 1) blk] /\
        records (trace s1)
        = records (trace initialState)
          ++ [(defKeyOf (mkLocation uriY 1),
               contextOf sharedWorkspace uriX "load" (mkLocation uriY 1) blk)] /\
        visitLocation sharedWorkspace (fun _ _ _ => ret tt) uriX "load" 0 20000
                      (mkLocation uriY 1) initialState
        = tryCatch
            ((fun _ _ _ => ret tt) (loc_uri (mkLocation uriY 1))
               [blk_startLine blk; (blk_startLine blk + blk_endLine blk) / 2]
               (0 + 1))
            (ret tt) s1
    | None =>
        results s1 = results initialState /\
        records (trace s1) = records (trace initialState) /\
        visitLocation sharedWorkspace (fun _ _ _ => ret tt) uriX "load" 0 20000
                      (mkLocation uriY 1) initialState
        = Some (Normal tt, s1)
    end.
Proof.
  apply (proj1 (proj2 (one_record_per_resolved_location sharedWorkspace 20000))
               (fun _ _ _ => ret tt) uriX "load" 0 (mkLocation uriY 1)
               initialState).
  - discriminate.
  - cbn. set_solver.
Defined.

(** C4, as stated, fails: the document is asked for before the visited
    test, and once more for every block that is extracted from it, so in
    the two-file cycle y.ts is opened twice and x.ts three times. *)
Lemma files_opened_again :
  exists c s,
    runTraversal cycleWorkspace uriX [3] 5 20000 = Some (c, s) /\
    openedFiles (trace s) = [uriX; uriY; uriY; uriX; uriX] /\
    ~ NoDup (openedFiles (trace s)).
Proof.
  eexists _, _. split; [vm_compute; reflexivity|]. split; [reflexivity|].
  cbn [trace]. intros H. vm_compute in H.
  apply NoDup_cons in H as [Hx _]. apply Hx. set_solver.
Qed.

(** C4, amended: within one traversal each file passes the visited test,
    and so has its target lines scanned, at most once; a later entry for a
    file already visited asks the document provider for it once more and
    then returns without a probe or a record.  For each definition key
    that is admitted (a location in another file whose key is new) the
    provider is asked for the defining file once, before any recursive
    entry and whether or not a block is then recorded, and no file is
    scanned by that; a location in the scanned file itself, or one whose
    key is marked, causes no open. *)
Theorem each_file_scanned_once w :
  (forall fileUri changedLines maxDepth maxChars,
      exists c s,
        runTraversal w fileUri changedLines maxDepth maxChars = Some (c, s) /\
        NoDup (scannedFiles (trace s))) /\
  (forall fuel fileUri targetLines maxDepth currentDepth maxChars s document,
      currentDepth < maxDepth ->
      openTextDocument w fileUri = Some document ->
      fileUri ∈ visited s ->
      gatherRecursive w (S fuel) fileUri targetLines maxDepth currentDepth
                      maxChars s
      = Some (Normal tt, log (EvOpen fileUri) s)) /\
  (forall self fileUri name currentDepth maxChars loc s,
      loc_uri loc <> fileUri ->
      defKeyOf loc ∉ visited s ->
      exists s1,
        openedFiles (trace s1) = openedFiles (trace s) ++ [loc_uri loc] /\
        scannedFiles (trace s1) = scannedFiles (trace s) /\
        visitLocation w self fileUri name currentDepth maxChars loc s
        = match blockAt w maxChars loc with
          | Some blk =>
              tryCatch
                (self (loc_uri loc)
                      [blk_startLine blk;
                       (blk_startLine blk + blk_endLine blk) / 2]
                      (currentDepth + 1))
                (ret tt) s1
          | None => Some (Normal tt, s1)
          end) /\
  (forall self fileUri name currentDepth maxChars loc s,
      loc_uri loc = fileUri \/ defKeyOf loc ∈ visited s ->
      visitLocation w self fileUri name currentDepth maxChars loc s
      = Some (Normal tt, s)).
Proof.
  split; [|split; [|split]].
  - intros.
    destruct (runTraversal_invariant w maxChars fileUri changedLines maxDepth)
      as (c & s & Hrun & Hinv).
    exists c, s. destruct Hinv. auto.
  - intros. eapply gatherRecursive_revisit; eassumption.
  - intros self fileUri name currentDepth maxChars loc s Hne Hnew.
    rewrite (visitLocation_admitted w self fileUri name currentDepth maxChars
               loc s Hne Hnew).
    destruct (blockAt w maxChars loc) as [blk|].
    + exists (afterRecord s loc (contextOf w fileUri name loc blk)).
      destruct (adds_afterRecord s loc (contextOf w fileUri name loc blk))
        as (_ & Hscans & Hopens).
      rewrite app_nil_r in Hscans. auto.
    + exists (afterSkip s (defKeyOf loc) (loc_uri loc)).
      destruct (adds_afterSkip s (defKeyOf loc) (loc_uri loc))
        as (_ & Hscans & Hopens).
      rewrite app_nil_r in Hscans. auto.
  - intros. now apply visitLocation_inert.
Qed.

Lemma each_file_scanned_once_witness :
  gatherRecursive cycleWorkspace 3 uriX [3] 5 2 20000
                  (afterScan initialState uriX)
  = Some (Normal tt, log (EvOpen uriX) (afterScan initialState uriX)) /\
  exists s1,
    openedFiles (trace s1) = openedFiles (trace initialState) ++ [uriY] /\
    scannedFiles (trace s1) = scannedFiles (trace initialState) /\
    visitLocation cycleWorkspace (fun _ _ _ => ret tt) uriX "helper" 0 20000
                  (mkLocation uriY 1) initialState
    = match blockAt cycleWorkspace 20000 (mkLocation uriY 1) with
      | Some blk =>
          tryCatch
            ((fun _ _ _ => ret tt) uriY
               [blk_startLine blk; (blk_startLine blk + blk_endLine blk) / 2]
               (0 + 1))
            (ret tt) s1
      | None => Some (Normal tt, s1)
      end.
Proof.
  split.
  - apply (proj1 (proj2 (each_file_scanned_once cycleWorkspace)) 2%nat uriX [3]
                 5 2 20000 (afterScan initialState uriX) cycleDocX).
    + lia.
    + reflexivity.
    + cbn. set_solver.
  - apply (proj1 (proj2 (proj2 (each_file_scanned_once cycleWorkspace)))
                 (fun _ _ _ => ret tt) uriX "helper" 0 20000 (mkLocation uriY 1)
                 initialState).
    + discriminate.
    + cbn. set_solver.
Defined.

(** C7, as stated, fails for a negative budget: the scan has counted more
    than [-1] characters after the first line, and the record holds the
    text without its last character, not a text of length [-1]. *)
Lemma negative_budget_is_no_length :
  exists ctx rest,
    gatherDefinitionsForChangedLines sharedWorkspace uriX [1] 1 (-1)
    = Some (Normal (ctx :: rest)) /\
    -1 < accumulatedChars sharedDocY (startLine ctx - 1) (endLine ctx - 1) /\
    strlen (definitionContent ctx) <> -1.
Proof.
  eexists _, _. split; [vm_compute; reflexivity|].
  split; [reflexivity | discriminate].
Qed.

(** C7, amended: when the scan of a definition block has counted more
    characters than a budget that is a whole number and not negative, the
    record holds exactly [budget] characters, a prefix of the text between
    the block's bounds, and the recursive call that follows is seeded with
    the start line of those bounds and the midpoint of start and end
    line. *)
Theorem truncated_block_keeps_seeds w self fileUri name currentDepth maxChars
    loc s defDoc blk :
  0 <= maxChars ->
  loc_uri loc <> fileUri ->
  defKeyOf loc ∉ visited s ->
  openTextDocument w (loc_uri loc) = Some defDoc ->
  extractDefinitionBlock defDoc (loc_line loc) maxChars = Some blk ->
  maxChars < accumulatedChars defDoc (blk_startLine blk - 1) (blk_endLine blk - 1) ->
  strlen (definitionContent (contextOf w fileUri name loc blk)) = maxChars /\
  definitionContent (contextOf w fileUri name loc blk)
  = slice0 (getText defDoc (blk_startLine blk - 1) (blk_endLine blk)) maxChars /\
  startLine (contextOf w fileUri name loc blk) = blk_startLine blk /\
  endLine (contextOf w fileUri name loc blk) = blk_endLine blk /\
  visitLocation w self fileUri name currentDepth maxChars loc s
  = tryCatch
      (self (loc_uri loc)
            [blk_startLine blk; (blk_startLine blk + blk_endLine blk) / 2]
            (currentDepth + 1))
      (ret tt)
      (afterRecord s loc (contextOf w fileUri name loc blk)).
Proof.
  intros Hbudget Hne Hnew Hopen Hblk Hover.
  split; [|split; [|split; [|split]]]; try reflexivity.
  - cbn [contextOf definitionContent].
    eapply extractDefinitionBlock_truncates; eassumption.
  - cbn [contextOf definitionContent].
    apply extractDefinitionBlock_shape in Hblk. apply Hblk.
  - eapply visitLocation_record; eassumption.
Qed.

Lemma truncated_block_keeps_seeds_witness :
  strlen (definitionContent
            (contextOf sharedWorkspace uriX "load" (mkLocation uriY 1)
                       truncatedBlock)) = 30 /\
  visitLocation sharedWorkspace (fun _ _ _ => ret tt) uriX "load" 0 30
                (mkLocation uriY 1) initialState
  = tryCatch
      (ret tt) (ret tt)
      (afterRecord initialState (mkLocation uriY 1)
                   (contextOf sharedWorkspace uriX "load" (mkLocation uriY 1)
                              truncatedBlock)).
Proof.
  pose proof (truncated_block_keeps_seeds sharedWorkspace (fun _ _ _ => ret tt)
                uriX "load" 0 30 (mkLocation uriY 1) initialState
                sharedDocY truncatedBlock) as H.
  destruct H as (Hlen & _ & _ & _ & Hcall).
  - lia.
  - discriminate.
  - cbn. set_solver.
  - reflexivity.
  - vm_compute. reflexivity.
  - vm_compute. reflexivity.
  - split; [exact Hlen | exact Hcall].
Defined.

End CollectorFacts.


(** ** The keys of the visited set *)
Section Keys.
Import DefinitionTracker Traversal.

Lemma append_cancel (p a b : string) : p +:+ a = p +:+ b -> a = b.
Proof.
  induction p as [|x p IH]; [trivial|].
  change (String x p +:+ a) with (String x (p +:+ a)).
  change (String x p +:+ b) with (String x (p +:+ b)).
  intros [= H]. apply IH, H.
Qed.

Lemma append_empty (p : string) : p +:+ "" = p.
Proof.
  induction p as [|x p IH]; [reflexivity|].
  change (String x p +:+ "") with (String x (p +:+ "")). now rewrite IH.
Qed.

(** A file's own [toString()] is none of the keys built on it. *)
Lemma file_is_no_key (p r : string) : p <> p +:+ ":" +:+ r.
Proof.
  intros H. rewrite <- (append_empty p) in H at 1.
  apply append_cancel in H. discriminate H.
Qed.

Lemma prefix_cons (a b : ascii) (p s : string) :
  String.prefix (String a p) (String b s)
  = if ascii_dec a b then String.prefix p s else false.
Proof. reflexivity. Qed.

Lemma prefix_colon (p b : string) :
  String.prefix (p +:+ ":") (p +:+ ":" +:+ b) = true.
Proof.
  induction p as [|x p IH].
  - change (String.prefix (String ":" "") (String ":" b) = true).
    rewrite prefix_cons. destruct (ascii_dec ":" ":"); [now destruct b|contradiction].
  - change (String x p +:+ ":") with (String x (p +:+ ":")).
    change (String x p +:+ ":" +:+ b) with (String x (p +:+ ":" +:+ b)).
    rewrite prefix_cons. destruct (ascii_dec x x); [exact IH|contradiction].
Qed.

(** A name is no key built on a name it is apart from. *)
Lemma apart_file (p q b : string) :
  String.prefix (q +:+ ":") p = false -> p <> q +:+ ":" +:+ b.
Proof. intros H ->. rewrite prefix_colon in H. discriminate H. Qed.

(** Keys built on two names that are apart differ. *)
Lemma apart_keys (p q a b : string) :
  p <> q ->
  String.prefix (p +:+ ":") q = false ->
  String.prefix (q +:+ ":") p = false ->
  p +:+ ":" +:+ a <> q +:+ ":" +:+ b.
Proof.
  revert q. induction p as [|x p IH]; intros [|y q] Hne Hpq Hqp.
  - contradiction.
  - change (String y q +:+ ":" +:+ b) with (String y (q +:+ ":" +:+ b)).
    intros [= <- _].
    change (String.prefix (String ":" "") (String ":" q) = false) in Hpq.
    rewrite prefix_cons in Hpq.
    destruct (ascii_dec ":" ":"); [now destruct q|contradiction].
  - change (String x p +:+ ":" +:+ a) with (String x (p +:+ ":" +:+ a)).
    intros [= -> _].
    change (String.prefix (String ":" "") (String ":" p) = false) in Hqp.
    rewrite prefix_cons in Hqp.
    destruct (ascii_dec ":" ":"); [now destruct p|contradiction].
  - change (String x p +:+ ":" +:+ a) with (String x (p +:+ ":" +:+ a)).
    change (String y q +:+ ":" +:+ b) with (String y (q +:+ ":" +:+ b)).
    intros [= -> H].
    change (String y p +:+ ":") with (String y (p +:+ ":")) in Hpq.
    change (String y q +:+ ":") with (String y (q +:+ ":")) in Hqp.
    rewrite prefix_cons in Hpq, Hqp.
    destruct (ascii_dec y y); [|contradiction].
    apply (IH q); [congruence | assumption | assumption | exact H].
Qed.

Lemma colonFree_split (n1 n2 r1 r2 : string) :
  colonFree n1 -> colonFree n2 ->
  n1 +:+ ":" +:+ r1 = n2 +:+ ":" +:+ r2 -> n1 = n2 /\ r1 = r2.
Proof.
  revert n2. induction n1 as [|x n1 IH]; intros [|y n2] H1 H2.
  - intros [= H]. auto.
  - change (String y n2 +:+ ":" +:+ r2) with (String y (n2 +:+ ":" +:+ r2)).
    intros [= <- _]. destruct H2 as [H2 _]. contradiction.
  - change (String x n1 +:+ ":" +:+ r1) with (String x (n1 +:+ ":" +:+ r1)).
    intros [= -> _]. destruct H1 as [H1 _]. contradiction.
  - change (String x n1 +:+ ":" +:+ r1) with (String x (n1 +:+ ":" +:+ r1)).
    change (String y n2 +:+ ":" +:+ r2) with (String y (n2 +:+ ":" +:+ r2)).
    intros [= -> H]. destruct H1 as [_ H1], H2 as [_ H2].
    destruct (IH n2 H1 H2 H) as [-> ->]. auto.
Qed.

Lemma colonFree_no_colon (n a b : string) : colonFree n -> n <> a +:+ ":" +:+ b.
Proof.
  revert n. induction a as [|x a IH]; intros [|y n] Hn; try discriminate.
  - intros [= -> _]. destruct Hn as [Hn _]. contradiction.
  - change (String x a +:+ ":" +:+ b) with (String x (a +:+ ":" +:+ b)).
    intros [= _ H]. destruct Hn as [_ Hn]. exact (IH n Hn H).
Qed.

Lemma colonFree_uint (d : Decimal.uint) : colonFree (NilEmpty.string_of_uint d).
Proof. induction d; cbn; auto; split; auto; discriminate. Qed.

Lemma colonFree_numToString (n : Z) : colonFree (numToString n).
Proof.
  unfold numToString, NilZero.string_of_int, NilZero.string_of_uint.
  destruct (Z.to_int n) as [d|d]; destruct d; cbn [colonFree];
    repeat split; try discriminate;
    try (apply (colonFree_uint (Decimal.D0 d)) || apply colonFree_uint).
Qed.

Lemma to_int_not_nil (n : Z) :
  Z.to_int n <> Decimal.Pos Decimal.Nil /\ Z.to_int n <> Decimal.Neg Decimal.Nil.
Proof.
  destruct n as [|p|p]; cbn; split; try discriminate;
    intros [= H]; now apply DecimalPos.Unsigned.to_uint_nonnil in H.
Qed.

Lemma numToString_inj (n m : Z) : numToString n = numToString m -> n = m.
Proof.
  unfold numToString. intros H.
  apply DecimalZ.to_int_inj.
  destruct (to_int_not_nil n) as [Hn1 Hn2], (to_int_not_nil m) as [Hm1 Hm2].
  pose proof (NilZero.isi _ Hn1 Hn2) as En.
  pose proof (NilZero.isi _ Hm1 Hm2) as Em.
  rewrite H in En. congruence.
Qed.

Lemma probeKey_inj (p : string) (l c l' c' : Z) :
  probeKey p l c = probeKey p l' c' -> l = l' /\ c = c'.
Proof.
  unfold probeKey. intros H. apply append_cancel, append_cancel in H.
  apply colonFree_split in H as [Hl Hc]; try apply colonFree_numToString.
  split; now apply numToString_inj.
Qed.

Lemma probeKey_not_file (p : string) (l c : Z) : probeKey p l c <> p.
Proof. intros H. symmetry in H. exact (file_is_no_key _ _ H). Qed.

Lemma defKey_not_file (loc : Location) : defKeyOf loc <> loc_uri loc.
Proof. intros H. symmetry in H. exact (file_is_no_key _ _ H). Qed.

Lemma probeKey_not_defKey (l c : Z) (loc : Location) :
  probeKey (loc_uri loc) l c <> defKeyOf loc.
Proof.
  unfold probeKey, defKeyOf. intros H. apply append_cancel, append_cancel in H.
  symmetry in H. exact (colonFree_no_colon _ _ _ (colonFree_numToString _) H).
Qed.

End Keys.


(** ** A scan whose references leave the file for one definition only *)
Section SingleTarget.
Import DefinitionTracker Traversal.
Variables (w : Workspace) (maxChars depth : Z).
Variables (F : string) (docF : TextDocument).
Variables (T : Location) (docT : TextDocument) (blkT : Block).
Variable self : string -> list Z -> Z -> M unit.
Variable added : list DefinitionContext.
Variables scans opens : list string.
Variables I J : State -> Prop.

Hypothesis Hforeign : loc_uri T <> F.
Hypothesis HdocT : openTextDocument w (loc_uri T) = Some docT.
Hypothesis HblkT : extractDefinitionBlock docT (loc_line T) maxChars = Some blkT.
Hypothesis Honly : forall l c loc,
    In loc (locationsAt w F l c) -> loc = T \/ loc_uri loc = F.
Hypothesis Hsound : forall uri ls d, sound w maxChars (self uri ls d).
Hypothesis Hself : forall s1,
    J s1 ->
    exists c s2,
      self (loc_uri T) [blk_startLine blkT; (blk_startLine blkT + blk_endLine blkT) / 2]
           (depth + 1) s1 = Some (c, s2) /\
      adds s1 s2 added scans opens.
Hypothesis HI_key : forall s, I s -> defKeyOf T ∉ visited s.
Hypothesis HI_fresh : forall s l c,
    I s -> refersTo w F T l c = true -> probeKey F l c ∉ visited s.
Hypothesis HI_probe : forall s l c,
    I s -> refersTo w F T l c = false -> probeKey F l c ∉ visited s ->
    I (afterProbe s (probeKey F l c) F (Z.max (l - 1) 0) c).
Hypothesis HJ : forall s l c n,
    I s -> refersTo w F T l c = true ->
    J (afterRecord (afterProbe s (probeKey F l c) F (Z.max (l - 1) 0) c) T
                   (contextOf w F n T blkT)).
Hypothesis Hpk : forall l c, probeKey F l c <> defKeyOf T.

Lemma sameLocation_eq (a b : Location) : sameLocation a b = true <-> a = b.
Proof.
  unfold sameLocation. destruct a as [ua la], b as [ub lb]. cbn.
  rewrite andb_true_iff, String.eqb_eq, Z.eqb_eq. split.
  - intros [-> ->]. reflexivity.
  - intros [= -> ->]. auto.
Qed.

Lemma refersTo_In (l c : Z) :
  refersTo w F T l c = true <-> In T (locationsAt w F l c).
Proof.
  unfold refersTo. rewrite existsb_exists. split.
  - intros (loc & Hin & Heq). apply sameLocation_eq in Heq as <-. exact Hin.
  - intros Hin. exists T. split; [exact Hin | now apply sameLocation_eq].
Qed.

(** Locations that lie in the file itself or are already keyed change
    nothing. *)
Lemma locations_exhausted (name : string) (locs : list Location) (s : State) :
  (forall loc, In loc locs -> loc_uri loc = F \/ defKeyOf loc ∈ visited s) ->
  forEach locs (visitLocation w self F name depth maxChars) s = Some (Normal tt, s).
Proof.
  induction locs as [|loc locs IH]; intros Hall; [reflexivity|].
  cbn [forEach]. unfold bind.
  rewrite visitLocation_inert by (apply Hall; now left).
  apply IH. intros loc' Hin. apply Hall. now right.
Qed.

(** The first occurrence of the target among the locations is recorded,
    the recursion runs, and the rest changes nothing. *)
Lemma locations_hit (name : string) (locs : list Location) (s : State) :
  defKeyOf T ∉ visited s ->
  J (afterRecord s T (contextOf w F name T blkT)) ->
  (forall loc, In loc locs -> loc = T \/ loc_uri loc = F) ->
  In T locs ->
  exists s',
    forEach locs (visitLocation w self F name depth maxChars) s
    = Some (Normal tt, s') /\
    recordedTarget w F T blkT added scans opens s name s'.
Proof.
  intros Hnew HJs.
  induction locs as [|loc locs IH]; intros Hall Hin; [destruct Hin|].
  cbn [forEach]. unfold bind.
  destruct (sameLocation loc T) eqn:Hsame.
  - apply sameLocation_eq in Hsame as ->.
    rewrite (visitLocation_record w self F name depth maxChars T s docT blkT)
      by assumption.
    unfold tryCatch.
    destruct (Hself _ HJs) as (c & s2 & Hrun & Hres). rewrite Hrun.
    assert (defKeyOf T ∈ visited s2) as Hkey.
    { apply (reach_visited w maxChars _ _ (Hsound _ _ _ _ _ _ Hrun)).
      cbn [afterRecord visited]. apply elem_of_union_l, elem_of_singleton.
      reflexivity. }
    exists s2. split.
    + destruct c as [[]|]; unfold ret;
        apply locations_exhausted; intros loc' Hin';
        (destruct (Hall loc' (or_intror Hin')) as [Heq|Hloc];
         [right; rewrite Heq; exact Hkey | left; exact Hloc]).
    + split; [|exact Hkey].
      exact (adds_trans _ _ _ _ _ _ _ _ _
               (adds_afterRecord s T (contextOf w F name T blkT)) Hres).
  - assert (loc <> T) as Hne.
    { intros ->. rewrite (proj2 (sameLocation_eq T T) eq_refl) in Hsame.
      discriminate. }
    destruct (Hall loc (or_introl eq_refl)) as [|Hlocal]; [contradiction|].
    rewrite visitLocation_inert by now left.
    apply IH.
    + intros loc' Hin'. apply Hall. now right.
    + destruct Hin as [|Hin]; [congruence | exact Hin].
Qed.

(** Before the target is recorded, an identifier either records it or
    keeps the invariant. *)
Lemma identifier_fresh (l : Z) (n : string) (c : Z) (s : State) :
  I s ->
  exists s',
    visitIdentifier w self F depth maxChars l (n, c) s = Some (Normal tt, s') /\
    if refersTo w F T l c
    then recordedTarget w F T blkT added scans opens s n s'
    else I s' /\ adds s s' [] [] [].
Proof.
  intros HI. destruct (refersTo w F T l c) eqn:Hrefers.
  - rewrite visitIdentifier_probe by (now apply HI_fresh).
    destruct (locations_hit n (locationsAt w F l c)
                (afterProbe s (probeKey F l c) F (Z.max (l - 1) 0) c))
      as (s' & Hrun & Hres & Hkey).
    + cbn [afterProbe visited]. intros Hin.
      apply elem_of_union in Hin as [Hin|Hin].
      * apply elem_of_singleton in Hin. symmetry in Hin. exact (Hpk l c Hin).
      * exact (HI_key s HI Hin).
    + now apply HJ.
    + apply Honly.
    + now apply refersTo_In.
    + exists s'. split; [exact Hrun|]. split; [|exact Hkey].
      exact (adds_quiet_l _ _ _ _ _ _ (adds_afterProbe _ _ _ _ _) Hres).
  - destruct (decide (probeKey F l c ∈ visited s)) as [Hseen|Hnew].
    + rewrite visitIdentifier_seen by assumption. exists s.
      split; [reflexivity|]. split; [exact HI | apply adds_refl].
    + rewrite visitIdentifier_probe by assumption.
      rewrite locations_exhausted.
      * eexists. split; [reflexivity|].
        split; [now apply HI_probe | apply adds_afterProbe].
      * intros loc Hin. left.
        destruct (Honly l c loc Hin) as [->|]; [|assumption].
        apply refersTo_In in Hin. congruence.
Qed.

(** After the target is recorded, an identifier adds no result. *)
Lemma identifier_exhausted (l : Z) (id : string * Z) (s : State) :
  defKeyOf T ∈ visited s ->
  exists s',
    visitIdentifier w self F depth maxChars l id s = Some (Normal tt, s') /\
    adds s s' [] [] [] /\ defKeyOf T ∈ visited s'.
Proof.
  intros Hkey. destruct id as [n c].
  destruct (decide (probeKey F l c ∈ visited s)) as [Hseen|Hnew].
  - rewrite visitIdentifier_seen by assumption. exists s.
    split; [reflexivity|]. split; [apply adds_refl | exact Hkey].
  - rewrite visitIdentifier_probe by assumption.
    rewrite locations_exhausted.
    + eexists. split; [reflexivity|].
      split; [apply adds_afterProbe | cbn; set_solver].
    + intros loc Hin. destruct (Honly l c loc Hin) as [->|]; [right | now left].
      cbn. set_solver.
Qed.

Lemma identifiers_exhausted (l : Z) (ids : list (string * Z)) (s : State) :
  defKeyOf T ∈ visited s ->
  exists s',
    forEach ids (visitIdentifier w self F depth maxChars l) s = Some (Normal tt, s') /\
    adds s s' [] [] [] /\ defKeyOf T ∈ visited s'.
Proof.
  revert s. induction ids as [|id ids IH]; intros s Hkey.
  - exists s. split; [reflexivity|]. split; [apply adds_refl | exact Hkey].
  - cbn [forEach]. unfold bind.
    destruct (identifier_exhausted l id s Hkey) as (s1 & -> & Hres1 & Hkey1).
    destruct (IH s1 Hkey1) as (s' & Hrun & Hres & Hkey').
    exists s'. split; [exact Hrun|].
    split; [exact (adds_quiet_l _ _ _ _ _ _ Hres1 Hres) | exact Hkey'].
Qed.

Lemma identifiers_fresh (l : Z) (ids : list (string * Z)) (s : State) :
  I s ->
  exists s',
    forEach ids (visitIdentifier w self F depth maxChars l) s = Some (Normal tt, s') /\
    match firstInLine w F T l ids with
    | Some n => recordedTarget w F T blkT added scans opens s n s'
    | None => I s' /\ adds s s' [] [] []
    end.
Proof.
  revert s. induction ids as [|[n c] ids IH]; intros s HI.
  - exists s. cbn. split; [reflexivity|]. split; [exact HI | apply adds_refl].
  - cbn [forEach]. unfold bind, firstInLine. cbn [find snd].
    destruct (identifier_fresh l n c s HI) as (s1 & -> & Hcase).
    destruct (refersTo w F T l c).
    + destruct Hcase as [Hres1 Hkey1].
      destruct (identifiers_exhausted l ids s1 Hkey1) as (s' & Hrun & Hres & Hkey').
      exists s'. split; [exact Hrun|]. cbn [fst].
      split; [exact (adds_quiet_r _ _ _ _ _ _ Hres1 Hres) | exact Hkey'].
    + destruct Hcase as [HI1 Hres1].
      destruct (IH s1 HI1) as (s' & Hrun & Hcase').
      exists s'. split; [exact Hrun|].
      unfold firstInLine in Hcase'.
      destruct (find _ ids) as [id|].
      * destruct Hcase' as [Hres Hkey].
        split; [exact (adds_quiet_l _ _ _ _ _ _ Hres1 Hres) | exact Hkey].
      * destruct Hcase' as [HI' Hres].
        split; [exact HI' | exact (adds_quiet_l _ _ _ _ _ _ Hres1 Hres)].
Qed.

Lemma lines_exhausted (ls : list Z) (s : State) :
  linesExist docF ls -> defKeyOf T ∈ visited s ->
  exists s',
    forEach ls (visitLine w self F docF depth maxChars) s = Some (Normal tt, s') /\
    adds s s' [] [] [] /\ defKeyOf T ∈ visited s'.
Proof.
  revert s. induction ls as [|l ls IH]; intros s Hex Hkey.
  - exists s. split; [reflexivity|]. split; [apply adds_refl | exact Hkey].
  - cbn [forEach]. unfold bind at 1, visitLine, bind at 1, orThrow.
    destruct (lineAt docF (Z.min (l - 1) (lineCount docF - 1))) as [t|] eqn:Ht.
    2:{ exfalso. apply (Hex l); [now left | exact Ht]. }
    destruct (identifiers_exhausted l (extractIdentifiers t) s Hkey)
      as (s1 & -> & Hres1 & Hkey1).
    destruct (IH s1 (fun l' Hin => Hex l' (or_intror Hin)) Hkey1)
      as (s' & Hrun & Hres & Hkey').
    exists s'. split; [exact Hrun|].
    split; [exact (adds_quiet_l _ _ _ _ _ _ Hres1 Hres) | exact Hkey'].
Qed.

(** A scan from a state that satisfies the invariant records the target
    at its first reference, with what the recursion adds, and nothing
    else; without a reference it records nothing. *)
Lemma lines_fresh (ls : list Z) (s : State) :
  linesExist docF ls -> I s ->
  exists s',
    forEach ls (visitLine w self F docF depth maxChars) s = Some (Normal tt, s') /\
    match firstReference w F docF T ls with
    | Some n => recordedTarget w F T blkT added scans opens s n s'
    | None => I s' /\ adds s s' [] [] []
    end.
Proof.
  revert s. induction ls as [|l ls IH]; intros s Hex HI.
  - exists s. cbn. split; [reflexivity|]. split; [exact HI | apply adds_refl].
  - cbn [forEach firstReference]. unfold bind at 1, visitLine, bind at 1, orThrow.
    destruct (lineAt docF (Z.min (l - 1) (lineCount docF - 1))) as [t|] eqn:Ht.
    2:{ exfalso. apply (Hex l); [now left | exact Ht]. }
    destruct (identifiers_fresh l (extractIdentifiers t) s HI) as (s1 & -> & Hcase).
    assert (linesExist docF ls) as Hex' by (intros l' Hin; apply Hex; now right).
    destruct (firstInLine w F T l (extractIdentifiers t)) as [n|].
    + destruct Hcase as [Hres1 Hkey1].
      destruct (lines_exhausted ls s1 Hex' Hkey1) as (s' & Hrun & Hres & Hkey').
      exists s'. split; [exact Hrun|].
      split; [exact (adds_quiet_r _ _ _ _ _ _ Hres1 Hres) | exact Hkey'].
    + destruct Hcase as [HI1 Hres1].
      destruct (IH s1 Hex' HI1) as (s' & Hrun & Hcase').
      exists s'. split; [exact Hrun|].
      destruct (firstReference w F docF T ls) as [n|].
      * destruct Hcase' as [Hres Hkey].
        split; [exact (adds_quiet_l _ _ _ _ _ _ Hres1 Hres) | exact Hkey].
      * destruct Hcase' as [HI' Hres].
        split; [exact HI' | exact (adds_quiet_l _ _ _ _ _ _ Hres1 Hres)].
Qed.

End SingleTarget.


(** ** Two files that refer to each other *)
Section Cycle.
Import DefinitionTracker Traversal.
Variables (w : Workspace) (maxChars maxDepth : Z) (X Y : string).
Variables (docX docY : TextDocument) (locX locY : Location) (blkX blkY : Block).
Hypothesis cycle : MutualCycle w maxChars X Y docX docY locX locY blkX blkY.

Lemma cycle_docX : openTextDocument w X = Some docX.
Proof. apply cycle. Qed.

Lemma cycle_docY : openTextDocument w Y = Some docY.
Proof. apply cycle. Qed.

Lemma cycle_inX : loc_uri locX = X.
Proof. apply cycle. Qed.

Lemma cycle_inY : loc_uri locY = Y.
Proof. apply cycle. Qed.

Lemma cycle_blkX : extractDefinitionBlock docX (loc_line locX) maxChars = Some blkX.
Proof. apply cycle. Qed.

Lemma cycle_blkY : extractDefinitionBlock docY (loc_line locY) maxChars = Some blkY.
Proof. apply cycle. Qed.

Lemma cycle_fromX (lineNo col : Z) (loc : Location) :
  In loc (locationsAt w X lineNo col) -> loc = locY \/ loc_uri loc = X.
Proof. apply cycle. Qed.

Lemma cycle_fromY (lineNo col : Z) (loc : Location) :
  In loc (locationsAt w Y lineNo col) -> loc = locX \/ loc_uri loc = Y.
Proof. apply cycle. Qed.

Lemma X_is_not_Y : X <> Y.
Proof. apply cycle. Qed.

Lemma cross_XY (a b : string) : X +:+ ":" +:+ a <> Y +:+ ":" +:+ b.
Proof. destruct cycle as [(Hne & HXY & HYX) _ _ _ _ _ _ _ _]. now apply apart_keys. Qed.

Lemma cross_YX (a b : string) : Y +:+ ":" +:+ a <> X +:+ ":" +:+ b.
Proof. intros H. symmetry in H. exact (cross_XY _ _ H). Qed.

Lemma X_is_no_Y_key (b : string) : X <> Y +:+ ":" +:+ b.
Proof. destruct cycle as [(Hne & HXY & HYX) _ _ _ _ _ _ _ _]. now apply apart_file. Qed.

Lemma Y_is_no_X_key (b : string) : Y <> X +:+ ":" +:+ b.
Proof. destruct cycle as [(Hne & HXY & HYX) _ _ _ _ _ _ _ _]. now apply apart_file. Qed.

Lemma adds_entry (s : State) (uri : string) :
  adds s (afterScan (log (EvOpen uri) s) uri) [] [uri] [uri].
Proof. exact (adds_trans _ _ _ _ _ _ _ _ _ (adds_open s uri) (adds_afterScan _ uri)). Qed.

Lemma defKeyX : defKeyOf locX = X +:+ ":" +:+ numToString (loc_line locX).
Proof. unfold defKeyOf. now rewrite cycle_inX. Qed.

Lemma defKeyY : defKeyOf locY = Y +:+ ":" +:+ numToString (loc_line locY).
Proof. unfold defKeyOf. now rewrite cycle_inY. Qed.

Lemma sampled_lines_exist :
  linesExist docY [blk_startLine blkY; (blk_startLine blkY + blk_endLine blkY) / 2].
Proof.
  pose proof cycle_blkY as Hblk.
  pose proof (extractDefinitionBlock_in_document _ _ _ _ Hblk) as Hdoc.
  apply extractDefinitionBlock_shape in Hblk as [[Hstart Hend] _].
  assert (1 <= (blk_startLine blkY + blk_endLine blkY) / 2) as Hmid.
  { apply Z.div_le_lower_bound; lia. }
  intros l [<-|[<-|[]]]; apply lineAt_exists; lia.
Qed.

(** A later entry into the first file asks for the document, unless the
    depth gate is closed, and adds nothing else. *)
Lemma reenter_first (fuel : nat) (ls : list Z) (depth : Z) (s1 : State) :
  (Z.to_nat (maxDepth - depth) <= fuel)%nat ->
  X ∈ visited s1 ->
  exists c s2,
    gatherRecursive w fuel X ls maxDepth depth maxChars s1 = Some (c, s2) /\
    adds s1 s2 [] [] (if depth <? maxDepth then [X] else []).
Proof.
  intros Hfuel Hseen.
  destruct (Z.ltb_spec depth maxDepth) as [Hd|Hgate].
  - destruct fuel as [|fuel]; [lia|].
    rewrite (gatherRecursive_revisit _ _ _ _ _ _ _ _ docX);
      [| lia | apply cycle_docX | assumption].
    eexists _, _. split; [reflexivity | apply adds_open].
  - rewrite gatherRecursive_gate by assumption.
    eexists _, _. split; [reflexivity | apply adds_refl].
Qed.

(** The scan of the second file records the block of the first one if a
    sampled line refers to it, and nothing else. *)
Lemma scan_second (fuel : nat) (s1 : State) :
  1 < maxDepth ->
  (Z.to_nat (maxDepth - 1) <= fuel)%nat ->
  enteringSecond X locY s1 ->
  exists c s2,
    gatherRecursive w fuel Y
      [blk_startLine blkY; (blk_startLine blkY + blk_endLine blkY) / 2]
      maxDepth (0 + 1) maxChars s1 = Some (c, s2) /\
    adds s1 s2 (backReference w Y docY locX blkX blkY) [Y]
         (Y :: backOpens w X Y docY locX blkY maxDepth).
Proof.
  intros Hdepth Hfuel [HX Hkeys].
  destruct fuel as [|fuel]; [lia|].
  assert (Y ∉ visited s1) as HnewY.
  { intros Hin. destruct (Hkeys _ Hin) as [HY | [(l & c & HY) | HY]].
    - exact (X_is_not_Y (eq_sym HY)).
    - exact (Y_is_no_X_key _ HY).
    - rewrite defKeyY in HY. exact (file_is_no_key _ _ HY). }
  rewrite (gatherRecursive_scan _ _ _ _ _ _ _ _ docY);
    [| lia | apply cycle_docY | assumption].
  edestruct (lines_fresh w maxChars (0 + 1) Y docY locX docX blkX
               (fun uri nextLines d =>
                  gatherRecursive w fuel uri nextLines maxDepth d maxChars)
               [] [] (if 2 <? maxDepth then [X] else [])
               (scanningSecond w X Y locX) (fun s => X ∈ visited s))
    with (ls := [blk_startLine blkY; (blk_startLine blkY + blk_endLine blkY) / 2])
         (s := afterScan (log (EvOpen Y) s1) Y)
    as (s2 & Hrun & Hcase).
  - rewrite cycle_inX. exact X_is_not_Y.
  - rewrite cycle_inX. apply cycle_docX.
  - apply cycle_blkX.
  - apply cycle_fromY.
  - intros uri ls d. apply sound_gatherRecursive.
  - intros s Hs. rewrite cycle_inX.
    apply reenter_first; [lia | exact Hs].
  - intros s (_ & Hkey & _). exact Hkey.
  - intros s l c (_ & _ & Hfresh). apply Hfresh.
  - intros s l c (HXs & Hkey & Hfresh) Hrefers Hnew. split; [|split].
    + cbn [afterProbe visited]. apply elem_of_union_r, HXs.
    + cbn [afterProbe visited]. intros Hin.
      apply elem_of_union in Hin as [Hin|Hin]; [|exact (Hkey Hin)].
      apply elem_of_singleton in Hin. rewrite defKeyX in Hin.
      exact (cross_XY _ _ Hin).
    + intros l' c' Hhit. cbn [afterProbe visited]. intros Hin.
      apply elem_of_union in Hin as [Hin|Hin]; [|exact (Hfresh l' c' Hhit Hin)].
      apply elem_of_singleton in Hin. apply probeKey_inj in Hin as [-> ->].
      congruence.
  - intros s l c n (HXs & _) _. cbn [afterRecord afterProbe visited].
    apply elem_of_union_r, elem_of_union_r, HXs.
  - intros l c H. rewrite defKeyX in H. exact (cross_YX _ _ H).
  - exact sampled_lines_exist.
  - split; [|split]; cbn [afterScan log visited].
    + apply elem_of_union_r, HX.
    + intros Hin. apply elem_of_union in Hin as [Hin|Hin].
      * apply elem_of_singleton in Hin. rewrite defKeyX in Hin.
        exact (Y_is_no_X_key _ (eq_sym Hin)).
      * destruct (Hkeys _ Hin) as [HK | [(l & c & HK) | HK]].
        -- rewrite defKeyX in HK. exact (file_is_no_key _ _ (eq_sym HK)).
        -- rewrite <- cycle_inX in HK.
           exact (probeKey_not_defKey _ _ _ (eq_sym HK)).
        -- rewrite defKeyX, defKeyY in HK. exact (cross_XY _ _ HK).
    + intros l c Hhit Hin. apply elem_of_union in Hin as [Hin|Hin].
      * apply elem_of_singleton in Hin. exact (probeKey_not_file _ _ _ Hin).
      * destruct (Hkeys _ Hin) as [HK | [(l' & c' & HK) | HK]].
        -- exact (X_is_no_Y_key _ (eq_sym HK)).
        -- exact (cross_YX _ _ HK).
        -- rewrite <- cycle_inY in HK.
           exact (probeKey_not_defKey _ _ _ HK).
  - destruct (firstReference w Y docY locX
                [blk_startLine blkY; (blk_startLine blkY + blk_endLine blkY) / 2])
      as [name|] eqn:Hfirst.
    + exists (Normal tt), s2. split; [exact Hrun|].
      destruct Hcase as [Hres _]. unfold backReference, backOpens.
      rewrite Hfirst. rewrite cycle_inX in Hres.
      exact (adds_trans _ _ _ _ _ _ _ _ _ (adds_entry s1 Y) Hres).
    + exists (Normal tt), s2. split; [exact Hrun|].
      destruct Hcase as [_ Hres]. unfold backReference, backOpens.
      rewrite Hfirst.
      exact (adds_trans _ _ _ _ _ _ _ _ _ (adds_entry s1 Y) Hres).
Qed.

Lemma firstReference_line_exists (F : string) (doc : TextDocument) (T : Location)
    (seed : Z) (name : string) :
  firstReference w F doc T [seed] = Some name -> linesExist doc [seed].
Proof.
  cbn [firstReference]. intros H l [<-|[]] Hnone. rewrite Hnone in H.
  discriminate H.
Qed.

(** The whole run: the records, the scans and the opens. *)
Lemma cycle_run (seed : Z) (nameY : string) :
  2 <= maxDepth ->
  firstReference w X docX locY [seed] = Some nameY ->
  exists s,
    runTraversal w X [seed] maxDepth maxChars = Some (Normal tt, s) /\
    adds initialState s
         (contextOf w X nameY locY blkY :: backReference w Y docY locX blkX blkY)
         [X; Y]
         (X :: Y :: Y :: backOpens w X Y docY locX blkY maxDepth).
Proof.
  intros Hdepth Hfirst.
  unfold runTraversal.
  destruct (Z.to_nat maxDepth) as [|fuel] eqn:Hfuel; [lia|].
  rewrite (gatherRecursive_scan _ _ _ _ _ _ _ _ docX);
    [| lia | apply cycle_docX
     | cbn; apply not_elem_of_empty].
  edestruct (lines_fresh w maxChars 0 X docX locY docY blkY
               (fun uri nextLines d =>
                  gatherRecursive w fuel uri nextLines maxDepth d maxChars)
               (backReference w Y docY locX blkX blkY)
               [Y] (Y :: backOpens w X Y docY locX blkY maxDepth)
               (scanningFirst w X locY) (enteringSecond X locY))
    with (ls := [seed]) (s := afterScan (log (EvOpen X) initialState) X)
    as (s' & Hrun & Hcase).
  - rewrite cycle_inY. intros H. exact (X_is_not_Y (eq_sym H)).
  - rewrite cycle_inY.
    apply cycle_docY.
  - apply cycle_blkY.
  - apply cycle_fromX.
  - intros uri ls d. apply sound_gatherRecursive.
  - intros s Hs. rewrite cycle_inY.
    apply scan_second; [lia | lia | exact Hs].
  - intros s [_ Hkeys] Hin. rewrite defKeyY in Hin.
    destruct (Hkeys _ Hin) as [HK | (l & c & HK & _)].
    + exact (X_is_no_Y_key _ (eq_sym HK)).
    + exact (cross_YX _ _ HK).
  - intros s l c [_ Hkeys] Hhit Hin.
    destruct (Hkeys _ Hin) as [HK | (l' & c' & HK & Hmiss)].
    + exact (probeKey_not_file _ _ _ HK).
    + apply probeKey_inj in HK as [-> ->]. congruence.
  - intros s l c [HXs Hkeys] Hmiss Hnew. split; cbn [afterProbe visited].
    + apply elem_of_union_r, HXs.
    + intros k Hin. apply elem_of_union in Hin as [Hin|Hin].
      * apply elem_of_singleton in Hin. right. exists l, c. auto.
      * apply Hkeys, Hin.
  - intros s l c n [HXs Hkeys] _. split; cbn [afterRecord afterProbe visited].
    + apply elem_of_union_r, elem_of_union_r, HXs.
    + intros k Hin. apply elem_of_union in Hin as [Hin|Hin].
      * apply elem_of_singleton in Hin. auto.
      * apply elem_of_union in Hin as [Hin|Hin].
        -- apply elem_of_singleton in Hin. right. left. eauto.
        -- destruct (Hkeys _ Hin) as [HK | (l' & c' & HK & _)]; [auto|].
           right. left. eauto.
  - intros l c H. rewrite defKeyY in H. exact (cross_XY _ _ H).
  - eapply firstReference_line_exists, Hfirst.
  - split; cbn [afterScan log visited initialState].
    + apply elem_of_union_l, elem_of_singleton. reflexivity.
    + intros k Hin. apply elem_of_union in Hin as [Hin|Hin].
      * apply elem_of_singleton in Hin. auto.
      * apply not_elem_of_empty in Hin. destruct Hin.
  - exists s'. split; [exact Hrun|].
    rewrite Hfirst in Hcase. destruct Hcase as [Hres _].
    rewrite cycle_inY in Hres.
    exact (adds_trans _ _ _ _ _ _ _ _ _ (adds_entry initialState X) Hres).
Qed.

(** C2, amended: for a mutual reference cycle between two files X and Y
    whose names are apart (distinct, and neither begins with the other
    followed by a colon), where both documents open, the changed line of
    X refers to a definition in Y, both blocks can be extracted, and the
    only references that leave either file lead to that definition and to
    one definition in X: the traversal with [maxDepth] of 2 or more, so also
    with 5, ends and returns the block in Y first, followed by the block
    in X exactly when the start line or the midpoint line of the block in
    Y refers to it.  X and Y are scanned once each, in this order.  The
    provider is asked for X, for Y (the extraction) and for Y again (the
    entry); when the block in X is recorded, it is asked for X (the
    extraction) and, with [maxDepth] of 3 or more, once more by the third
    entry, which ends at the visited test without a scan; with [maxDepth]
    of 2 the depth gate closes that entry first. *)
Theorem mutual_cycle_records_both_ends (seed : Z) (nameY : string) :
  2 <= maxDepth ->
  firstReference w X docX locY [seed] = Some nameY ->
  gatherDefinitionsForChangedLines w X [seed] maxDepth maxChars
  = Some (Normal (contextOf w X nameY locY blkY
                  :: backReference w Y docY locX blkX blkY)) /\
  exists s,
    runTraversal w X [seed] maxDepth maxChars = Some (Normal tt, s) /\
    scannedFiles (trace s) = [X; Y] /\
    openedFiles (trace s)
    = X :: Y :: Y :: backOpens w X Y docY locX blkY maxDepth.
Proof.
  intros Hdepth Hfirst.
  destruct (cycle_run seed nameY Hdepth Hfirst)
    as (s & Hrun & Hres & Hscans & Hopens).
  split.
  - unfold gatherDefinitionsForChangedLines. rewrite Hrun, Hres. reflexivity.
  - exists s. split; [exact Hrun|]. split; [exact Hscans | exact Hopens].
Qed.

End Cycle.

Section CycleRun.
Import DefinitionTracker Traversal Fixtures.

(** C2, as stated, fails: in the two-file cycle the midpoint line of the
    block of [helper] refers back to x.ts, and the block of [main] is
    recorded before the visited-file test stops the third entry: two
    records, not one. *)
Lemma cycle_returns_two_records :
  exists c1 c2,
    gatherDefinitionsForChangedLines cycleWorkspace uriX [3] 5 20000
    = Some (Normal [c1; c2]) /\
    definitionFile c1 = "y.ts" /\ definitionFile c2 = "x.ts" /\
    List.length [c1; c2] <> 1%nat.
Proof.
  eexists _, _. split; [vm_compute; reflexivity|].
  split; [reflexivity|]. split; [reflexivity|]. discriminate.
Qed.

(** Names of which one begins with the other are apart all the same. *)
Lemma longer_extension_apart : keysApart "file:///ws/a.ts" "file:///ws/a.tsx".
Proof. split; [discriminate|]. split; vm_compute; reflexivity. Qed.

Lemma cycleWorkspace_cycle :
  MutualCycle cycleWorkspace 20000 uriX uriY cycleDocX cycleDocY
              (mkLocation uriX 1) (mkLocation uriY 1) cycleBlockX cycleBlockY.
Proof.
  split; try (vm_compute; reflexivity).
  - split; [discriminate|]. split; vm_compute; reflexivity.
  - intros lineNo col loc. unfold locationsAt.
    cbn [cycleWorkspace executeDefinitionProvider].
    change (String.eqb uriX uriX) with true.
    change (String.eqb uriX uriY) with false.
    destruct (Z.max (lineNo - 1) 0 =? 2), (col =? 9); cbn;
      intros H; repeat (destruct H as [H|H]; [now (subst; auto)|]);
      destruct H.
  - intros lineNo col loc. unfold locationsAt.
    cbn [cycleWorkspace executeDefinitionProvider].
    change (String.eqb uriY uriX) with false.
    change (String.eqb uriY uriY) with true.
    destruct (Z.max (lineNo - 1) 0 =? 2), (col =? 9); cbn;
      intros H; repeat (destruct H as [H|H]; [now (subst; auto)|]);
      destruct H.
Qed.

Lemma mutual_cycle_records_both_ends_witness :
  gatherDefinitionsForChangedLines cycleWorkspace uriX [3] 5 20000
  = Some (Normal (contextOf cycleWorkspace uriX "helper" (mkLocation uriY 1)
                            cycleBlockY
                  :: backReference cycleWorkspace uriY cycleDocY
                                   (mkLocation uriX 1) cycleBlockX cycleBlockY)) /\
  exists s,
    runTraversal cycleWorkspace uriX [3] 5 20000 = Some (Normal tt, s) /\
    scannedFiles (trace s) = [uriX; uriY] /\
    openedFiles (trace s)
    = uriX :: uriY :: uriY
      :: backOpens cycleWorkspace uriX uriY cycleDocY (mkLocation uriX 1)
                   cycleBlockY 5.
Proof.
  apply (mutual_cycle_records_both_ends cycleWorkspace 20000 5 uriX uriY
           cycleDocX cycleDocY (mkLocation uriX 1) (mkLocation uriY 1)
           cycleBlockX cycleBlockY cycleWorkspace_cycle 3 "helper").
  - lia.
  - vm_compute. reflexivity.
Defined.

End CycleRun.

Section PatchFacts.
Import DiffAnalyzer Extent.

Lemma walkHunk_length (ls : list string) (cursor : Z) :
  List.length (walkHunk cursor ls)
  = List.length (List.filter (fun l => startsWith l "+") ls).
Proof.
  revert cursor. induction ls as [|l ls IH]; intros cursor; [reflexivity|].
  cbn [walkHunk List.filter]. unfold lineKind.
  destruct (startsWith l "+") eqn:Hplus.
  - cbn [List.length]. now rewrite IH.
  - destruct (startsWith l "-"); apply IH.
Qed.

Lemma filter_concat {A} (p : A -> bool) (ls : list (list A)) :
  List.filter p (concat ls) = concat (map (List.filter p) ls).
Proof.
  induction ls as [|l ls IH]; [reflexivity|].
  cbn [concat map]. now rewrite List.filter_app, IH.
Qed.

Lemma changed_lines_by_hunk (fd : FileDiff) :
  getChangedLineNumbers fd
  = concat (map (fun h => walkHunk (newStart h) (lines h)) (hunks fd)).
Proof. unfold getChangedLineNumbers. now rewrite hunkStep_walk. Qed.

(** X1.  [getChangedLineNumbers] returns one line number for every line of
    the hunks that starts with [+], and none for any other line. *)
Theorem changed_lines_count (fd : FileDiff) :
  List.length (getChangedLineNumbers fd) = List.length (addedLines fd).
Proof.
  rewrite changed_lines_by_hunk. unfold addedLines.
  rewrite filter_concat.
  induction (hunks fd) as [|h hs IH]; [reflexivity|].
  cbn [map concat]. rewrite !List.length_app, IH, walkHunk_length.
  reflexivity.
Qed.


(** Hunks that start at line 1 or later give lines from 1 on. *)
Lemma changed_lines_positive (fd : FileDiff) :
  Forall (fun h => 1 <= newStart h) (hunks fd) ->
  Forall (fun x => 1 <= x) (getChangedLineNumbers fd).
Proof.
  rewrite changed_lines_by_hunk.
  induction 1 as [|h hs Hh _ IH]; [constructor|].
  cbn [map concat]. apply List.Forall_app. split; [|exact IH].
  apply List.Forall_forall. intros x Hx. apply walkHunk_range in Hx. lia.
Qed.

Lemma orEmpty_devNull (o : option string) :
  isDevNull o = true <-> orEmpty o = "/dev/null".
Proof.
  destruct o as [s|]; cbn.
  - apply String.eqb_eq.
  - split; discriminate.
Qed.

(** X3.  In every [FileDiff] that [parseDiff] returns, [isNew] holds
    exactly when [oldPath] is [/dev/null], [isDeleted] exactly when
    [newPath] is, and [unifiedDiff] is the whole text that was parsed,
    also when the text holds several files. *)
Theorem parsed_flags_follow_paths (L : DiffLib) (text : string)
    (fds : list FileDiff) :
  parseDiff L text = Some fds ->
  Forall (fun fd =>
            (isNew fd = true <-> oldPath fd = "/dev/null") /\
            (isDeleted fd = true <-> newPath fd = "/dev/null") /\
            unifiedDiff fd = text) fds.
Proof.
  intros Hparse.
  destruct (parsePatch L text) as [files|] eqn:Hfiles.
  - rewrite (parseDiff_files L text files Hfiles) in Hparse.
    injection Hparse as <-.
    apply List.Forall_forall. intros fd Hin.
    apply in_map_iff in Hin as (p & <- & _). cbn.
    split; [apply orEmpty_devNull|split; [apply orEmpty_devNull|reflexivity]].
  - apply parseDiff_fails_with_parsePatch in Hfiles. congruence.
Qed.

Lemma parsed_flags_follow_paths_witness :
  Forall (fun fd =>
            (isNew fd = true <-> oldPath fd = "/dev/null") /\
            (isDeleted fd = true <-> newPath fd = "/dev/null") /\
            unifiedDiff fd = newFilePatch)
         [mkFileDiff "/dev/null" "b/f.ts" [mkHunk 0 1 ["+x"]] true false
                     newFilePatch].
Proof.
  apply (parsed_flags_follow_paths JsDiff.library newFilePatch).
  vm_compute. reflexivity.
Defined.

End PatchFacts.

(** ** Where an extracted block starts and ends *)
Section BlockFacts.
Import DefinitionTracker Traversal Extent.

Lemma lineAt_some (doc : TextDocument) (i : Z) :
  0 <= i < lineCount doc -> exists t, lineAt doc i = Some t.
Proof.
  intros Hi. destruct (lineAt doc i) as [t|] eqn:E; [now exists t|].
  now apply lineAt_exists in Hi.
Qed.

Lemma findBlockStart_succeeds (doc : TextDocument) (lowest i : Z) (n : nat) :
  0 <= lowest -> i < lineCount doc ->
  exists r, findBlockStart doc lowest i n = Some r.
Proof.
  intros Hlow. revert i.
  induction n as [|n IH]; intros i Hi; cbn [findBlockStart];
    (destruct (Z.ltb_spec i lowest) as [|Hge]; [now eexists|]);
    (destruct (lineAt_some doc i) as [t ->]; [lia|]);
    (destruct (Regex.test declarationRe t); [now eexists|]).
  - now eexists.
  - apply IH. lia.
Qed.

Lemma findBlockEnd_succeeds (doc : TextDocument) (n : nat) (i depth : Z)
    (found : bool) (count maxChars : Z) :
  0 <= i -> i + Z.of_nat n <= lineCount doc ->
  exists r, findBlockEnd doc n i depth found count maxChars = Some r.
Proof.
  revert i depth found count.
  induction n as [|n IH]; intros i depth found count Hi Hn; cbn [findBlockEnd];
    [now eexists|].
  destruct (lineAt_some doc i) as [t ->]; [lia|].
  destruct (fold_left braceStep (list_ascii_of_string t) (depth, found))
    as [depth' found'].
  destruct (found' && (depth' =? 0)); [now eexists|].
  destruct (count + strlen t + 1 >? maxChars); [now eexists|].
  apply IH; lia.
Qed.

(** Outside the document the first [lineAt] throws. *)
Lemma extractDefinitionBlock_inside (doc : TextDocument) (line maxChars : Z)
    (blk : Block) :
  extractDefinitionBlock doc line maxChars = Some blk ->
  0 <= line < lineCount doc.
Proof.
  unfold extractDefinitionBlock. intros Hblk.
  destruct (findBlockStart doc (Z.max 0 (line - 20)) line 20) as [r|] eqn:Hr;
    [|discriminate].
  destruct (Z.ltb_spec line 0) as [Hneg|Hpos].
  - cbn [findBlockStart] in Hr.
    destruct (Z.ltb_spec line (Z.max 0 (line - 20))) as [_|]; [|lia].
    injection Hr as <-.
    rewrite findBlockEnd_negative in Hblk by assumption. discriminate.
  - apply findBlockStart_first in Hr; lia.
Qed.

(** X4.  [extractDefinitionBlock] throws exactly when the resolved line is
    not a line of the document; inside the document it returns a block
    for every budget. *)
Theorem extractDefinitionBlock_throws_outside (doc : TextDocument)
    (line maxChars : Z) :
  extractDefinitionBlock doc line maxChars = None
  <-> ~ (0 <= line < lineCount doc).
Proof.
  split.
  - intros Hnone Hin. unfold extractDefinitionBlock in Hnone.
    destruct (findBlockStart_succeeds doc (Z.max 0 (line - 20)) line 20)
      as [r Hr]; [lia|lia|].
    rewrite Hr in Hnone.
    set (blockStart := match r with Some i => i | None => line end) in *.
    assert (0 <= blockStart <= line) as Hb.
    { subst blockStart. destruct r as [j|]; [|lia].
      now apply findBlockStart_range in Hr. }
    destruct (findBlockEnd_succeeds doc (Z.to_nat (lineCount doc - blockStart))
                blockStart 0 false 0 maxChars) as [e He]; [lia|lia|].
    rewrite He in Hnone. discriminate.
  - intros Hout.
    destruct (extractDefinitionBlock doc line maxChars) as [blk|] eqn:Hblk;
      [|reflexivity].
    apply extractDefinitionBlock_inside in Hblk. contradiction.
Qed.

Lemma findBlockStart_nearest (doc : TextDocument) (lowest : Z) (n : nat) (i : Z)
    (r : option Z) :
  findBlockStart doc lowest i n = Some r ->
  match r with
  | Some j =>
      Z.max lowest (i - Z.of_nat n) <= j <= i /\ declares doc j = true /\
      (forall k, j < k <= i -> declares doc k = false)
  | None =>
      forall k, Z.max lowest (i - Z.of_nat n) <= k <= i -> declares doc k = false
  end.
Proof.
  revert i r.
  induction n as [|n IH]; intros i r; cbn [findBlockStart];
    (destruct (Z.ltb_spec i lowest) as [Hlt|Hge]; [intros [= <-]; intros k Hk; lia|]);
    (destruct (lineAt doc i) as [t|] eqn:Hline; [|discriminate]);
    (destruct (Regex.test declarationRe t) eqn:Htest;
     [intros [= <-]; unfold declares; rewrite Hline;
      split; [lia|split; [assumption|intros k Hk; lia]]|]).
  - intros [= <-]. intros k Hk. assert (k = i) as -> by lia.
    unfold declares. now rewrite Hline.
  - intros Hrec. apply IH in Hrec.
    assert (declares doc i = false) as Hi
      by (unfold declares; now rewrite Hline).
    destruct r as [j|].
    + destruct Hrec as (Hj & Hd & Hbelow).
      split; [lia|split; [assumption|]].
      intros k Hk. destruct (Z.eq_dec k i) as [->|]; [assumption|].
      apply Hbelow. lia.
    + intros k Hk. destruct (Z.eq_dec k i) as [->|]; [assumption|].
      apply Hrec. lia.
Qed.

(** X5.  The block starts on the nearest line at or above the resolved
    line, at most twenty lines up, that has a declaration shape; when no
    line of that window has one, it starts on the resolved line. *)
Theorem block_starts_at_nearest_declaration (doc : TextDocument)
    (line maxChars : Z) (blk : Block) :
  extractDefinitionBlock doc line maxChars = Some blk ->
  let first := blk_startLine blk - 1 in
  Z.max 0 (line - 20) <= first <= line /\
  (forall k, first < k <= line -> declares doc k = false) /\
  (declares doc first = true \/
   (first = line /\
    forall k, Z.max 0 (line - 20) <= k <= line -> declares doc k = false)).
Proof.
  intros Hblk.
  pose proof (extractDefinitionBlock_inside doc line maxChars blk Hblk) as Hin.
  unfold extractDefinitionBlock in Hblk.
  destruct (findBlockStart doc (Z.max 0 (line - 20)) line 20) as [r|] eqn:Hr;
    [|discriminate].
  destruct (findBlockEnd doc _ _ 0 false 0 maxChars) as [stopped|];
    [|discriminate].
  injection Hblk as <-. cbn [blk_startLine].
  apply findBlockStart_nearest in Hr.
  destruct r as [j|]; cbn zeta.
  - destruct Hr as (Hj & Hd & Hbelow).
    replace (j + 1 - 1) with j by lia.
    split; [lia|split; [assumption|now left]].
  - replace (line + 1 - 1) with line by lia.
    split; [lia|split; [intros k Hk; lia|right]].
    split; [reflexivity|]. intros k Hk. apply Hr. lia.
Qed.

Lemma block_starts_at_nearest_declaration_witness :
  let first := blk_startLine Fixtures.truncatedBlock - 1 in
  Z.max 0 (1 - 20) <= first <= 1 /\
  (forall k, first < k <= 1 -> declares Fixtures.sharedDocY k = false) /\
  (declares Fixtures.sharedDocY first = true \/
   (first = 1 /\
    forall k, Z.max 0 (1 - 20) <= k <= 1 ->
              declares Fixtures.sharedDocY k = false)).
Proof.
  apply (block_starts_at_nearest_declaration Fixtures.sharedDocY 1 30).
  vm_compute. reflexivity.
Defined.

(** *** The downward loop against the closed form of its break test *)

Lemma lines_upto (doc : TextDocument) (a i : Z) (t : string) :
  0 <= a <= i -> lineAt doc i = Some t ->
  firstn (Z.to_nat (i + 1 - a)) (skipn (Z.to_nat a) (docLines doc))
  = firstn (Z.to_nat (i - 1 + 1 - a)) (skipn (Z.to_nat a) (docLines doc)) ++ [t].
Proof.
  intros Ha Hline. unfold lineAt in Hline.
  destruct (Z.ltb_spec i 0); [lia|].
  replace (Z.to_nat (i + 1 - a)) with (S (Z.to_nat (i - 1 + 1 - a))) by lia.
  apply take_S_r. rewrite lookup_drop.
  replace (Z.to_nat a + Z.to_nat (i - 1 + 1 - a))%nat with (Z.to_nat i) by lia.
  exact Hline.
Qed.

Lemma charsOf_next (doc : TextDocument) (a i : Z) (t : string) :
  0 <= a <= i -> lineAt doc i = Some t ->
  charsOf doc a i = charsOf doc a (i - 1) ++ list_ascii_of_string t.
Proof.
  intros Ha Hline. unfold charsOf.
  rewrite (lines_upto doc a i t Ha Hline), map_app, concat_app.
  cbn [map concat]. now rewrite app_nil_r.
Qed.

Lemma braceState_next (doc : TextDocument) (a i : Z) (t : string) :
  0 <= a <= i -> lineAt doc i = Some t ->
  braceState doc a i
  = fold_left braceStep (list_ascii_of_string t) (braceState doc a (i - 1)).
Proof.
  intros Ha Hline. unfold braceState.
  now rewrite (charsOf_next doc a i t Ha Hline), fold_left_app.
Qed.

Lemma accumulatedChars_next (doc : TextDocument) (a i : Z) (t : string) :
  0 <= a <= i -> lineAt doc i = Some t ->
  accumulatedChars doc a i = accumulatedChars doc a (i - 1) + strlen t + 1.
Proof.
  intros Ha Hline. unfold accumulatedChars.
  rewrite (lines_upto doc a i t Ha Hline), fold_left_app. reflexivity.
Qed.

Lemma findBlockEnd_first_stop (doc : TextDocument) (maxChars a : Z) (n : nat)
    (i : Z) (r : option Z) :
  0 <= a <= i ->
  (forall j, a <= j < i -> stopsAt doc maxChars a j = false) ->
  findBlockEnd doc n i (fst (braceState doc a (i - 1)))
               (snd (braceState doc a (i - 1)))
               (accumulatedChars doc a (i - 1)) maxChars = Some r ->
  match r with
  | Some e =>
      i <= e < lineCount doc /\ stopsAt doc maxChars a e = true /\
      (forall j, a <= j < e -> stopsAt doc maxChars a j = false)
  | None =>
      forall j, a <= j < i + Z.of_nat n -> stopsAt doc maxChars a j = false
  end.
Proof.
  revert i r.
  induction n as [|n IH]; intros i r Ha Hbefore; cbn [findBlockEnd].
  - intros [= <-]. intros j Hj. apply Hbefore. lia.
  - destruct (lineAt doc i) as [t|] eqn:Hline; [|discriminate].
    pose proof (braceState_next doc a i t Ha Hline) as Hbrace.
    pose proof (accumulatedChars_next doc a i t Ha Hline) as Hcount.
    rewrite <- surjective_pairing, <- Hbrace, <- Hcount.
    destruct (braceState doc a i) as [depth' found'] eqn:Hstate.
    assert (stopsAt doc maxChars a i
            = (found' && (depth' =? 0)) || (accumulatedChars doc a i >? maxChars))
      as Hstop by (unfold stopsAt; now rewrite Hstate).
    destruct (found' && (depth' =? 0)) eqn:Hclosed.
    { intros [= <-]. apply lineAt_range in Hline.
      split; [lia|split; [now rewrite Hstop|assumption]]. }
    destruct (accumulatedChars doc a i >? maxChars) eqn:Hover.
    { intros [= <-]. apply lineAt_range in Hline.
      split; [lia|split; [now rewrite Hstop|assumption]]. }
    intros Hrec.
    assert (forall j, a <= j < i + 1 -> stopsAt doc maxChars a j = false) as Hnow.
    { intros j Hj. destruct (Z.eq_dec j i) as [->|]; [now rewrite Hstop|].
      apply Hbefore. lia. }
    specialize (IH (i + 1) r).
    replace (i + 1 - 1) with i in IH by lia.
    rewrite Hstate in IH. cbn [fst snd] in IH.
    specialize (IH ltac:(lia) Hnow Hrec).
    destruct r as [e|].
    + destruct IH as (He & Hs & Hb). split; [lia|split; assumption].
    + intros j Hj. apply IH. lia.
Qed.

(** X6.  The block ends on the first line, from its start line on, where
    the braces opened since the start are closed again or the characters
    counted exceed the budget; when no line to the end of the document
    is such a line, the block is its start line alone.  It never ends
    past the last line of the document. *)
Theorem block_ends_at_first_stop (doc : TextDocument) (line maxChars : Z)
    (blk : Block) :
  extractDefinitionBlock doc line maxChars = Some blk ->
  let first := blk_startLine blk - 1 in
  let last := blk_endLine blk - 1 in
  first <= last < lineCount doc /\
  ((stopsAt doc maxChars first last = true /\
    forall j, first <= j < last -> stopsAt doc maxChars first j = false) \/
   (last = first /\
    forall j, first <= j < lineCount doc -> stopsAt doc maxChars first j = false)).
Proof.
  intros Hblk.
  pose proof (extractDefinitionBlock_inside doc line maxChars blk Hblk) as Hin.
  unfold extractDefinitionBlock in Hblk.
  destruct (findBlockStart doc (Z.max 0 (line - 20)) line 20) as [r|] eqn:Hr;
    [|discriminate].
  set (blockStart := match r with Some i => i | None => line end) in *.
  assert (0 <= blockStart <= line) as Hb.
  { subst blockStart. destruct r as [j|]; [|lia].
    now apply findBlockStart_range in Hr. }
  destruct (findBlockEnd doc _ _ 0 false 0 maxChars) as [stopped|] eqn:He;
    [|discriminate].
  injection Hblk as <-. cbn [blk_startLine blk_endLine]. cbn zeta.
  replace (blockStart + 1 - 1) with blockStart by lia.
  assert (braceState doc blockStart (blockStart - 1) = (0, false)) as Hb0.
  { unfold braceState, charsOf.
    replace (Z.to_nat (blockStart - 1 + 1 - blockStart)) with 0%nat by lia.
    reflexivity. }
  assert (accumulatedChars doc blockStart (blockStart - 1) = 0) as Hc0.
  { unfold accumulatedChars.
    replace (Z.to_nat (blockStart - 1 + 1 - blockStart)) with 0%nat by lia.
    reflexivity. }
  pose proof (findBlockEnd_first_stop doc maxChars blockStart
                (Z.to_nat (lineCount doc - blockStart)) blockStart stopped) as Hloop.
  rewrite Hb0, Hc0 in Hloop. cbn [fst snd] in Hloop.
  specialize (Hloop ltac:(lia) ltac:(intros j Hj; lia) He).
  destruct stopped as [e|].
  - destruct Hloop as (Hrange & Hstop & Hbefore).
    replace (e + 1 - 1) with e by lia.
    split; [lia|left; split; assumption].
  - replace (blockStart + 1 - 1) with blockStart by lia.
    split; [lia|right; split; [reflexivity|]].
    intros j Hj. apply Hloop. lia.
Qed.

Lemma block_ends_at_first_stop_witness :
  let first := blk_startLine Fixtures.cycleBlockY - 1 in
  let last := blk_endLine Fixtures.cycleBlockY - 1 in
  first <= last < lineCount Fixtures.cycleDocY /\
  ((stopsAt Fixtures.cycleDocY 20000 first last = true /\
    forall j, first <= j < last ->
              stopsAt Fixtures.cycleDocY 20000 first j = false) \/
   (last = first /\
    forall j, first <= j < lineCount Fixtures.cycleDocY ->
              stopsAt Fixtures.cycleDocY 20000 first j = false)).
Proof.
  apply (block_ends_at_first_stop Fixtures.cycleDocY 1 20000).
  vm_compute. reflexivity.
Defined.

End BlockFacts.

(** ** The identifiers of a line *)
Section IdentifierFacts.
Import Regex DefinitionTracker Matching.

Lemma advances_refl (c : Cur) : advances c c.
Proof. exists []. split; [reflexivity|cbn; lia]. Qed.

Lemma advances_trans (c1 c2 c3 : Cur) :
  advances c1 c2 -> advances c2 c3 -> advances c1 c3.
Proof.
  intros (p1 & H1 & P1) (p2 & H2 & P2). exists (p1 ++ p2).
  rewrite H1, H2, <- app_assoc, List.length_app. split; [reflexivity|lia].
Qed.

Lemma advances_pos (c c' : Cur) : advances c c' -> (pos c <= pos c')%nat.
Proof. intros (p & _ & ->). lia. Qed.

Section Moves.
Context {T : Type}.

Lemma starGreedy_advances p rs pv i cp (k : Cur -> option T) t :
  starGreedy p rs pv i cp k = Some t ->
  exists c', k c' = Some t /\ advances (mkCur pv rs i cp) c'.
Proof.
  revert pv i.
  induction rs as [|a rs IH]; intros pv i; cbn [starGreedy].
  - intros H. eexists. split; [exact H|apply advances_refl].
  - destruct (p a).
    + unfold orElse.
      destruct (starGreedy p rs (Some a) (S i) cp k) as [t'|] eqn:E.
      * intros [= <-]. apply IH in E as (c' & Hk & (pre & Hr & Hp)).
        exists c'. split; [exact Hk|]. exists (a :: pre).
        cbn in *. split; [now rewrite Hr|lia].
      * intros H. eexists. split; [exact H|apply advances_refl].
    + intros H. eexists. split; [exact H|apply advances_refl].
Qed.

Lemma starLazy_advances p rs pv i cp (k : Cur -> option T) t :
  starLazy p rs pv i cp k = Some t ->
  exists c', k c' = Some t /\ advances (mkCur pv rs i cp) c'.
Proof.
  revert pv i.
  induction rs as [|a rs IH]; intros pv i; cbn [starLazy]; unfold orElse.
  - destruct (k (mkCur pv [] i cp)) as [t'|] eqn:E; [|discriminate].
    intros [= <-]. eexists. split; [exact E|apply advances_refl].
  - destruct (k (mkCur pv (a :: rs) i cp)) as [t'|] eqn:E.
    + intros [= <-]. eexists. split; [exact E|apply advances_refl].
    + destruct (p a); [|discriminate].
      intros H. apply IH in H as (c' & Hk & (pre & Hr & Hp)).
      exists c'. split; [exact Hk|]. exists (a :: pre).
      cbn in *. split; [now rewrite Hr|lia].
Qed.

Lemma one_advances p c (k : Cur -> option T) t :
  one p c k = Some t ->
  exists c', k c' = Some t /\ advances c c' /\ (pos c < pos c')%nat.
Proof.
  unfold one. destruct (rest c) as [|a rs] eqn:Hrest; [discriminate|].
  destruct (p a); [|discriminate].
  intros H. eexists. split; [exact H|]. split; [|cbn; lia].
  exists [a]. cbn. split; [assumption|lia].
Qed.

Lemma exactly_advances n p c (k : Cur -> option T) t :
  exactly n p c k = Some t ->
  exists c', k c' = Some t /\ advances c c' /\ (pos c + n <= pos c')%nat.
Proof.
  revert c. induction n as [|n IH]; intros c; cbn [exactly].
  - intros H. exists c. split; [exact H|]. split; [apply advances_refl|lia].
  - intros H. apply one_advances in H as (c1 & H & Ha & Hp).
    apply IH in H as (c2 & H & Ha2 & Hp2).
    exists c2. split; [exact H|]. split; [eapply advances_trans; eassumption|lia].
Qed.
End Moves.

Lemma cursor_eta (c : Cur) : mkCur (prev c) (rest c) (pos c) (cap c) = c.
Proof. now destruct c. Qed.

(** A match only moves forward, and by at least one character when the
    expression [consumes]. *)
Lemma run_advances {T} (r : re) (c : Cur) (k : Cur -> option T) (t : T) :
  run r c k = Some t ->
  exists c', k c' = Some t /\ advances c c' /\
             (consumes r = true -> (pos c < pos c')%nat).
Proof.
  revert c k.
  induction r as [a|p|p|p|n p|r1 IH1|r1 IH1 r2 IH2|r1 IH1 r2 IH2| |r1 IH1| | | ];
    intros c k; cbn [run consumes].
  - intros H. apply one_advances in H as (c' & H & Ha & Hp). eauto.
  - intros H. apply one_advances in H as (c' & H & Ha & Hp). eauto.
  - intros H. apply starGreedy_advances in H as (c' & H & Ha).
    rewrite cursor_eta in Ha. exists c'. split; [exact H|split; [exact Ha|discriminate]].
  - intros H. apply starLazy_advances in H as (c' & H & Ha).
    rewrite cursor_eta in Ha. exists c'. split; [exact H|split; [exact Ha|discriminate]].
  - intros H. apply exactly_advances in H as (c1 & H & Ha & Hp).
    apply starGreedy_advances in H as (c2 & H & Ha2).
    rewrite cursor_eta in Ha2. exists c2. split; [exact H|].
    split; [eapply advances_trans; eassumption|].
    intros Hn. apply Nat.leb_le in Hn. apply advances_pos in Ha2. lia.
  - unfold orElse. destruct (run r1 c k) as [t'|] eqn:E.
    + intros [= <-]. apply IH1 in E as (c' & H & Ha & _).
      exists c'. split; [exact H|split; [exact Ha|discriminate]].
    + intros H. exists c. split; [exact H|split; [apply advances_refl|discriminate]].
  - unfold orElse. destruct (run r1 c k) as [t'|] eqn:E.
    + intros [= <-]. apply IH1 in E as (c' & H & Ha & Hp).
      exists c'. split; [exact H|split; [exact Ha|]].
      intros Hc. apply andb_prop in Hc as [Hc _]. auto.
    + intros H. apply IH2 in H as (c' & H & Ha & Hp).
      exists c'. split; [exact H|split; [exact Ha|]].
      intros Hc. apply andb_prop in Hc as [_ Hc]. auto.
  - intros H. apply IH1 in H as (c1 & H & Ha1 & Hp1).
    apply IH2 in H as (c2 & H & Ha2 & Hp2).
    exists c2. split; [exact H|split; [eapply advances_trans; eassumption|]].
    intros Hc. apply advances_pos in Ha1, Ha2.
    apply orb_prop in Hc as [Hc|Hc]; [specialize (Hp1 Hc)|specialize (Hp2 Hc)]; lia.
  - intros H. exists c. split; [exact H|split; [apply advances_refl|discriminate]].
  - intros H. apply IH1 in H as (c' & H & Ha & Hp).
    eexists. split; [exact H|]. split; [|exact Hp].
    destruct Ha as (pre & Hr & Hpos). exists pre. cbn. now split.
  - destruct (pos c =? 0)%nat; [|discriminate].
    intros H. exists c. split; [exact H|split; [apply advances_refl|discriminate]].
  - destruct (rest c); [|discriminate].
    intros H. exists c. split; [exact H|split; [apply advances_refl|discriminate]].
  - destruct (xorb _ _); [|discriminate].
    intros H. exists c. split; [exact H|split; [apply advances_refl|discriminate]].
Qed.

Lemma searchFrom_index (r : re) (rs : list ascii) (pv : option ascii) (i j : nat)
    (c : Cur) :
  searchFrom r rs pv i = Some (j, c) ->
  (i <= j)%nat /\ (j <= pos c)%nat /\ (consumes r = true -> (j < pos c)%nat).
Proof.
  revert pv i. induction rs as [|a rs IH]; intros pv i; cbn [searchFrom].
  - destruct (run r (mkCur pv [] i None) Some) as [c'|] eqn:E; [|discriminate].
    intros [= <- <-]. apply run_advances in E as (c1 & [= ->] & Ha & Hp).
    apply advances_pos in Ha. cbn in *. auto.
  - destruct (run r (mkCur pv (a :: rs) i None) Some) as [c'|] eqn:E.
    + intros [= <- <-]. apply run_advances in E as (c1 & [= ->] & Ha & Hp).
      apply advances_pos in Ha. cbn in *. auto.
    + intros H. apply IH in H as (H1 & H2 & H3). split; [lia|auto].
Qed.

Lemma matchesFrom_sorted (r : re) (fuel : nat) (rs : list ascii)
    (pv : option ascii) (i : nat) :
  consumes r = true ->
  StronglySorted lt (map fst (matchesFrom fuel r rs pv i)) /\
  Forall (fun j => (i <= j)%nat) (map fst (matchesFrom fuel r rs pv i)).
Proof.
  intros Hc. revert rs pv i.
  induction fuel as [|fuel IH]; intros rs pv i; cbn [matchesFrom];
    [split; constructor|].
  destruct (searchFrom r rs pv i) as [[j c]|] eqn:E; [|split; constructor].
  apply searchFrom_index in E as (Hij & _ & Hlt). specialize (Hlt Hc).
  destruct (Nat.eqb_spec (pos c) i) as [Heq|_]; [lia|].
  destruct (IH (rest c) (prev c) (pos c)) as [Hs Hf].
  cbn [map fst]. split.
  - constructor; [exact Hs|].
    eapply List.Forall_impl; [|exact Hf]. cbn. intros; lia.
  - constructor; [exact Hij|].
    eapply List.Forall_impl; [|exact Hf]. cbn. intros; lia.
Qed.

Lemma sorted_of_nat (l : list nat) :
  StronglySorted lt l -> StronglySorted Z.lt (map Z.of_nat l).
Proof.
  induction 1 as [|a l Hs IH Hf]; cbn [map]; constructor; [exact IH|].
  rewrite List.Forall_forall in *. intros z Hz.
  apply in_map_iff in Hz as (n & <- & Hn). specialize (Hf n Hn). lia.
Qed.

(** X7.  [extractIdentifiers] lists the identifiers of a line from left
    to right: their columns are strictly increasing, so no two of them
    share a column. *)
Theorem identifier_columns_increase (lineText : string) :
  StronglySorted Z.lt (map snd (extractIdentifiers lineText)).
Proof.
  unfold extractIdentifiers.
  set (stripped := removeAll blockCommentRe (removeFirst lineCommentRe lineText)).
  rewrite map_map.
  rewrite (map_ext _ (fun m => Z.of_nat (fst m)))
    by (intros [j c]; reflexivity).
  rewrite <- (map_map fst Z.of_nat).
  apply sorted_of_nat. unfold matchAll.
  now apply matchesFrom_sorted.
Qed.

End IdentifierFacts.

Section CommentLines.
Import Regex DefinitionTracker Matching.

Lemma chars_of_append (s1 s2 : string) :
  list_ascii_of_string (s1 +:+ s2)
  = list_ascii_of_string s1 ++ list_ascii_of_string s2.
Proof.
  induction s1 as [|a s1 IH]; [reflexivity|].
  change (String a s1 +:+ s2) with (String a (s1 +:+ s2)).
  cbn [list_ascii_of_string app]. now rewrite IH.
Qed.

Lemma space_is_plain (a : ascii) :
  space a = true -> word a = false /\ isChar "/" a = false.
Proof.
  destruct a as [[] [] [] [] [] [] [] []]; vm_compute; intros H;
    (discriminate H || (split; reflexivity)).
Qed.

Lemma searchFrom_blank (r : re) :
  (forall pv rs i, isWordAt pv = false -> blankAhead rs ->
                   run r (mkCur pv rs i None) Some = None) ->
  forall ws pv i, forallb space ws = true -> isWordAt pv = false ->
                  searchFrom r ws pv i = None.
Proof.
  intros Hfail ws. induction ws as [|a ws IH]; intros pv i Hws Hpv;
    cbn [searchFrom].
  - now rewrite Hfail.
  - cbn [forallb] in Hws. apply andb_prop in Hws as [Ha Hws].
    rewrite Hfail by assumption.
    apply IH; [assumption|]. cbn. now apply space_is_plain.
Qed.

Lemma searchFrom_skips_blank (r : re) (tail : list ascii) :
  (forall pv a rs i, space a = true ->
                     run r (mkCur pv (a :: rs) i None) Some = None) ->
  forall ws pv i, forallb space ws = true ->
    exists pv', searchFrom r (ws ++ tail) pv i
                = searchFrom r tail pv' (i + List.length ws).
Proof.
  intros Hfail ws. induction ws as [|a ws IH]; intros pv i Hws.
  - exists pv. cbn [app List.length]. now rewrite Nat.add_0_r.
  - cbn [forallb] in Hws. apply andb_prop in Hws as [Ha Hws].
    cbn [app searchFrom]. rewrite Hfail by assumption.
    destruct (IH (Some a) (S i) Hws) as [pv' ->]. exists pv'.
    cbn [List.length]. f_equal. lia.
Qed.

Lemma starGreedy_to_end {T} p rs pv i cp (k : Cur -> option T) (P : T -> Prop) :
  forallb p rs = true ->
  (forall pv', exists t, k (mkCur pv' [] (i + List.length rs) cp) = Some t /\ P t) ->
  exists t, starGreedy p rs pv i cp k = Some t /\ P t.
Proof.
  revert pv i. induction rs as [|a rs IH]; intros pv i Hall Hk; cbn [starGreedy].
  - specialize (Hk pv). cbn [List.length] in Hk. now rewrite Nat.add_0_r in Hk.
  - cbn [forallb] in Hall. apply andb_prop in Hall as [Ha Hall]. rewrite Ha.
    destruct (IH (Some a) (S i) Hall) as (t & -> & Ht).
    + intros pv'. specialize (Hk pv'). cbn [List.length] in Hk.
      now replace (S i + List.length rs)%nat with (i + S (List.length rs))%nat by lia.
    + exists t. now split.
Qed.

Lemma lineComment_to_end (t : list ascii) (pv : option ascii) (i : nat) :
  forallb dot t = true ->
  exists c, run lineCommentRe (mkCur pv ("/" :: "/" :: t)%char i None) Some = Some c
            /\ rest c = [].
Proof.
  intros Ht. unfold lineCommentRe. cbn [seq lit run]. unfold one. cbn.
  apply starGreedy_to_end; [assumption|].
  intros pv'. eexists. split; reflexivity.
Qed.

Lemma lineComment_not_at_blank pv a rs i :
  space a = true -> run lineCommentRe (mkCur pv (a :: rs) i None) Some = None.
Proof.
  intros Ha. apply space_is_plain in Ha as [_ Ha].
  unfold lineCommentRe. cbn [seq lit run]. unfold one. cbn [rest].
  now rewrite Ha.
Qed.

Lemma blockComment_not_at_blank pv rs i :
  isWordAt pv = false -> blankAhead rs ->
  run blockCommentRe (mkCur pv rs i None) Some = None.
Proof.
  intros _ Hrs. unfold blockCommentRe. cbn [seq lit run]. unfold one. cbn [rest].
  destruct rs as [|a rs]; [reflexivity|].
  apply space_is_plain in Hrs as [_ Ha]. now rewrite Ha.
Qed.

Lemma identifier_not_at_blank pv rs i :
  isWordAt pv = false -> blankAhead rs ->
  run identifierRe (mkCur pv rs i None) Some = None.
Proof.
  intros Hpv Hrs. unfold identifierRe. cbn [seq run prev rest]. rewrite Hpv.
  destruct rs as [|a rs]; [reflexivity|].
  apply space_is_plain in Hrs as [Ha _]. cbn. now rewrite Ha.
Qed.

Lemma matchAll_blank (r : re) (ws : string) :
  (forall pv rs i, isWordAt pv = false -> blankAhead rs ->
                   run r (mkCur pv rs i None) Some = None) ->
  blank ws = true -> matchAll r ws = [].
Proof.
  intros Hfail Hws. unfold matchAll. cbn [matchesFrom].
  now rewrite (searchFrom_blank r Hfail).
Qed.

(** X8.  A line that holds nothing but a [//] comment, indented or not,
    gives no identifier: what follows the [//] is never probed. *)
Theorem comment_line_has_no_identifiers (indent text : string) :
  blank indent = true -> singleLine text = true ->
  extractIdentifiers (indent +:+ "//" +:+ text) = [].
Proof.
  intros Hindent Htext. unfold extractIdentifiers.
  assert (removeFirst lineCommentRe (indent +:+ "//" +:+ text) = indent) as ->.
  { unfold removeFirst. rewrite !chars_of_append.
    change (list_ascii_of_string "//") with ["/"; "/"]%char. cbn [app].
    destruct (searchFrom_skips_blank lineCommentRe
                ("/" :: "/" :: list_ascii_of_string text)%char
                lineComment_not_at_blank (list_ascii_of_string indent) None 0%nat
                Hindent) as [pv' ->].
    cbn [searchFrom].
    destruct (lineComment_to_end (list_ascii_of_string text) pv'
                (0 + List.length (list_ascii_of_string indent)) Htext)
      as (c & -> & ->).
    cbn [Nat.add]. rewrite app_nil_r, firstn_app, Nat.sub_diag, firstn_all.
    cbn [firstn]. rewrite app_nil_r. apply string_of_list_ascii_of_string. }
  assert (removeAll blockCommentRe indent = indent) as ->.
  { unfold removeAll.
    rewrite (matchAll_blank _ _ blockComment_not_at_blank Hindent).
    cbn [between_matches skipn]. apply string_of_list_ascii_of_string. }
  now rewrite (matchAll_blank _ _ identifier_not_at_blank Hindent).
Qed.

Lemma comment_line_has_no_identifiers_witness :
  extractIdentifiers ("    " +:+ "//" +:+ " was: helper(n).run()") = [].
Proof.
  apply comment_line_has_no_identifiers; reflexivity.
Defined.

End CommentLines.

(** ** How a traversal ends, and where its records come from *)
Section Completion.
Import DefinitionTracker Traversal Provenance.
Variable w : Workspace.

Lemma quiet_forEach {A} (xs : list A) (body : A -> M unit) :
  Forall (fun x => quiet (body x)) xs -> quiet (forEach xs body).
Proof.
  induction 1 as [|x xs Hx _ IH]; intros s c s'; cbn [forEach].
  - now intros [= <- <-].
  - unfold bind. destruct (body x s) as [[[[]|] s1]|] eqn:E; [|intros H|discriminate].
    + apply IH.
    + apply Hx in E. discriminate.
Qed.

Lemma quiet_visitLocation self fileUri name depth maxChars loc :
  quiet (visitLocation w self fileUri name depth maxChars loc).
Proof.
  intros s c s' H.
  destruct (String.eqb_spec (loc_uri loc) fileUri) as [Heq|Hne].
  { rewrite visitLocation_inert in H by auto. now injection H as <- <-. }
  destruct (decide (defKeyOf loc ∈ visited s)) as [Hseen|Hnew].
  { rewrite visitLocation_inert in H by auto. now injection H as <- <-. }
  destruct (openTextDocument w (loc_uri loc)) as [defDoc|] eqn:Hopen.
  2:{ rewrite visitLocation_skip in H by (auto; congruence).
      now injection H as <- <-. }
  destruct (extractDefinitionBlock defDoc (loc_line loc) maxChars) as [blk|] eqn:Hblk.
  2:{ rewrite visitLocation_skip in H by (auto; congruence).
      now injection H as <- <-. }
  rewrite (visitLocation_record _ _ _ _ _ _ _ _ _ _ Hne Hnew Hopen Hblk) in H.
  unfold tryCatch in H.
  match type of H with
  | match ?m with _ => _ end = _ => destruct m as [[[[]|] s1]|]
  end; try discriminate; now injection H as <- <-.
Qed.

Lemma quiet_visitIdentifier self fileUri depth maxChars lineNo identifier :
  quiet (visitIdentifier w self fileUri depth maxChars lineNo identifier).
Proof.
  intros s c s' H. destruct identifier as [name col].
  destruct (decide (probeKey fileUri lineNo col ∈ visited s)) as [Hseen|Hnew].
  - rewrite visitIdentifier_seen in H by assumption. now injection H as <- <-.
  - rewrite visitIdentifier_probe in H by assumption.
    eapply quiet_forEach; [|exact H].
    apply List.Forall_forall. intros loc _. apply quiet_visitLocation.
Qed.

Lemma quiet_visitLine self fileUri document depth maxChars lineNo :
  1 <= lineNo -> 1 <= lineCount document ->
  quiet (visitLine w self fileUri document depth maxChars lineNo).
Proof.
  intros Hline Hdoc s c s' H. unfold visitLine, bind at 1, orThrow in H.
  destruct (lineAt_some document (Z.min (lineNo - 1) (lineCount document - 1)))
    as [t Ht]; [lia|].
  rewrite Ht in H.
  eapply quiet_forEach; [|exact H].
  apply List.Forall_forall. intros identifier _. apply quiet_visitIdentifier.
Qed.

Lemma throws_visitLine self fileUri document depth maxChars lineNo :
  lineNo <= 0 ->
  throws (visitLine w self fileUri document depth maxChars lineNo).
Proof.
  intros Hline s c s' H. unfold visitLine, bind at 1, orThrow in H.
  assert (lineAt document (Z.min (lineNo - 1) (lineCount document - 1)) = None)
    as Hnone.
  { unfold lineAt. destruct (Z.ltb_spec (Z.min (lineNo - 1) (lineCount document - 1)) 0);
      [reflexivity|lia]. }
  rewrite Hnone in H. now injection H as <- <-.
Qed.

Lemma throws_forEach {A} (xs : list A) (body : A -> M unit) (bad : A) :
  In bad xs -> throws (body bad) -> throws (forEach xs body).
Proof.
  intros Hin Hbad. induction xs as [|x xs IH]; [destruct Hin|].
  intros s c s'. cbn [forEach]. unfold bind.
  destruct (body x s) as [[[[]|] s1]|] eqn:E; [|now intros [= <- <-]|discriminate].
  destruct Hin as [->|Hin].
  - apply Hbad in E. discriminate.
  - now apply IH.
Qed.


(** A scan of seed lines from 1 on, in a file that has a line, does not
    throw. *)
Lemma seeded_scan_quiet (fileUri : string) (changedLines : list Z)
    (maxDepth maxChars : Z) (c : Completion unit) (s : State) :
  (forall doc, openTextDocument w fileUri = Some doc -> 1 <= lineCount doc) ->
  Forall (fun lineNo => 1 <= lineNo) changedLines ->
  runTraversal w fileUri changedLines maxDepth maxChars = Some (c, s) ->
  c = Normal tt.
Proof.
  intros Hdoc Hseeds Hrun. unfold runTraversal in Hrun.
  destruct (Z.le_gt_cases maxDepth 0) as [Hgate|Hd].
  { rewrite gatherRecursive_gate in Hrun by assumption. now injection Hrun as <- <-. }
  destruct (Z.to_nat maxDepth) as [|fuel] eqn:Hfuel; [lia|].
  destruct (openTextDocument w fileUri) as [document|] eqn:Hopen.
  2:{ rewrite gatherRecursive_unreadable in Hrun by (assumption || lia).
      now injection Hrun as <- <-. }
  rewrite (gatherRecursive_scan _ _ _ _ _ _ _ _ document) in Hrun
    by (assumption || lia || (cbn; set_solver)).
  eapply quiet_forEach; [|exact Hrun].
  eapply List.Forall_impl; [|exact Hseeds].
  intros lineNo Hline. apply quiet_visitLine; auto.
Qed.

(** X10.  When the seed lines are all at least 1 and the changed file, if
    it opens, has a line, the promise of
    [gatherDefinitionsForChangedLines] resolves: whatever fails below
    (a file that does not open, a provider that throws, a location
    outside its document) is caught on the way. *)
Theorem positive_seeds_resolve (fileUri : string) (changedLines : list Z)
    (maxDepth maxChars : Z) :
  (forall doc, openTextDocument w fileUri = Some doc -> 1 <= lineCount doc) ->
  Forall (fun lineNo => 1 <= lineNo) changedLines ->
  exists defs,
    gatherDefinitionsForChangedLines w fileUri changedLines maxDepth maxChars
    = Some (Normal defs).
Proof.
  intros Hdoc Hseeds. unfold gatherDefinitionsForChangedLines.
  destruct (runTraversal_ends w fileUri changedLines maxDepth maxChars)
    as (c & s & Hrun & _).
  rewrite Hrun.
  rewrite (seeded_scan_quiet _ _ _ _ _ _ Hdoc Hseeds Hrun).
  eexists. reflexivity.
Qed.

(** X11.  A seed line that is zero or negative makes the promise of
    [gatherDefinitionsForChangedLines] reject, whatever the other seeds
    have found, as soon as the depth allows a scan and the file opens:
    the line is clamped from above only, and [lineAt] is outside every
    [try]. *)
Theorem nonpositive_seed_rejects (fileUri : string) (doc : TextDocument)
    (changedLines : list Z) (maxDepth maxChars bad : Z) :
  0 < maxDepth ->
  openTextDocument w fileUri = Some doc ->
  In bad changedLines -> bad <= 0 ->
  gatherDefinitionsForChangedLines w fileUri changedLines maxDepth maxChars
  = Some Throw.
Proof.
  intros Hd Hopen Hin Hbad.
  unfold gatherDefinitionsForChangedLines, runTraversal.
  destruct (gatherRecursive_total w (Z.to_nat maxDepth) fileUri changedLines
              maxDepth 0 maxChars ltac:(lia) initialState) as (c & s & Hrun).
  rewrite Hrun.
  enough (c = Throw) as -> by reflexivity.
  destruct (Z.to_nat maxDepth) as [|fuel] eqn:Hfuel; [lia|].
  rewrite (gatherRecursive_scan _ _ _ _ _ _ _ _ doc) in Hrun
    by (assumption || lia || (cbn; set_solver)).
  eapply throws_forEach; [exact Hin| |exact Hrun].
  now apply throws_visitLine.
Qed.

(** X12.  When the changed file itself cannot be opened, the result is
    the empty sequence, at every depth: the failure is caught and
    nothing is thrown. *)
Theorem unreadable_origin_gives_nothing (fileUri : string)
    (changedLines : list Z) (maxDepth maxChars : Z) :
  openTextDocument w fileUri = None ->
  gatherDefinitionsForChangedLines w fileUri changedLines maxDepth maxChars
  = Some (Normal []).
Proof.
  intros Hopen. unfold gatherDefinitionsForChangedLines, runTraversal.
  destruct (Z.le_gt_cases maxDepth 0) as [Hgate|Hd].
  { now rewrite gatherRecursive_gate by assumption. }
  destruct (Z.to_nat maxDepth) as [|fuel] eqn:Hfuel; [lia|].
  now rewrite gatherRecursive_unreadable by (assumption || lia).
Qed.

End Completion.

Section CompletionWitnesses.
Import DefinitionTracker Traversal Provenance Fixtures.

Lemma positive_seeds_resolve_witness :
  exists defs,
    gatherDefinitionsForChangedLines cycleWorkspace uriX [3; 400] 5 20000
    = Some (Normal defs).
Proof.
  apply positive_seeds_resolve.
  - intros doc. cbn. intros [= <-]. vm_compute. discriminate.
  - repeat constructor; lia.
Defined.

Lemma nonpositive_seed_rejects_witness :
  gatherDefinitionsForChangedLines cycleWorkspace uriX [3; 0] 5 20000
  = Some Throw.
Proof.
  apply (nonpositive_seed_rejects cycleWorkspace uriX cycleDocX [3; 0] 5 20000 0).
  - lia.
  - reflexivity.
  - right. left. reflexivity.
  - lia.
Defined.

Lemma unreadable_origin_gives_nothing_witness :
  gatherDefinitionsForChangedLines cycleWorkspace "file:///ws/gone.ts" [1] 5 20000
  = Some (Normal []).
Proof.
  apply unreadable_origin_gives_nothing. reflexivity.
Defined.

End CompletionWitnesses.

(** ** What every record of a traversal satisfies *)
Section Keeping.
Import DefinitionTracker Traversal Provenance.
Variable w : Workspace.
Variables maxChars maxDepth : Z.

(** [scanned fileUri depth]: the traversal may scan [fileUri] at [depth]. *)
Variable scanned : string -> Z -> Prop.
Variable Q : string * DefinitionContext -> Prop.

Hypothesis record_ok :
  forall fileUri depth name loc defDoc blk,
    scanned fileUri depth -> depth < maxDepth ->
    loc_uri loc <> fileUri ->
    openTextDocument w (loc_uri loc) = Some defDoc ->
    extractDefinitionBlock defDoc (loc_line loc) maxChars = Some blk ->
    Q (defKeyOf loc, contextOf w fileUri name loc blk).

Hypothesis descend_ok :
  forall fileUri depth loc,
    scanned fileUri depth -> depth + 1 < maxDepth ->
    loc_uri loc <> fileUri ->
    scanned (loc_uri loc) (depth + 1).

Lemma keeps_forEach {A} (xs : list A) (body : A -> M unit) :
  (forall x, keeps Q (body x)) -> keeps Q (forEach xs body).
Proof.
  intros Hbody. induction xs as [|x xs IH]; intros s c s'; cbn [forEach].
  - now intros [= <- <-].
  - unfold bind. destruct (body x s) as [[[[]|] s1]|] eqn:E; [| |discriminate].
    + intros H HQ. eapply IH; [exact H|]. eapply Hbody; eassumption.
    + intros [= <- <-] HQ. eapply Hbody; eassumption.
Qed.

Lemma keeps_visitLocation self fileUri name depth loc :
  scanned fileUri depth -> depth < maxDepth ->
  (forall uri ls, uri <> fileUri -> keeps Q (self uri ls (depth + 1))) ->
  keeps Q (visitLocation w self fileUri name depth maxChars loc).
Proof.
  intros Hscan Hd Hself s c s' H HQ.
  destruct (String.eqb_spec (loc_uri loc) fileUri) as [Heq|Hne].
  { rewrite visitLocation_inert in H by auto. now injection H as <- <-. }
  destruct (decide (defKeyOf loc ∈ visited s)) as [Hseen|Hnew].
  { rewrite visitLocation_inert in H by auto. now injection H as <- <-. }
  assert (forall key, Forall Q (records (trace (afterSkip s key (loc_uri loc)))))
    as Hskip.
  { intros key. cbn [afterSkip trace]. rewrite records_app. cbn [records].
    now rewrite app_nil_r. }
  destruct (openTextDocument w (loc_uri loc)) as [defDoc|] eqn:Hopen.
  2:{ rewrite visitLocation_skip in H by (auto; congruence).
      injection H as <- <-. apply Hskip. }
  destruct (extractDefinitionBlock defDoc (loc_line loc) maxChars) as [blk|] eqn:Hblk.
  2:{ rewrite visitLocation_skip in H by (auto; congruence).
      injection H as <- <-. apply Hskip. }
  rewrite (visitLocation_record _ _ _ _ _ _ _ _ _ _ Hne Hnew Hopen Hblk) in H.
  assert (Forall Q (records (trace (afterRecord s loc
                                      (contextOf w fileUri name loc blk))))) as Hrec.
  { cbn [afterRecord trace]. rewrite records_app. cbn [records].
    apply List.Forall_app. split; [assumption|].
    constructor; [|constructor]. eapply record_ok; eassumption. }
  unfold tryCatch in H.
  match type of H with
  | match ?m with _ => _ end = _ => destruct m as [[[[]|] s1]|] eqn:Hrun
  end; try discriminate; injection H as <- <-;
    eapply (Hself (loc_uri loc)); eassumption.
Qed.

Lemma keeps_visitIdentifier self fileUri depth lineNo identifier :
  scanned fileUri depth -> depth < maxDepth ->
  (forall uri ls, uri <> fileUri -> keeps Q (self uri ls (depth + 1))) ->
  keeps Q (visitIdentifier w self fileUri depth maxChars lineNo identifier).
Proof.
  intros Hscan Hd Hself s c s' H HQ. destruct identifier as [name col].
  destruct (decide (probeKey fileUri lineNo col ∈ visited s)) as [Hseen|Hnew].
  - rewrite visitIdentifier_seen in H by assumption. now injection H as <- <-.
  - rewrite visitIdentifier_probe in H by assumption.
    eapply keeps_forEach; [|exact H|].
    + intros loc. now apply keeps_visitLocation.
    + cbn [afterProbe trace]. rewrite records_app. cbn [records].
      now rewrite app_nil_r.
Qed.

Lemma keeps_visitLine self fileUri document depth lineNo :
  scanned fileUri depth -> depth < maxDepth ->
  (forall uri ls, uri <> fileUri -> keeps Q (self uri ls (depth + 1))) ->
  keeps Q (visitLine w self fileUri document depth maxChars lineNo).
Proof.
  intros Hscan Hd Hself s c s' H HQ. unfold visitLine, bind at 1, orThrow in H.
  destruct (lineAt document _) as [lineText|].
  - eapply keeps_forEach; [|exact H|exact HQ].
    intros identifier. now apply keeps_visitIdentifier.
  - now injection H as <- <-.
Qed.

Lemma keeps_gatherRecursive fuel fileUri targetLines depth :
  scanned fileUri depth ->
  keeps Q (gatherRecursive w fuel fileUri targetLines maxDepth depth maxChars).
Proof.
  revert fileUri targetLines depth.
  induction fuel as [|fuel IH]; intros fileUri targetLines depth Hscan s c s' H HQ.
  - cbn [gatherRecursive] in H. destruct (depth >=? maxDepth); [|discriminate].
    now injection H as <- <-.
  - destruct (Z.le_gt_cases maxDepth depth) as [Hgate|Hd].
    { rewrite gatherRecursive_gate in H by assumption. now injection H as <- <-. }
    assert (Forall Q (records (trace (log (EvOpen fileUri) s)))) as Hopened.
    { cbn [log trace]. rewrite records_app. cbn [records]. now rewrite app_nil_r. }
    destruct (openTextDocument w fileUri) as [document|] eqn:Hopen.
    2:{ rewrite gatherRecursive_unreadable in H by (assumption || lia).
        now injection H as <- <-. }
    destruct (decide (fileUri ∈ visited s)) as [Hseen|Hnew].
    { rewrite (gatherRecursive_revisit _ _ _ _ _ _ _ _ document) in H
        by (assumption || lia).
      now injection H as <- <-. }
    rewrite (gatherRecursive_scan _ _ _ _ _ _ _ _ document) in H
      by (assumption || lia).
    eapply keeps_forEach; [|exact H|].
    + intros lineNo. apply keeps_visitLine; [assumption|lia|].
      intros uri ls Hne.
      destruct (Z.le_gt_cases maxDepth (depth + 1)) as [Hgate|Hdeeper].
      * intros s1 c1 s1' H1.
        rewrite gatherRecursive_gate in H1 by assumption.
        now injection H1 as <- <-.
      * apply IH. apply (descend_ok fileUri depth (mkLocation uri 0)); auto; lia.
    + cbn [afterScan trace log]. rewrite !records_app. cbn [records].
      rewrite !app_nil_r. exact HQ.
Qed.

End Keeping.

Section RecordFacts.
Import DefinitionTracker Traversal Provenance.
Variable w : Workspace.

(** X13.  Every record of a traversal links two different files: a
    definition that lies in the file whose line refers to it is never
    recorded. *)
Theorem records_link_two_files (fileUri : string) (changedLines : list Z)
    (maxDepth maxChars : Z) :
  exists c s,
    runTraversal w fileUri changedLines maxDepth maxChars = Some (c, s) /\
    Forall (crossFile w) (results s).
Proof.
  destruct (runTraversal_invariant w maxChars fileUri changedLines maxDepth)
    as (c & s & Hrun & Hinv).
  exists c, s. split; [exact Hrun|].
  rewrite (inv_results _ _ _ Hinv).
  apply List.Forall_map.
  refine (keeps_gatherRecursive w maxChars maxDepth (fun _ _ => True)
            (fun r => crossFile w (snd r)) _ _ _ _ _ _ I _ _ _ Hrun _);
    [| |constructor].
  - intros F depth name loc defDoc blk _ _ Hne _ _.
    exists F, (loc_uri loc). cbn. auto.
  - auto.
Qed.

(** X14.  With [maxDepth = 1] every record comes from a line of the
    changed file itself: no definition is followed into a third file. *)
Theorem depth_one_records_direct_references (fileUri : string)
    (changedLines : list Z) (maxChars : Z) :
  exists c s,
    runTraversal w fileUri changedLines 1 maxChars = Some (c, s) /\
    Forall (fun ctx => originFile ctx = asRelativePath w fileUri) (results s).
Proof.
  destruct (runTraversal_invariant w maxChars fileUri changedLines 1)
    as (c & s & Hrun & Hinv).
  exists c, s. split; [exact Hrun|].
  rewrite (inv_results _ _ _ Hinv).
  apply List.Forall_map.
  refine (keeps_gatherRecursive w maxChars 1
            (fun F depth => F = fileUri /\ depth = 0)
            (fun r => originFile (snd r) = asRelativePath w fileUri)
            _ _ _ _ _ _ (conj eq_refl eq_refl) _ _ _ Hrun _);
    [| |constructor].
  - intros F depth name loc defDoc blk [-> _] _ _ _ _. reflexivity.
  - intros F depth loc [_ ->] Hd. lia.
Qed.

(** X15.  A call of [gatherRecursive], at any depth and from any state,
    only adds: what was recorded before it is still there, in the same
    order and at the head of [results], and no visited key is given up. *)
Theorem gatherRecursive_only_adds (deeper : nat) (fileUri : string)
    (targetLines : list Z) (maxDepth depth maxChars : Z) (s : State) :
  exists c s',
    gatherRecursive w (Z.to_nat (maxDepth - depth) + deeper) fileUri targetLines
                    maxDepth depth maxChars s
    = Some (c, s') /\
    (exists added, results s' = results s ++ added) /\
    visited s ⊆ visited s'.
Proof.
  destruct (gatherRecursive_total w (Z.to_nat (maxDepth - depth) + deeper) fileUri
              targetLines maxDepth depth maxChars ltac:(lia) s) as (c & s' & Hrun).
  exists c, s'. split; [exact Hrun|].
  apply sound_gatherRecursive in Hrun.
  split; [now apply reach_grows in Hrun|].
  eapply reach_visited, Hrun.
Qed.

End RecordFacts.

(** ** What a traversal keeps true of its state *)
Section Preserving.
Import DefinitionTracker Traversal Provenance.
Variable w : Workspace.
Variable maxChars : Z.
Variable I : State -> Prop.

Hypothesis I_open : forall uri s, I s -> I (log (EvOpen uri) s).
Hypothesis I_scan :
  forall uri s, I s -> uri ∉ visited s -> I (afterScan s uri).
Hypothesis I_probe :
  forall fileUri lineNo col s,
    I s -> 1 <= lineNo -> probeKey fileUri lineNo col ∉ visited s ->
    I (afterProbe s (probeKey fileUri lineNo col) fileUri (Z.max (lineNo - 1) 0) col).
Hypothesis I_skip :
  forall loc s, I s -> defKeyOf loc ∉ visited s ->
                I (afterSkip s (defKeyOf loc) (loc_uri loc)).
Hypothesis I_record :
  forall fileUri name loc blk s,
    I s -> defKeyOf loc ∉ visited s ->
    I (afterRecord s loc (contextOf w fileUri name loc blk)).

Lemma preserves_forEach {A} (xs : list A) (body : A -> M unit) :
  (forall x, preserves I (body x)) -> preserves I (forEach xs body).
Proof.
  intros Hbody. induction xs as [|x xs IH]; intros s c s'; cbn [forEach].
  - now intros [= <- <-].
  - unfold bind. destruct (body x s) as [[[[]|] s1]|] eqn:E; [| |discriminate].
    + intros H HI. eapply IH; [exact H|]. eapply Hbody; eassumption.
    + intros [= <- <-] HI. eapply Hbody; eassumption.
Qed.

Lemma preserves_visitLocation self fileUri name depth loc :
  (forall uri ls d, preserves I (self uri ls d)) ->
  preserves I (visitLocation w self fileUri name depth maxChars loc).
Proof.
  intros Hself s c s' H HI.
  destruct (String.eqb_spec (loc_uri loc) fileUri) as [Heq|Hne].
  { rewrite visitLocation_inert in H by auto. now injection H as <- <-. }
  destruct (decide (defKeyOf loc ∈ visited s)) as [Hseen|Hnew].
  { rewrite visitLocation_inert in H by auto. now injection H as <- <-. }
  destruct (openTextDocument w (loc_uri loc)) as [defDoc|] eqn:Hopen.
  2:{ rewrite visitLocation_skip in H by (auto; congruence).
      injection H as <- <-. now apply I_skip. }
  destruct (extractDefinitionBlock defDoc (loc_line loc) maxChars) as [blk|] eqn:Hblk.
  2:{ rewrite visitLocation_skip in H by (auto; congruence).
      injection H as <- <-. now apply I_skip. }
  rewrite (visitLocation_record _ _ _ _ _ _ _ _ _ _ Hne Hnew Hopen Hblk) in H.
  unfold tryCatch in H.
  match type of H with
  | match ?m with _ => _ end = _ => destruct m as [[[[]|] s1]|] eqn:Hrun
  end; try discriminate; injection H as <- <-;
    (eapply Hself; [exact Hrun|now apply I_record]).
Qed.

Lemma preserves_visitIdentifier self fileUri depth lineNo identifier :
  1 <= lineNo ->
  (forall uri ls d, preserves I (self uri ls d)) ->
  preserves I (visitIdentifier w self fileUri depth maxChars lineNo identifier).
Proof.
  intros Hline Hself s c s' H HI. destruct identifier as [name col].
  destruct (decide (probeKey fileUri lineNo col ∈ visited s)) as [Hseen|Hnew].
  - rewrite visitIdentifier_seen in H by assumption. now injection H as <- <-.
  - rewrite visitIdentifier_probe in H by assumption.
    eapply preserves_forEach; [|exact H|now apply I_probe].
    intros loc. now apply preserves_visitLocation.
Qed.

Lemma preserves_visitLine self fileUri document depth lineNo :
  (forall uri ls d, preserves I (self uri ls d)) ->
  preserves I (visitLine w self fileUri document depth maxChars lineNo).
Proof.
  intros Hself s c s' H HI. unfold visitLine, bind at 1, orThrow in H.
  destruct (lineAt document _) as [lineText|] eqn:Hline.
  - apply lineAt_range in Hline.
    eapply preserves_forEach; [|exact H|exact HI].
    intros identifier. apply preserves_visitIdentifier; [lia|assumption].
  - now injection H as <- <-.
Qed.

Lemma preserves_gatherRecursive fuel fileUri targetLines maxDepth depth :
  preserves I (gatherRecursive w fuel fileUri targetLines maxDepth depth maxChars).
Proof.
  revert fileUri targetLines depth.
  induction fuel as [|fuel IH]; intros fileUri targetLines depth s c s' H HI.
  - cbn [gatherRecursive] in H. destruct (depth >=? maxDepth); [|discriminate].
    now injection H as <- <-.
  - destruct (Z.le_gt_cases maxDepth depth) as [Hgate|Hd].
    { rewrite gatherRecursive_gate in H by assumption. now injection H as <- <-. }
    destruct (openTextDocument w fileUri) as [document|] eqn:Hopen.
    2:{ rewrite gatherRecursive_unreadable in H by (assumption || lia).
        injection H as <- <-. now apply I_open. }
    destruct (decide (fileUri ∈ visited s)) as [Hseen|Hnew].
    { rewrite (gatherRecursive_revisit _ _ _ _ _ _ _ _ document) in H
        by (assumption || lia).
      injection H as <- <-. now apply I_open. }
    rewrite (gatherRecursive_scan _ _ _ _ _ _ _ _ document) in H
      by (assumption || lia).
    eapply preserves_forEach; [|exact H|].
    + intros lineNo. apply preserves_visitLine. intros uri ls d. apply IH.
    + apply I_scan; [now apply I_open|exact Hnew].
Qed.

End Preserving.

Section Probes.
Import DefinitionTracker Traversal Provenance.
Variable w : Workspace.

Lemma resolved_app (t t' : list Event) :
  resolved (t ++ t') = resolved t ++ resolved t'.
Proof.
  induction t as [|[] t IH]; cbn [app resolved]; rewrite ?IH; reflexivity.
Qed.

Lemma probedOnce_quiet (s s' : State) :
  probedOnce s -> visited s ⊆ visited s' ->
  resolved (trace s') = resolved (trace s) ->
  probedOnce s'.
Proof.
  intros [Hnd Hkeys] Hsub Hsame. split; rewrite Hsame; [assumption|].
  intros uri line col Hin. apply Hsub. now apply Hkeys.
Qed.

(** X16.  Within one traversal the definition provider is asked at most
    once about each position: no file, line and column is resolved
    twice, however often the seed lines repeat and the files refer to
    each other. *)
Theorem each_position_resolved_once (fileUri : string) (changedLines : list Z)
    (maxDepth maxChars : Z) :
  exists c s,
    runTraversal w fileUri changedLines maxDepth maxChars = Some (c, s) /\
    List.NoDup (resolved (trace s)).
Proof.
  destruct (runTraversal_ends w fileUri changedLines maxDepth maxChars)
    as (c & s & Hrun & _).
  exists c, s. split; [exact Hrun|].
  enough (probedOnce s) as [Hnd _] by exact Hnd.
  refine (preserves_gatherRecursive w maxChars probedOnce _ _ _ _ _
            _ _ _ _ _ _ _ _ Hrun _).
  - intros uri s0 H. apply (probedOnce_quiet s0); [assumption|reflexivity|].
    cbn [log trace]. rewrite resolved_app. cbn. now rewrite app_nil_r.
  - intros uri s0 H _. apply (probedOnce_quiet s0); [assumption|cbn; set_solver|].
    cbn [afterScan trace]. rewrite resolved_app. cbn. now rewrite app_nil_r.
  - intros F lineNo col s0 [Hnd Hkeys] Hline Hnew.
    split; cbn [afterProbe trace visited]; rewrite resolved_app; cbn [resolved].
    + apply List.NoDup_app; [assumption|repeat constructor; intros []|].
      intros [[u l] k] Hin [[= <- <- <-]|[]].
      apply Hkeys in Hin. apply Hnew.
      now replace (Z.max (lineNo - 1) 0 + 1) with lineNo in Hin by lia.
    + intros uri line col' Hin. apply in_app_iff in Hin as [Hin|[[= <- <- <-]|[]]].
      * apply Hkeys in Hin. set_solver.
      * replace (Z.max (lineNo - 1) 0 + 1) with lineNo by lia. set_solver.
  - intros loc s0 H _. apply (probedOnce_quiet s0); [assumption|cbn; set_solver|].
    cbn [afterSkip trace]. rewrite resolved_app. cbn. now rewrite app_nil_r.
  - intros F name loc blk s0 H _.
    apply (probedOnce_quiet s0); [assumption|cbn; set_solver|].
    cbn [afterRecord trace]. rewrite resolved_app. cbn. now rewrite app_nil_r.
  - split; [constructor|intros uri line col []].
Qed.

End Probes.

(** ** Grouping definitions by file *)
Section Grouping.
Import DefinitionTracker JsLib Sections.

Lemma existsb_eqb (x : string) (xs : list string) :
  existsb (String.eqb x) xs = true <-> In x xs.
Proof.
  rewrite existsb_exists. split.
  - intros (y & Hin & Heq). apply String.eqb_eq in Heq. now subst.
  - intros Hin. exists x. split; [assumption|apply String.eqb_refl].
Qed.

Lemma setOf_snoc (xs : list string) (x : string) :
  setOf (xs ++ [x]) = setAdd x (setOf xs).
Proof. unfold setOf. now rewrite fold_left_app. Qed.

Lemma In_setAdd (x y : string) (set : list string) :
  In y (setAdd x set) <-> y = x \/ In y set.
Proof.
  unfold setAdd. destruct (existsb (String.eqb x) set) eqn:E.
  - apply existsb_eqb in E. split; [auto|]. intros [->|]; assumption.
  - rewrite in_app_iff. cbn. split; intros H; [destruct H as [|[|[]]]|]; auto.
    destruct H as [->|]; auto.
Qed.

Lemma In_setOf (y : string) (xs : list string) : In y (setOf xs) <-> In y xs.
Proof.
  induction xs as [|x xs IH] using rev_ind; [reflexivity|].
  rewrite setOf_snoc, In_setAdd, in_app_iff, IH. cbn. intuition.
Qed.

Lemma NoDup_setAdd (x : string) (set : list string) :
  List.NoDup set -> List.NoDup (setAdd x set).
Proof.
  intros Hset. unfold setAdd. destruct (existsb (String.eqb x) set) eqn:E;
    [assumption|].
  apply List.NoDup_app; [assumption|repeat constructor; intros []|].
  intros y Hy [<-|[]]. apply existsb_eqb in Hy. congruence.
Qed.

Lemma NoDup_setOf (xs : list string) : List.NoDup (setOf xs).
Proof.
  induction xs as [|x xs IH] using rev_ind; [constructor|].
  rewrite setOf_snoc. now apply NoDup_setAdd.
Qed.

Section Tables.
Context {V : Type}.
Variable g : string -> V.

Lemma mapGet_table (key : string) (keys : list string) :
  mapGet key (map (fun f => (f, g f)) keys)
  = if existsb (String.eqb key) keys then Some (g key) else None.
Proof.
  induction keys as [|k keys IH]; [reflexivity|].
  cbn [map mapGet existsb]. rewrite (String.eqb_sym key k).
  destruct (String.eqb_spec k key) as [->|]; [reflexivity|exact IH].
Qed.

Lemma mapSet_new (key : string) (v : V) (keys : list string) :
  ~ In key keys ->
  mapSet key v (map (fun f => (f, g f)) keys)
  = map (fun f => (f, g f)) keys ++ [(key, v)].
Proof.
  induction keys as [|k keys IH]; intros Hnew; [reflexivity|].
  cbn [map mapSet app].
  destruct (String.eqb_spec k key) as [->|]; [destruct Hnew; now left|].
  rewrite IH; [reflexivity|]. intros H. apply Hnew. now right.
Qed.

Lemma mapSet_old (key : string) (v : V) (keys : list string) :
  List.NoDup keys -> In key keys ->
  mapSet key v (map (fun f => (f, g f)) keys)
  = map (fun f => (f, if String.eqb f key then v else g f)) keys.
Proof.
  induction keys as [|k keys IH]; intros Hnd Hin; [destruct Hin|].
  apply List.NoDup_cons_iff in Hnd as [Hk Hnd].
  cbn [map mapSet].
  destruct (String.eqb_spec k key) as [->|Hne].
  - f_equal. apply map_ext_in. intros f Hf.
    destruct (String.eqb_spec f key) as [->|]; [contradiction|reflexivity].
  - f_equal. apply IH; [assumption|]. destruct Hin; [contradiction|assumption].
Qed.
End Tables.

Lemma filter_none (file : string) (defs : list DefinitionContext) :
  ~ In file (map definitionFile defs) -> List.filter (inFile file) defs = [].
Proof.
  induction defs as [|d defs IH]; intros Hnot; [reflexivity|].
  cbn [List.filter]. unfold inFile at 1.
  destruct (String.eqb_spec (definitionFile d) file) as [<-|].
  - destruct Hnot. now left.
  - apply IH. intros H. apply Hnot. now right.
Qed.

Lemma filter_snoc (file : string) (defs : list DefinitionContext)
    (d : DefinitionContext) :
  List.filter (inFile file) (defs ++ [d])
  = List.filter (inFile file) defs
    ++ (if String.eqb (definitionFile d) file then [d] else []).
Proof. rewrite List.filter_app. reflexivity. Qed.

Lemma groupByFile_closed (definitions : list DefinitionContext) :
  groupByFile definitions
  = map (fun file => (file, List.filter (inFile file) definitions))
        (filesOf definitions).
Proof.
  unfold groupByFile, filesOf.
  induction definitions as [|d defs IH] using rev_ind; [reflexivity|].
  rewrite fold_left_app, map_app. cbn [fold_left map].
  rewrite setOf_snoc, IH. unfold groupDefinition.
  rewrite (mapGet_table (fun file => List.filter (inFile file) defs)).
  unfold setAdd.
  set (file := definitionFile d). set (keys := setOf (map definitionFile defs)).
  destruct (existsb (String.eqb file) keys) eqn:E.
  - apply existsb_eqb in E.
    rewrite (mapSet_old (fun f => List.filter (inFile f) defs))
      by (assumption || apply NoDup_setOf).
    apply map_ext. intros f. f_equal. rewrite filter_snoc. fold file.
    rewrite (String.eqb_sym f file).
    destruct (String.eqb_spec file f) as [->|]; [reflexivity|].
    cbn iota. now rewrite app_nil_r.
  - assert (~ In file keys) as Hnew
      by (intros H; apply existsb_eqb in H; congruence).
    rewrite (mapSet_new (fun f => List.filter (inFile f) defs)) by assumption.
    rewrite map_app. cbn [map]. f_equal.
    + apply map_ext_in. intros f Hf. rewrite filter_snoc. fold file.
      destruct (String.eqb_spec file f) as [<-|]; [contradiction|].
      cbn iota. now rewrite app_nil_r.
    + rewrite filter_snoc. fold file. rewrite String.eqb_refl.
      rewrite filter_none; [reflexivity|].
      intros H. apply Hnew. now apply In_setOf.
Qed.

Lemma mapM_table {A B} (f : A -> option B) (h : A -> B) (l : list A) :
  (forall x, In x l -> f x = Some (h x)) -> mapM f l = Some (map h l).
Proof.
  induction l as [|x l IH]; intros Hf; [reflexivity|].
  cbn [mapM map]. rewrite (Hf x) by now left.
  cbn. rewrite IH by (intros y Hy; apply Hf; now right). reflexivity.
Qed.

Lemma filter_head (file : string) (defs : list DefinitionContext) :
  In file (map definitionFile defs) ->
  exists d rest,
    List.filter (inFile file) defs = d :: rest /\
    find (inFile file) defs = Some d.
Proof.
  induction defs as [|d defs IH]; intros Hin; [destruct Hin|].
  cbn [List.filter find].
  destruct (inFile file d) eqn:E; [now eexists _, _|].
  apply IH. destruct Hin as [Heq|]; [|assumption].
  unfold inFile in E. rewrite Heq, String.eqb_refl in E. discriminate.
Qed.

(** X17.  The [Map] that [formatDefinitionsAsMarkdown] and
    [buildDefinitionSection] build is a partition of the definitions by
    [definitionFile]: it holds one entry per file, none twice, in the
    order in which the files first occur among the definitions; the
    entry of a file holds exactly the definitions of that file, in their
    order, and is never empty. *)
Theorem groupByFile_partitions (definitions : list DefinitionContext) :
  groupByFile definitions
  = map (fun file => (file, List.filter (inFile file) definitions))
        (filesOf definitions) /\
  List.NoDup (map fst (groupByFile definitions)) /\
  Forall (fun entry => snd entry <> []) (groupByFile definitions).
Proof.
  rewrite groupByFile_closed. split; [reflexivity|]. split.
  - rewrite map_map. cbn [fst]. rewrite map_id. apply NoDup_setOf.
  - apply List.Forall_forall. intros [file defs] Hin.
    apply in_map_iff in Hin as (f & [= <- <-] & Hf).
    unfold filesOf in Hf. apply (proj1 (In_setOf _ _)) in Hf.
    destruct (filter_head f definitions Hf) as (d & rest & -> & _).
    discriminate.
Qed.

(** X18.  [formatDefinitionsAsMarkdown] and [buildDefinitionSection] never
    throw, and for definitions that are not none they write one section
    per file, in the order in which the files first occur; a section
    names the symbols of all definitions of its file, each once, and
    shows the trimmed content of the first of them only: the contents and
    the line numbers of the others do not reach the text. *)
Theorem sections_show_first_definition_per_file
    (definitions : list DefinitionContext) :
  definitions <> [] ->
  formatDefinitionsAsMarkdown definitions
  = Some (String.concat (newline +:+ newline)
            (map (fun file =>
                    markdownSection file
                      (shownSymbols (fun name => name) file definitions)
                      (shownContent file definitions))
                 (filesOf definitions))) /\
  buildDefinitionSection definitions
  = Some (String.concat (newline +:+ newline)
            (map (fun file =>
                    definitionSection file
                      (shownSymbols quoted file definitions)
                      (shownContent file definitions))
                 (filesOf definitions))).
Proof.
  intros Hsome.
  unfold formatDefinitionsAsMarkdown, buildDefinitionSection.
  destruct definitions as [|d0 defs0] eqn:Hdefs; [contradiction|].
  rewrite <- Hdefs. clear Hsome Hdefs d0 defs0.
  rewrite groupByFile_closed.
  split.
  - rewrite (mapM_table markdownPart
               (fun e => markdownSection (fst e)
                           (shownSymbols (fun name => name) (fst e) definitions)
                           (shownContent (fst e) definitions))).
    + cbn [option_map]. now rewrite map_map.
    + intros [file defs] Hin. apply in_map_iff in Hin as (f & [= <- <-] & Hf).
      unfold filesOf in Hf. apply (proj1 (In_setOf _ _)) in Hf. destruct (filter_head f definitions Hf) as (d & rest & Hd & Hfind).
      cbn [markdownPart fst]. unfold shownContent, shownSymbols.
      rewrite Hfind, Hd. reflexivity.
  - rewrite (mapM_table definitionPart
               (fun e => definitionSection (fst e)
                           (shownSymbols quoted (fst e) definitions)
                           (shownContent (fst e) definitions))).
    + cbn [option_map]. now rewrite map_map.
    + intros [file defs] Hin. apply in_map_iff in Hin as (f & [= <- <-] & Hf).
      unfold filesOf in Hf. apply (proj1 (In_setOf _ _)) in Hf. destruct (filter_head f definitions Hf) as (d & rest & Hd & Hfind).
      cbn [definitionPart fst]. unfold shownContent, shownSymbols.
      now rewrite Hfind, Hd.
Qed.

End Grouping.

(** ** Anchored prefixes, [trim], and the names of a branch *)
Section Prefixes.
Import Regex DiffAnalyzer DefinitionTracker JsLib Extension.
Import Matching.

Lemma isChar_dec (a b : ascii) :
  isChar a b = if ascii_dec a b then true else false.
Proof.
  unfold isChar. destruct (ascii_dec a b) as [->|Hne].
  - apply Ascii.eqb_refl.
  - now apply Ascii.eqb_neq.
Qed.

(** A literal matches the characters it spells and nothing else. *)
Lemma run_lit_prefix {T} (p s : string) (pv : option ascii) (i : nat)
    (cp : option (nat * nat)) (k : Cur -> option T) :
  exists pv',
    run (lit p) (mkCur pv (list_ascii_of_string (p +:+ s)) i cp) k
    = k (mkCur pv' (list_ascii_of_string s) (i + String.length p) cp).
Proof.
  revert pv i. induction p as [|a p IH]; intros pv i.
  - exists pv. cbn [lit run String.length]. now rewrite Nat.add_0_r.
  - change (String a p +:+ s) with (String a (p +:+ s)).
    cbn [lit run list_ascii_of_string]. unfold one. cbn [rest pos cap].
    rewrite isChar_dec. destruct (ascii_dec a a) as [_|]; [|contradiction].
    destruct (IH (Some a) (S i)) as [pv' ->]. exists pv'.
    cbn [String.length]. now rewrite Nat.add_succ_r.
Qed.

Lemma run_lit_mismatch {T} (p s : string) (pv : option ascii) (i : nat)
    (cp : option (nat * nat)) (k : Cur -> option T) :
  String.prefix p s = false ->
  run (lit p) (mkCur pv (list_ascii_of_string s) i cp) k = None.
Proof.
  revert s pv i. induction p as [|a p IH]; intros s pv i Hp.
  - destruct s; discriminate.
  - cbn [lit run]. unfold one. cbn [rest pos cap].
    destruct s as [|b s]; [reflexivity|].
    cbn [list_ascii_of_string]. rewrite prefix_cons in Hp. rewrite isChar_dec.
    destruct (ascii_dec a b); [|reflexivity].
    now apply IH.
Qed.

Lemma searchFrom_anchor_later (r : re) (cs : list ascii) (pv : option ascii)
    (i : nat) :
  searchFrom (Seq Bol r) cs pv (S i) = None.
Proof.
  revert pv i. induction cs as [|a cs IH]; intros pv i; cbn [searchFrom run pos];
    [reflexivity|].
  cbn [Nat.eqb]. apply IH.
Qed.

(** [s.replace(/^p/, '')] takes the prefix [p] off. *)
Lemma removeFirst_prefix (p s : string) :
  removeFirst (seq [Bol; lit p]) (p +:+ s) = s.
Proof.
  unfold removeFirst.
  assert (exists c, searchFrom (seq [Bol; lit p]) (list_ascii_of_string (p +:+ s))
                               None 0 = Some (0%nat, c)
                    /\ rest c = list_ascii_of_string s) as (c & -> & ->).
  { destruct (run_lit_prefix (T := Cur) p s None 0 None
                (fun c' => run Eps c' Some)) as [pv' Hrun].
    eexists. split.
    - destruct (list_ascii_of_string (p +:+ s)) eqn:E;
        cbn [searchFrom seq run pos Nat.eqb] in *; rewrite Hrun; reflexivity.
    - reflexivity. }
  cbn [firstn app]. apply string_of_list_ascii_of_string.
Qed.

(** Without the prefix, [s.replace(/^p/, '')] is [s]. *)
Lemma removeFirst_other (p s : string) :
  startsWith s p = false -> removeFirst (seq [Bol; lit p]) s = s.
Proof.
  intros Hp. unfold removeFirst, startsWith in *.
  assert (searchFrom (seq [Bol; lit p]) (list_ascii_of_string s) None 0 = None)
    as ->; [|reflexivity].
  pose proof (run_lit_mismatch (T := Cur) p s None 0 None
                (fun c' => run Eps c' Some) Hp) as Hrun.
  destruct (list_ascii_of_string s) eqn:E;
    cbn [searchFrom seq run pos Nat.eqb] in *; rewrite Hrun; [reflexivity|].
  apply searchFrom_anchor_later.
Qed.

Lemma startsWith_append (p s : string) : startsWith (p +:+ s) p = true.
Proof.
  unfold startsWith. induction p as [|a p IH]; [now destruct s|].
  change (String a p +:+ s) with (String a (p +:+ s)).
  rewrite prefix_cons. destruct (ascii_dec a a); [exact IH|contradiction].
Qed.

(** *** [trim] *)

Lemma trimStart_length (cs : list ascii) :
  (List.length (trimStartChars cs) <= List.length cs)%nat.
Proof.
  induction cs as [|a cs IH]; [reflexivity|]. cbn [trimStartChars].
  destruct (space a); cbn [List.length]; lia.
Qed.

Lemma trimStart_fixed (cs : list ascii) :
  trimStartChars cs = cs ->
  match cs with a :: _ => space a = false | [] => True end.
Proof.
  destruct cs as [|a cs]; [trivial|]. cbn [trimStartChars].
  destruct (space a); [|reflexivity].
  intros H. pose proof (trimStart_length cs) as Hlen.
  rewrite H in Hlen. cbn [List.length] in Hlen. lia.
Qed.

Lemma trimStart_keeps (a : ascii) (cs : list ascii) :
  space a = false -> trimStartChars (a :: cs) = a :: cs.
Proof. intros H. cbn [trimStartChars]. now rewrite H. Qed.

Lemma chars_injective (s t : string) :
  list_ascii_of_string s = list_ascii_of_string t -> s = t.
Proof.
  intros H. rewrite <- (string_of_list_ascii_of_string s),
              <- (string_of_list_ascii_of_string t). now rewrite H.
Qed.

(** What [trim] leaves alone starts and ends with a character that is not
    white space. *)
Lemma trim_fixed (s : string) :
  trim s = s ->
  trimStartChars (list_ascii_of_string s) = list_ascii_of_string s /\
  trimStartChars (rev (list_ascii_of_string s)) = rev (list_ascii_of_string s).
Proof.
  unfold trim. intros H.
  apply (f_equal list_ascii_of_string) in H.
  rewrite list_ascii_of_string_of_list_ascii in H.
  set (cs := list_ascii_of_string s) in *.
  pose proof (trimStart_length cs) as H1.
  pose proof (trimStart_length (rev (trimStartChars cs))) as H2.
  apply (f_equal (@List.length ascii)) in H as Hlen.
  rewrite !length_rev in *.
  assert (trimStartChars cs = cs) as Hfront.
  { destruct cs as [|a cs']; [reflexivity|]. cbn [trimStartChars] in *.
    destruct (space a); [|reflexivity].
    pose proof (trimStart_length cs'). cbn [List.length] in *. lia. }
  split; [exact Hfront|].
  rewrite Hfront in H. apply (f_equal (@rev ascii)) in H.
  now rewrite rev_involutive in H.
Qed.

(** A name that [trim] leaves alone is left alone behind a prefix that
    starts with a character that is not white space. *)
Lemma trim_behind (a : ascii) (p x : string) :
  space a = false -> trim x = x -> x <> "" ->
  trim (String a p +:+ x) = String a p +:+ x.
Proof.
  intros Ha Hx Hne. apply trim_fixed in Hx as [_ Hback].
  unfold trim.
  change (String a p +:+ x) with (String a (p +:+ x)) at 1.
  cbn [list_ascii_of_string]. rewrite (trimStart_keeps a _ Ha).
  change (a :: list_ascii_of_string (p +:+ x))
    with (list_ascii_of_string (String a p +:+ x)).
  rewrite chars_of_append, rev_app_distr.
  destruct (rev (list_ascii_of_string x)) as [|b back] eqn:Hrev.
  { apply (f_equal (@rev ascii)) in Hrev. rewrite rev_involutive in Hrev.
    destruct x; [contradiction|discriminate]. }
  apply trimStart_fixed in Hback.
  cbn [app]. rewrite (trimStart_keeps b _ Hback).
  change (b :: back ++ rev (list_ascii_of_string (String a p)))
    with ((b :: back) ++ rev (list_ascii_of_string (String a p))).
  rewrite <- Hrev, <- rev_app_distr, rev_involutive, <- chars_of_append.
  apply string_of_list_ascii_of_string.
Qed.

Lemma isEmpty_append (a : ascii) (p x : string) :
  isEmpty (String a p +:+ x) = false.
Proof. reflexivity. Qed.

Lemma isEmpty_false (x : string) : x <> "" -> isEmpty x = false.
Proof. destruct x; [contradiction|reflexivity]. Qed.

(** X19.  [buildRefCandidates] asks for a branch under both of its
    spellings, whichever one it is given: the short name [x] gives [x]
    and then [refs/heads/x], the full name [refs/heads/x] gives the same
    two names in the other order. *)
Theorem both_spellings_same_candidates (x : string) :
  trim x = x -> x <> "" -> startsWith x "refs/heads/" = false ->
  buildRefCandidates x = [x; "refs/heads/" +:+ x] /\
  buildRefCandidates ("refs/heads/" +:+ x) = ["refs/heads/" +:+ x; x].
Proof.
  intros Htrim Hne Hshort. unfold buildRefCandidates. split.
  - now rewrite Htrim, (isEmpty_false x Hne), Hshort.
  - rewrite (trim_behind "r" "efs/heads/" x) by (assumption || reflexivity).
    rewrite isEmpty_append, startsWith_append.
    unfold headsRe. now rewrite (removeFirst_prefix "refs/heads/" x).
Qed.

Lemma both_spellings_same_candidates_witness :
  buildRefCandidates "feature/login" = ["feature/login"; "refs/heads/feature/login"] /\
  buildRefCandidates ("refs/heads/" +:+ "feature/login")
  = ["refs/heads/" +:+ "feature/login"; "feature/login"].
Proof.
  apply both_spellings_same_candidates;
    [vm_compute; reflexivity|discriminate|vm_compute; reflexivity].
Defined.

Lemma eqb_length (a b : string) :
  String.length a <> String.length b -> String.eqb a b = false.
Proof.
  intros Hlen. apply String.eqb_neq. intros ->. now apply Hlen.
Qed.

Lemma setAdd_new (x : string) (set : list string) :
  existsb (String.eqb x) set = false -> setAdd x set = set ++ [x].
Proof. intros H. unfold setAdd. now rewrite H. Qed.

Ltac by_length :=
  cbn [app existsb];
  rewrite ?eqb_length by (rewrite ?length_append; cbn [String.length]; lia);
  reflexivity.

(** X20.  [buildLocalGitRefCandidates] tries the same four names for a
    branch under each of its four spellings (the short name, [refs/heads/],
    [origin/] and [refs/remotes/origin/]), the given spelling first and
    the short name next. *)
Theorem local_candidates_cover_all_spellings (x : string) :
  trim x = x -> x <> "" ->
  startsWith x "refs/heads/" = false ->
  startsWith x "refs/remotes/origin/" = false ->
  startsWith x "origin/" = false ->
  let heads := "refs/heads/" +:+ x in
  let origin := "origin/" +:+ x in
  let remotes := "refs/remotes/origin/" +:+ x in
  buildLocalGitRefCandidates x = [x; heads; origin; remotes] /\
  buildLocalGitRefCandidates heads = [heads; x; origin; remotes] /\
  buildLocalGitRefCandidates remotes = [remotes; x; origin; heads] /\
  buildLocalGitRefCandidates origin = [origin; x; heads; remotes].
Proof.
  intros Htrim Hne Hheads Hremotes Horigin heads origin remotes.
  assert (startsWith remotes "refs/heads/" = false) as Hrh by reflexivity.
  assert (startsWith origin "refs/heads/" = false) as Hoh by reflexivity.
  assert (startsWith origin "refs/remotes/origin/" = false) as Hor by reflexivity.
  subst heads origin remotes. unfold buildLocalGitRefCandidates.
  repeat split.
  - rewrite Htrim, (isEmpty_false x Hne), Hheads, Hremotes, Horigin.
    change (setOf [x]) with [x].
    rewrite (setAdd_new _ [x]) by by_length.
    rewrite (setAdd_new _ ([x] ++ _)) by by_length.
    rewrite (setAdd_new _ (([x] ++ _) ++ _)) by by_length.
    reflexivity.
  - rewrite (trim_behind "r" "efs/heads/" x) by (assumption || reflexivity).
    rewrite isEmpty_append, startsWith_append.
    unfold headsRe. rewrite (removeFirst_prefix "refs/heads/" x).
    change (setOf ["refs/heads/" +:+ x]) with ["refs/heads/" +:+ x].
    rewrite (setAdd_new _ [_]) by by_length.
    rewrite (setAdd_new _ ([_] ++ _)) by by_length.
    rewrite (setAdd_new _ (([_] ++ _) ++ _)) by by_length.
    reflexivity.
  - rewrite (trim_behind "r" "efs/remotes/origin/" x) by (assumption || reflexivity).
    rewrite Hrh.
    rewrite isEmpty_append, startsWith_append.
    unfold remotesRe. rewrite (removeFirst_prefix "refs/remotes/origin/" x).
    change (setOf ["refs/remotes/origin/" +:+ x]) with ["refs/remotes/origin/" +:+ x].
    rewrite (setAdd_new _ [_]) by by_length.
    rewrite (setAdd_new _ ([_] ++ _)) by by_length.
    rewrite (setAdd_new _ (([_] ++ _) ++ _)) by by_length.
    reflexivity.
  - rewrite (trim_behind "o" "rigin/" x) by (assumption || reflexivity).
    rewrite Hoh, Hor.
    rewrite isEmpty_append, startsWith_append.
    unfold originRe. rewrite (removeFirst_prefix "origin/" x).
    change (setOf ["origin/" +:+ x]) with ["origin/" +:+ x].
    rewrite (setAdd_new _ [_]) by by_length.
    rewrite (setAdd_new _ ([_] ++ _)) by by_length.
    rewrite (setAdd_new _ (([_] ++ _) ++ _)) by by_length.
    reflexivity.
Qed.

Lemma local_candidates_cover_all_spellings_witness :
  let heads := "refs/heads/" +:+ "main" in
  let origin := "origin/" +:+ "main" in
  let remotes := "refs/remotes/origin/" +:+ "main" in
  buildLocalGitRefCandidates "main" = ["main"; heads; origin; remotes] /\
  buildLocalGitRefCandidates heads = [heads; "main"; origin; remotes] /\
  buildLocalGitRefCandidates remotes = [remotes; "main"; origin; heads] /\
  buildLocalGitRefCandidates origin = [origin; "main"; heads; remotes].
Proof.
  apply local_candidates_cover_all_spellings;
    solve [vm_compute; reflexivity | discriminate].
Defined.

End Prefixes.

Section SectionWitnesses.
Import DefinitionTracker JsLib Sections.

Lemma sections_show_first_definition_per_file_witness :
  formatDefinitionsAsMarkdown sampleDefinitions
  = Some (String.concat (newline +:+ newline)
            (map (fun file =>
                    markdownSection file
                      (shownSymbols (fun name => name) file sampleDefinitions)
                      (shownContent file sampleDefinitions))
                 (filesOf sampleDefinitions))) /\
  buildDefinitionSection sampleDefinitions
  = Some (String.concat (newline +:+ newline)
            (map (fun file =>
                    definitionSection file
                      (shownSymbols quoted file sampleDefinitions)
                      (shownContent file sampleDefinitions))
                 (filesOf sampleDefinitions))).
Proof.
  apply sections_show_first_definition_per_file. discriminate.
Defined.

End SectionWitnesses.

(** ** The file sections of the prompt *)
Section FileSections.
Import JsLib Sections.

Lemma splitOn_nonempty (sep : ascii) (s : string) : JsDiff.splitOn sep s <> [].
Proof.
  induction s as [|a s IH]; cbn [JsDiff.splitOn]; [discriminate|].
  destruct (Ascii.eqb a sep); [discriminate|].
  destruct (JsDiff.splitOn sep s); discriminate.
Qed.

Lemma pop_last (xs : list string) (x : string) : pop (xs ++ [x]) = Some x.
Proof.
  unfold pop. rewrite map_app. cbn [map]. apply last_last.
Qed.

Lemma pop_cons (x : string) (xs : list string) :
  xs <> [] -> pop (x :: xs) = pop xs.
Proof.
  intros Hne. unfold pop. destruct xs as [|y ys]; [contradiction|reflexivity].
Qed.

Lemma splitOn_plain (s : string) : dotFree s = true -> splitDots s = [s].
Proof.
  unfold dotFree, splitDots.
  induction s as [|a s IH]; [reflexivity|].
  cbn [list_ascii_of_string forallb JsDiff.splitOn].
  intros H. apply andb_prop in H as [Ha Hs].
  apply negb_true_iff in Ha. fold (splitDots s). rewrite Ha.
  unfold splitDots. rewrite (IH Hs). reflexivity.
Qed.

(** The last piece of a split is the last piece of what follows a
    separator. *)
Lemma pop_split_append (stem tail : string) :
  pop (splitDots (stem +:+ "." +:+ tail)) = pop (splitDots tail).
Proof.
  unfold splitDots. induction stem as [|a stem IH].
  - change ("" +:+ "." +:+ tail) with (String "." tail).
    cbn [JsDiff.splitOn]. rewrite Ascii.eqb_refl.
    apply pop_cons, splitOn_nonempty.
  - change (String a stem +:+ "." +:+ tail)
      with (String a (stem +:+ "." +:+ tail)).
    cbn [JsDiff.splitOn].
    destruct (Ascii.eqb a ".").
    + rewrite pop_cons by apply splitOn_nonempty. exact IH.
    + destruct (JsDiff.splitOn "." (stem +:+ "." +:+ tail)) as [|piece pieces] eqn:E.
      { now apply splitOn_nonempty in E. }
      destruct pieces as [|next pieces].
      * exfalso. clear IH. revert piece E.
        induction stem as [|b stem IHs]; intros piece E.
        -- change ("" +:+ "." +:+ tail) with (String "." tail) in E.
           cbn [JsDiff.splitOn] in E. rewrite Ascii.eqb_refl in E.
           injection E as _ E. now apply splitOn_nonempty in E.
        -- change (String b stem +:+ "." +:+ tail)
             with (String b (stem +:+ "." +:+ tail)) in E.
           cbn [JsDiff.splitOn] in E.
           destruct (Ascii.eqb b ".").
           ++ injection E as _ E. now apply splitOn_nonempty in E.
           ++ destruct (JsDiff.splitOn "." (stem +:+ "." +:+ tail))
                as [|p [|n ps]] eqn:E'; try discriminate.
              ** now apply splitOn_nonempty in E'.
              ** eapply IHs. reflexivity.
      * rewrite <- IH. rewrite !pop_cons by discriminate. reflexivity.
Qed.

(** X21.  The language that [buildFileSection] and [buildDefinitionSection]
    write behind the opening fence is what follows the last dot of the
    path; for a path without a dot it is the whole path. *)
Theorem fence_language_follows_last_dot (stem ext : string) :
  dotFree ext = true ->
  extensionOf (stem +:+ "." +:+ ext) = ext /\ extensionOf ext = ext.
Proof.
  intros Hext. unfold extensionOf.
  rewrite pop_split_append, (splitOn_plain ext Hext).
  split; reflexivity.
Qed.

Lemma fence_language_follows_last_dot_witness :
  extensionOf ("src/v1.2/Makefile" +:+ "." +:+ "in") = "in" /\
  extensionOf "in" = "in".
Proof.
  apply fence_language_follows_last_dot. reflexivity.
Defined.

(** X22.  When a file content is longer than a budget that is a whole
    number and not negative, [buildFileSection] keeps exactly
    [maxCharsPerFile] characters of it, from its start, and the note that
    follows reports the number of characters that were dropped: the two
    add up to the length of the content.  A content within such a budget
    is left as it is. *)
Theorem truncation_accounts_for_every_character (content : string)
    (maxCharsPerFile : Z) :
  0 <= maxCharsPerFile ->
  if strlen content >? maxCharsPerFile
  then exists kept omitted,
         truncated content maxCharsPerFile = kept +:+ omissionNote omitted /\
         String.prefix kept content = true /\
         strlen kept = maxCharsPerFile /\
         strlen kept + omitted = strlen content
  else truncated content maxCharsPerFile = content.
Proof.
  intros Hmax. unfold truncated.
  destruct (Z.gtb_spec (strlen content) maxCharsPerFile) as [Hlong|Hshort];
    [|reflexivity].
  exists (slice0 content maxCharsPerFile), (strlen content - maxCharsPerFile).
  split; [reflexivity|].
  assert (strlen (slice0 content maxCharsPerFile) = maxCharsPerFile) as Hkept
    by (rewrite strlen_slice0 by assumption; lia).
  split; [|split; [exact Hkept|lia]].
  unfold slice0. destruct (Z.ltb_spec maxCharsPerFile 0); [lia|].
  generalize (Z.to_nat (Z.min maxCharsPerFile (strlen content))). clear.
  intros k. revert k.
  induction content as [|a content IH]; intros [|k]; cbn [substring];
    try reflexivity.
  rewrite prefix_cons. destruct (ascii_dec a a); [apply IH|contradiction].
Qed.

Lemma truncation_accounts_for_every_character_witness :
  if strlen "const a = 1;" >? 5
  then exists kept omitted,
         truncated "const a = 1;" 5 = kept +:+ omissionNote omitted /\
         String.prefix kept "const a = 1;" = true /\
         strlen kept = 5 /\
         strlen kept + omitted = strlen "const a = 1;"
  else truncated "const a = 1;" 5 = "const a = 1;".
Proof.
  apply (truncation_accounts_for_every_character "const a = 1;" 5). lia.
Defined.

End FileSections.

(** ** [runDefinitionTracking]: from the patches to the definitions *)
Section Tracking.
Import DiffAnalyzer DefinitionTracker Traversal Provenance JsLib Extension.
Variable e : Editor.

Lemma gather_total (fileUri : string) (changedLines : list Z)
    (maxDepth maxChars : Z) :
  exists r,
    gatherDefinitionsForChangedLines (services e) fileUri changedLines maxDepth
                                     maxChars = Some r.
Proof.
  unfold gatherDefinitionsForChangedLines, runTraversal.
  destruct (gatherRecursive_total (services e) (Z.to_nat maxDepth) fileUri
              changedLines maxDepth 0 maxChars ltac:(lia) initialState)
    as ([[]|] & s & ->); eexists; reflexivity.
Qed.

Lemma gather_bounds (fileUri : string) (changedLines : list Z)
    (maxDepth maxChars : Z) (defs : list DefinitionContext) :
  0 <= maxChars ->
  gatherDefinitionsForChangedLines (services e) fileUri changedLines maxDepth
                                   maxChars = Some (Normal defs) ->
  Forall (fun ctx => 1 <= startLine ctx <= endLine ctx /\
                     strlen (definitionContent ctx) <= maxChars) defs.
Proof.
  intros Hmax. unfold gatherDefinitionsForChangedLines.
  destruct (runTraversal_invariant (services e) maxChars fileUri changedLines
              maxDepth) as (c & s & -> & Hinv).
  destruct c; [|discriminate]. intros [= <-].
  rewrite (inv_results _ _ _ Hinv). apply List.Forall_map.
  eapply List.Forall_impl; [|apply (inv_origin _ _ _ Hinv)].
  intros r Hr. apply recordedFrom_bounds in Hr as [H1 H2]. auto.
Qed.

Lemma trackFile_normal folders fileContents depth maxChars fd :
  folders <> [] ->
  exists defs,
    trackFile e folders fileContents depth maxChars fd = Some (Normal defs).
Proof.
  intros Hf. unfold trackFile.
  destruct (negb _); [now eexists|].
  destruct folders as [|folder rest]; [contradiction|].
  destruct (statResolves e _); [|now eexists].
  destruct (gather_total (joinPath e folder (Regex.removeFirst newPrefixRe (newPath fd)))
              (getChangedLineNumbers fd) depth maxChars) as [[defs|] ->];
    now eexists.
Qed.

Lemma trackFile_bounds folders fileContents depth maxChars fd defs :
  0 <= maxChars ->
  trackFile e folders fileContents depth maxChars fd = Some (Normal defs) ->
  Forall (fun ctx => 1 <= startLine ctx <= endLine ctx /\
                     strlen (definitionContent ctx) <= maxChars) defs.
Proof.
  intros Hmax. unfold trackFile.
  destruct (negb _); [intros [= <-]; constructor|].
  destruct folders as [|folder rest]; [discriminate|].
  destruct (statResolves e _); [|intros [= <-]; constructor].
  destruct (gatherDefinitionsForChangedLines _ _ _ _ _) as [[found|]|] eqn:Hg;
    [|intros [= <-]; constructor|discriminate].
  intros [= <-]. eapply gather_bounds; eassumption.
Qed.

(** The accumulator goes in front of what the loop adds. *)
Lemma trackFiles_from folders fileContents depth maxChars fds acc :
  trackFiles e folders fileContents depth maxChars fds acc
  = match trackFiles e folders fileContents depth maxChars fds [] with
    | Some (Normal defs) => Some (Normal (acc ++ defs))
    | other => other
    end.
Proof.
  revert acc. induction fds as [|fd fds IH]; intros acc; cbn [trackFiles].
  - now rewrite app_nil_r.
  - destruct (trackFile e folders fileContents depth maxChars fd) as [[defs|]|];
      try reflexivity.
    rewrite (IH (acc ++ defs)), (IH ([] ++ defs)).
    destruct (trackFiles e folders fileContents depth maxChars fds [])
      as [[more|]|]; try reflexivity.
    cbn [app]. now rewrite app_assoc.
Qed.

Lemma trackFiles_app folders fileContents depth maxChars fds1 fds2 defs1 defs2 :
  trackFiles e folders fileContents depth maxChars fds1 [] = Some (Normal defs1) ->
  trackFiles e folders fileContents depth maxChars fds2 [] = Some (Normal defs2) ->
  trackFiles e folders fileContents depth maxChars (fds1 ++ fds2) []
  = Some (Normal (defs1 ++ defs2)).
Proof.
  revert defs1. induction fds1 as [|fd fds1 IH]; intros defs1 H1 H2.
  - cbn in H1. injection H1 as <-. exact H2.
  - cbn [app trackFiles] in *.
    destruct (trackFile e folders fileContents depth maxChars fd) as [[defs|]|];
      try discriminate.
    rewrite trackFiles_from in H1 |- *.
    destruct (trackFiles e folders fileContents depth maxChars fds1 [])
      as [[more|]|] eqn:Hmore; try discriminate.
    injection H1 as <-.
    rewrite (IH more eq_refl H2). cbn [app]. now rewrite app_assoc.
Qed.

(** X23.  Unless [workspaceFolders] is an empty array,
    [runDefinitionTracking] resolves for every list of patches, every map
    of contents, every depth and every budget: a file whose traversal
    rejects is skipped, and the files after it are still tracked. *)
Theorem tracking_resolves (fileDiffs : list FileDiff)
    (fileContents : list (string * string)) (definitionDepth maxChars : Z) :
  workspaceFolders e <> Some [] ->
  exists defs,
    runDefinitionTracking e fileDiffs fileContents definitionDepth maxChars
    = Some (Normal defs).
Proof.
  intros Hfolders. unfold runDefinitionTracking.
  destruct (workspaceFolders e) as [folders|]; [|now eexists].
  destruct (definitionDepth =? 0); [now eexists|].
  assert (folders <> []) as Hf by congruence.
  generalize (@nil DefinitionContext).
  induction fileDiffs as [|fd fds IH]; intros acc; cbn [trackFiles];
    [now eexists|].
  destruct (trackFile_normal folders fileContents definitionDepth maxChars fd Hf)
    as [defs ->].
  apply IH.
Qed.

(** X24.  Every definition that [runDefinitionTracking] returns, from
    whichever file of the patch it was reached, has
    [1 <= startLine <= endLine] and a content of at most [maxCharsPerFile]
    characters, when that budget is not negative. *)
Theorem tracked_definitions_within_bounds (fileDiffs : list FileDiff)
    (fileContents : list (string * string)) (definitionDepth maxChars : Z)
    (defs : list DefinitionContext) :
  0 <= maxChars ->
  runDefinitionTracking e fileDiffs fileContents definitionDepth maxChars
  = Some (Normal defs) ->
  Forall (fun ctx => 1 <= startLine ctx <= endLine ctx /\
                     strlen (definitionContent ctx) <= maxChars) defs.
Proof.
  intros Hmax. unfold runDefinitionTracking.
  destruct (workspaceFolders e) as [folders|]; [|intros [= <-]; constructor].
  destruct (definitionDepth =? 0); [intros [= <-]; constructor|].
  assert (Forall (fun ctx => 1 <= startLine ctx <= endLine ctx /\
                             strlen (definitionContent ctx) <= maxChars)
                 (@nil DefinitionContext)) as Hacc by constructor.
  revert Hacc. generalize (@nil DefinitionContext). revert defs.
  induction fileDiffs as [|fd fds IH]; intros defs acc Hacc; cbn [trackFiles].
  - now intros [= <-].
  - destruct (trackFile e folders fileContents definitionDepth maxChars fd)
      as [[found|]|] eqn:Hfd; try discriminate.
    apply IH. apply List.Forall_app. split; [assumption|].
    eapply trackFile_bounds; eassumption.
Qed.

(** X25.  [runDefinitionTracking] tracks each file of the patch on its own
    and puts the results one after the other in the order of the patch:
    the result for two lists of patches is the result for the first
    followed by the result for the second.  Nothing is carried from one
    file to the next, so a definition that two changed files refer to is
    returned once for each. *)
Theorem tracking_concatenates (fds1 fds2 : list FileDiff)
    (fileContents : list (string * string)) (definitionDepth maxChars : Z)
    (defs1 defs2 : list DefinitionContext) :
  runDefinitionTracking e fds1 fileContents definitionDepth maxChars
  = Some (Normal defs1) ->
  runDefinitionTracking e fds2 fileContents definitionDepth maxChars
  = Some (Normal defs2) ->
  runDefinitionTracking e (fds1 ++ fds2) fileContents definitionDepth maxChars
  = Some (Normal (defs1 ++ defs2)).
Proof.
  unfold runDefinitionTracking.
  destruct (workspaceFolders e) as [folders|];
    [|now intros [= <-] [= <-]].
  destruct (definitionDepth =? 0); [now intros [= <-] [= <-]|].
  apply trackFiles_app.
Qed.

(** X26.  The file that [runDefinitionTracking] tracks for a patch is the
    file the patch was made for: [generateUnifiedDiff] names the new file
    [b/] and the path, and the path without that prefix is looked up in
    [fileContents] and under the first workspace folder, also when the
    path itself starts with [b/].  The seeds are the changed lines of
    the patch, and a traversal that rejects counts as no definitions. *)
Theorem tracked_file_is_patched_file (folder : string) (folders : list string)
    (fileContents : list (string * string)) (definitionDepth maxChars : Z)
    (fd : FileDiff) (path : string) :
  newPath fd = "b/" +:+ path ->
  mapHas path fileContents = true ->
  statResolves e (joinPath e folder path) = true ->
  trackFile e (folder :: folders) fileContents definitionDepth maxChars fd
  = match gatherDefinitionsForChangedLines (services e) (joinPath e folder path)
            (getChangedLineNumbers fd) definitionDepth maxChars with
    | Some (Normal defs) => Some (Normal defs)
    | Some Throw => Some (Normal [])
    | None => None
    end.
Proof.
  intros Hnew Hhas Hstat. unfold trackFile, newPrefixRe.
  rewrite Hnew, (removeFirst_prefix "b/" path), Hhas, Hstat. cbn [negb].
  now destruct (gatherDefinitionsForChangedLines _ _ _ _ _) as [[defs|]|].
Qed.

(** X27.  The changed lines of a patch whose hunks all start at line 1 or
    later are seeds that [gatherDefinitionsForChangedLines] accepts: for
    a file that has a line, or does not open, the promise resolves, so
    that [runDefinitionTracking] has nothing to skip. *)
Theorem patch_lines_are_accepted_seeds (fileUri : string) (fd : FileDiff)
    (definitionDepth maxChars : Z) :
  Forall (fun h => 1 <= newStart h) (hunks fd) ->
  (forall doc, openTextDocument (services e) fileUri = Some doc ->
               1 <= lineCount doc) ->
  exists defs,
    gatherDefinitionsForChangedLines (services e) fileUri
      (getChangedLineNumbers fd) definitionDepth maxChars
    = Some (Normal defs).
Proof.
  intros Hhunks Hdoc. unfold gatherDefinitionsForChangedLines.
  destruct (runTraversal_ends (services e) fileUri (getChangedLineNumbers fd)
              definitionDepth maxChars) as (c & s & Hrun & _).
  rewrite Hrun.
  rewrite (seeded_scan_quiet (services e) _ _ _ _ _ _ Hdoc
             (changed_lines_positive fd Hhunks) Hrun).
  eexists. reflexivity.
Qed.

End Tracking.

Section TrackingWitnesses.
Import DiffAnalyzer DefinitionTracker Traversal JsLib Extension.

Lemma tracking_resolves_witness :
  exists defs,
    runDefinitionTracking cycleEditor cycleDiffs cycleContents 2 20000
    = Some (Normal defs).
Proof.
  apply tracking_resolves. discriminate.
Defined.

Lemma tracked_definitions_within_bounds_witness :
  Forall (fun ctx => 1 <= startLine ctx <= endLine ctx /\
                     strlen (definitionContent ctx) <= 20000)
         trackedInCycle.
Proof.
  apply (tracked_definitions_within_bounds cycleEditor cycleDiffs cycleContents
           2 20000).
  - lia.
  - vm_compute. reflexivity.
Defined.

Lemma tracking_concatenates_witness :
  runDefinitionTracking cycleEditor (firstn 1 cycleDiffs ++ skipn 1 cycleDiffs)
                        cycleContents 2 20000
  = Some (Normal (firstn 2 trackedInCycle ++ skipn 2 trackedInCycle)).
Proof.
  apply tracking_concatenates; vm_compute; reflexivity.
Defined.

Lemma tracked_file_is_patched_file_witness :
  trackFile cycleEditor ["file:///ws"] cycleContents 2 20000
            (mkFileDiff "a/x.ts" "b/x.ts" [] false false "")
  = match gatherDefinitionsForChangedLines Fixtures.cycleWorkspace
            "file:///ws/x.ts" [] 2 20000 with
    | Some (Normal defs) => Some (Normal defs)
    | Some Throw => Some (Normal [])
    | None => None
    end.
Proof.
  apply (tracked_file_is_patched_file cycleEditor "file:///ws" [] cycleContents
           2 20000 (mkFileDiff "a/x.ts" "b/x.ts" [] false false "") "x.ts");
    reflexivity.
Defined.

Lemma patch_lines_are_accepted_seeds_witness :
  exists defs,
    gatherDefinitionsForChangedLines Fixtures.cycleWorkspace Fixtures.uriX
      (getChangedLineNumbers DiffAnalyzer.inOrderDiff) 2 20000
    = Some (Normal defs).
Proof.
  apply (patch_lines_are_accepted_seeds cycleEditor).
  - repeat constructor; cbn; lia.
  - intros doc. cbn. intros [= <-]. vm_compute. discriminate.
Defined.

End TrackingWitnesses.

(** ** The files of a branch *)
Section PositionFree.
Import Regex Matching.

Lemma orElse_some {T} (a b : option T) :
  orElse a b <> None <-> a <> None \/ b <> None.
Proof.
  destruct a, b; cbn; split; intros H;
    solve [left; discriminate | right; discriminate | discriminate
          | destruct H; contradiction | contradiction].
Qed.

Section Moves.
Context {T T' : Type}.
Variables (k : Cur -> option T) (k' : Cur -> option T').
Hypothesis Hk : follows k k'.

Lemma starGreedy_free p rs pv pv' i i' cp cp' :
  starGreedy p rs pv i cp k <> None -> starGreedy p rs pv' i' cp' k' <> None.
Proof.
  revert pv pv' i i'. induction rs as [|a rs IH]; intros pv pv' i i';
    cbn [starGreedy].
  - now apply Hk.
  - destruct (p a); [|now apply Hk].
    rewrite !orElse_some. intros [H|H]; [left; eapply IH, H|right].
    revert H. now apply Hk.
Qed.

Lemma starLazy_free p rs pv pv' i i' cp cp' :
  starLazy p rs pv i cp k <> None -> starLazy p rs pv' i' cp' k' <> None.
Proof.
  revert pv pv' i i'. induction rs as [|a rs IH]; intros pv pv' i i';
    cbn [starLazy]; rewrite !orElse_some.
  - intros [H|H]; [left|contradiction]. revert H. now apply Hk.
  - intros [H|H]; [left; revert H; now apply Hk|right].
    destruct (p a); [eapply IH, H|contradiction].
Qed.

Lemma one_free p c c' :
  rest c = rest c' -> one p c k <> None -> one p c' k' <> None.
Proof.
  unfold one. intros <-. destruct (rest c) as [|a rs]; [auto|].
  destruct (p a); [|auto]. now apply Hk.
Qed.
End Moves.

Lemma exactly_free {T T'} n p (k : Cur -> option T) (k' : Cur -> option T') :
  follows k k' -> follows (fun c => exactly n p c k) (fun c => exactly n p c k').
Proof.
  intros Hk. induction n as [|n IH]; intros c c' Hrest; cbn [exactly].
  - now apply Hk.
  - now apply one_free.
Qed.

(** The success of a match of an expression that is [positionFree] is
    decided by the characters ahead. *)
Lemma run_free {T T'} (r : re) (k : Cur -> option T) (k' : Cur -> option T') :
  positionFree r = true -> follows k k' ->
  follows (fun c => run r c k) (fun c => run r c k').
Proof.
  revert k k'.
  induction r as [a|p|p|p|n p|r1 IH1|r1 IH1 r2 IH2|r1 IH1 r2 IH2| |r1 IH1| | | ];
    intros k k' Hfree Hk c c' Hrest; cbn [run positionFree] in *;
    try discriminate.
  - now apply one_free.
  - now apply one_free.
  - rewrite <- Hrest. now apply starGreedy_free.
  - rewrite <- Hrest. now apply starLazy_free.
  - apply (exactly_free n p
             (fun c1 => starGreedy p (rest c1) (prev c1) (pos c1) (cap c1) k)
             (fun c1 => starGreedy p (rest c1) (prev c1) (pos c1) (cap c1) k'));
      [|assumption].
    intros d d' Hd. rewrite <- Hd. now apply starGreedy_free.
  - rewrite !orElse_some. intros [H|H]; [left|right].
    + revert H. now apply IH1.
    + revert H. now apply Hk.
  - apply andb_prop in Hfree as [H1 H2].
    rewrite !orElse_some. intros [H|H]; [left|right]; revert H.
    + now apply IH1.
    + now apply IH2.
  - apply andb_prop in Hfree as [H1 H2].
    apply (IH1 (fun c1 => run r2 c1 k) (fun c1 => run r2 c1 k')); auto.
  - now apply Hk.
  - apply (IH1 (fun c1 => k (mkCur (prev c1) (rest c1) (pos c1) (Some (pos c, pos c1))))
               (fun c1 => k' (mkCur (prev c1) (rest c1) (pos c1) (Some (pos c', pos c1)))));
      auto.
    intros d d' Hd. now apply Hk.
  - rewrite <- Hrest. destruct (rest c) eqn:E; [|auto]. apply Hk. congruence.
Qed.

Lemma follows_Some : follows (@Some Cur) (@Some Cur).
Proof. intros d d' _ _. discriminate. Qed.

Lemma searchFrom_free (r : re) (rs : list ascii) pv pv' i i' :
  positionFree r = true ->
  searchFrom r rs pv i <> None -> searchFrom r rs pv' i' <> None.
Proof.
  intros Hfree. revert pv pv' i i'.
  induction rs as [|a rs IH]; intros pv pv' i i'; cbn [searchFrom].
  - destruct (run r (mkCur pv [] i None) Some) eqn:E; [|contradiction].
    intros _.
    destruct (run r (mkCur pv' [] i' None) Some) eqn:E'; [discriminate|].
    exfalso. revert E'.
    apply (run_free r Some Some Hfree follows_Some (mkCur pv [] i None)); [reflexivity|].
    now rewrite E.
  - destruct (run r (mkCur pv' (a :: rs) i' None) Some) eqn:E'; [discriminate|].
    destruct (run r (mkCur pv (a :: rs) i None) Some) eqn:E.
    + exfalso. revert E'.
      apply (run_free r Some Some Hfree follows_Some (mkCur pv (a :: rs) i None));
        [reflexivity|]. now rewrite E.
    + apply IH.
Qed.

Lemma searchFrom_later (r : re) (pre rs : list ascii) pv pv' i i' :
  searchFrom r rs pv' i' <> None ->
  positionFree r = true ->
  searchFrom r (pre ++ rs) pv i <> None.
Proof.
  intros Hfound Hfree. revert pv i.
  induction pre as [|a pre IH]; intros pv i; cbn [app].
  - eapply searchFrom_free; eassumption.
  - cbn [searchFrom]. destruct (run r _ Some); [discriminate|apply IH].
Qed.

(** A test that succeeds on a text succeeds on every text that ends with
    it. *)
Lemma test_suffix (r : re) (pre s : string) :
  positionFree r = true -> test r s = true -> test r (pre +:+ s) = true.
Proof.
  intros Hfree. unfold test. rewrite chars_of_append.
  destruct (searchFrom r (list_ascii_of_string s) None 0) eqn:E; [|discriminate].
  intros _.
  destruct (searchFrom r (list_ascii_of_string pre ++ list_ascii_of_string s) None 0)
    eqn:E'; [reflexivity|].
  exfalso. revert E'. eapply searchFrom_later; [|exact Hfree]. now rewrite E.
Qed.

End PositionFree.

Section ListingFacts.
Import Regex Matching JsLib Extension.
Variable listFiles : string -> option (list BacklogFileEntry).

Lemma test_fullPath (dirPath name : string) :
  test sourceExtRe name = true ->
  test sourceExtRe (fullPathOf dirPath name) = true.
Proof.
  intros Hname. unfold fullPathOf. destruct (isEmpty dirPath); [exact Hname|].
  apply (test_suffix sourceExtRe dirPath ("/" +:+ name)); [reflexivity|].
  now apply (test_suffix sourceExtRe "/" name).
Qed.

(** What the loop over a listing keeps, given that the recursive call
    keeps it. *)
Lemma collectEntry_keeps (P : string -> Prop)
    (self : string -> option (list string)) (dirPath : string)
    (entries : list BacklogFileEntry) (acc files : list string) :
  (forall entry, In entry entries -> entryType entry = Blob ->
                 test sourceExtRe (entryName entry) = true ->
                 P (fullPathOf dirPath (entryName entry))) ->
  (forall entry sub, In entry entries -> entryType entry = Tree ->
                     self (fullPathOf dirPath (entryName entry)) = Some sub ->
                     Forall P sub) ->
  Forall P acc ->
  fold_left (collectEntry self dirPath) entries (Some acc) = Some files ->
  Forall P files.
Proof.
  revert acc. induction entries as [|entry entries IH]; intros acc Hblob Htree Hacc;
    cbn [fold_left].
  - now intros [= <-].
  - assert (forall acc', Forall P acc' ->
              fold_left (collectEntry self dirPath) entries (Some acc') = Some files ->
              Forall P files) as Hrest.
    { intros acc' Hacc'. apply IH; [| |exact Hacc'].
      - intros e He. apply Hblob. now right.
      - intros e sub He. apply Htree. now right. }
    unfold collectEntry at 2.
    destruct (entryType entry) eqn:Htype.
    + destruct (test sourceExtRe (entryName entry)) eqn:Htest.
      * apply Hrest. apply List.Forall_app. split; [assumption|].
        constructor; [|constructor]. apply Hblob; auto. now left.
      * now apply Hrest.
    + destruct (self (fullPathOf dirPath (entryName entry))) as [sub|] eqn:Hsub.
      * apply Hrest. apply List.Forall_app. split; [assumption|].
        eapply Htree; [now left|assumption|exact Hsub].
      * intros H. exfalso. revert H. clear.
        induction entries as [|e es IHe]; cbn [fold_left]; [discriminate|exact IHe].
    + now apply Hrest.
Qed.

Lemma fold_out_of_fuel (self : string -> option (list string)) (dirPath : string)
    (entries : list BacklogFileEntry) :
  fold_left (collectEntry self dirPath) entries None = None.
Proof. induction entries as [|e es IH]; cbn [fold_left]; [reflexivity|exact IH]. Qed.

Lemma collectEntry_total (self : string -> option (list string)) (dirPath : string)
    (entries : list BacklogFileEntry) (acc : list string) :
  (forall fullPath, exists sub, self fullPath = Some sub) ->
  exists files, fold_left (collectEntry self dirPath) entries (Some acc) = Some files.
Proof.
  intros Hself. revert acc.
  induction entries as [|entry entries IH]; intros acc; cbn [fold_left];
    [now eexists|].
  unfold collectEntry at 2. destruct (entryType entry).
  - destruct (test sourceExtRe (entryName entry)); apply IH.
  - destruct (Hself (fullPathOf dirPath (entryName entry))) as [sub ->]. apply IH.
  - apply IH.
Qed.

Lemma collectAllFiles_total (fuel : nat) (dirPath : string) (depth : Z) :
  (Z.to_nat (6 - depth) <= fuel)%nat ->
  exists files, collectAllFiles listFiles fuel dirPath depth = Some files.
Proof.
  revert dirPath depth.
  induction fuel as [|fuel IH]; intros dirPath depth Hfuel; cbn [collectAllFiles];
    (destruct (Z.gtb_spec depth 5); [now eexists|]); [lia|].
  destruct (listFiles dirPath) as [entries|]; [|now eexists].
  apply collectEntry_total. intros fullPath. apply IH. lia.
Qed.

Lemma collectAllFiles_keeps (P : string -> Z -> string -> Prop) :
  (forall dirPath depth entries entry,
      depth <= 5 -> listFiles dirPath = Some entries -> In entry entries ->
      entryType entry = Blob -> test sourceExtRe (entryName entry) = true ->
      P dirPath depth (fullPathOf dirPath (entryName entry))) ->
  (forall dirPath depth entries entry path,
      depth <= 5 -> listFiles dirPath = Some entries -> In entry entries ->
      entryType entry = Tree ->
      P (fullPathOf dirPath (entryName entry)) (depth + 1) path ->
      P dirPath depth path) ->
  forall fuel dirPath depth files,
    collectAllFiles listFiles fuel dirPath depth = Some files ->
    Forall (P dirPath depth) files.
Proof.
  intros Hblob Htree.
  induction fuel as [|fuel IH]; intros dirPath depth files; cbn [collectAllFiles];
    (destruct (Z.gtb_spec depth 5); [intros [= <-]; constructor|]);
    [discriminate|].
  destruct (listFiles dirPath) as [entries|] eqn:Hlist; [|intros [= <-]; constructor].
  apply collectEntry_keeps; [| |constructor].
  - intros entry Hin Htype Htest. eapply Hblob; eauto; lia.
  - intros entry sub Hin Htype Hsub. apply IH in Hsub.
    eapply List.Forall_impl; [|exact Hsub].
    intros path Hpath. eapply Htree; eauto; lia.
Qed.

Lemma slashes_append (s t : string) : slashes (s +:+ t) = slashes s + slashes t.
Proof.
  unfold slashes. rewrite chars_of_append, List.filter_app, List.length_app. lia.
Qed.

Lemma level_fullPath (dirPath name : string) :
  slashes name = 0 ->
  slashes (fullPathOf dirPath name) = level dirPath /\
  level (fullPathOf dirPath name) <= level dirPath + 1.
Proof.
  intros Hname.
  assert (0 <= slashes dirPath) as Hpos by (unfold slashes; lia).
  unfold fullPathOf, level.
  destruct (isEmpty dirPath) eqn:Hdir.
  - rewrite Hname. destruct (isEmpty name); lia.
  - rewrite !slashes_append, Hname.
    change (slashes "/") with 1.
    destruct (isEmpty (dirPath +:+ "/" +:+ name)); lia.
Qed.

(** X28.  [collectAllFiles] comes back for every repository, also one
    whose listings never end: it lists at most six levels of
    directories.  When the names of the listings are path segments, no
    path that it returns lies more than [5 - depth] directories below the
    directory it was called for; from the root, no path has more than
    five [/]. *)
Theorem listing_ends_after_six_levels (dirPath : string) (depth : Z) :
  (exists files,
      collectAllFiles listFiles (Z.to_nat (6 - depth)) dirPath depth = Some files) /\
  (plainNames listFiles ->
   forall fuel files,
     collectAllFiles listFiles fuel dirPath depth = Some files ->
     Forall (fun path => slashes path <= level dirPath + (5 - depth)) files).
Proof.
  split; [apply collectAllFiles_total; lia|].
  intros Hplain fuel files.
  apply (collectAllFiles_keeps
           (fun dir d path => slashes path <= level dir + (5 - d))).
  - intros dir d entries entry Hd Hlist Hin _ _.
    specialize (Hplain dir entries Hlist). rewrite List.Forall_forall in Hplain.
    destruct (level_fullPath dir (entryName entry) (Hplain entry Hin)) as [-> _].
    lia.
  - intros dir d entries entry path Hd Hlist Hin _ Hpath.
    specialize (Hplain dir entries Hlist). rewrite List.Forall_forall in Hplain.
    destruct (level_fullPath dir (entryName entry) (Hplain entry Hin)) as [_ Hlevel].
    lia.
Qed.

(** X29.  Every path that [collectAllFiles] returns has one of the source
    extensions: a blob whose name does not end in one of them is never
    returned, whatever directory it lies in. *)
Theorem listing_returns_source_files (fuel : nat) (dirPath : string) (depth : Z)
    (files : list string) :
  collectAllFiles listFiles fuel dirPath depth = Some files ->
  Forall (fun path => test sourceExtRe path = true) files.
Proof.
  apply (collectAllFiles_keeps (fun _ _ path => test sourceExtRe path = true)).
  - intros dir d entries entry _ _ _ _ Htest. now apply test_fullPath.
  - intros dir d entries entry path _ _ _ _ Hpath. exact Hpath.
Qed.

End ListingFacts.

Section ListingWitnesses.
Import Regex JsLib Extension.

Lemma endlessListing_plain : plainNames endlessListing.
Proof.
  intros dirPath entries [= <-]. repeat constructor.
Qed.

Lemma listing_ends_after_six_levels_witness :
  Forall (fun path => slashes path <= level "" + (5 - 0)) sixLevels.
Proof.
  apply (proj2 (listing_ends_after_six_levels endlessListing "" 0)
               endlessListing_plain 6%nat).
  vm_compute. reflexivity.
Defined.

Lemma listing_returns_source_files_witness :
  Forall (fun path => test sourceExtRe path = true) sixLevels.
Proof.
  apply (listing_returns_source_files endlessListing 6 "" 0).
  vm_compute. reflexivity.
Defined.

End ListingWitnesses.
